(** * Jellyfin-lyrics: the lyrics fetcher [main.py]

    A shallow embedding of [main.py] and the properties its specification
    states about it.

    Conventions of the embedding.
    - A Python [str] is the list of its code points ([pystr]); string
      comparison is code-point lexicographic, as in Python.
    - [os.path] is [posixpath]: the separator is [/].
    - Text files are kept decoded; reading applies Python's universal
      newlines.
    - Code that performs I/O is a program of the free monad [prog] over the
      operations [op]; [handle] gives each operation its meaning on a
      [World], [run] executes a program sequentially, and [sys_step]
      interleaves the per-file tasks of [main_async].
    - Only exceptions derived from [Exception] are modelled; a keyboard
      interrupt is outside the model. *)

From Stdlib Require Import QArith Ascii String.
From stdpp Require Import gmap strings list sorting relations.

Set Warnings "-register-all".

Open Scope list_scope.
Open Scope N_scope.

(** * The model *)

(** ** Python strings *)

Abbreviation char := N (only parsing).
Abbreviation pystr := (list N) (only parsing).

(** A literal of the source, as the list of its code points. *)
Definition str (s : string) : pystr :=
  map N_of_ascii (list_ascii_of_string s).

Arguments str : simpl never.

Definition LF : char := 10.
Definition CR : char := 13.
Definition SLASH : char := 47.
Definition DOT : char := 46.

Definition str_eqb (a b : pystr) : bool := bool_decide (a = b).

(** [str.isspace] on one code point (CPython's [_PyUnicode_IsWhitespace]). *)
Definition py_isspace (c : char) : bool :=
  ((9 <=? c) && (c <=? 13)) || ((28 <=? c) && (c <=? 32))
  || (c =? 133) || (c =? 160) || (c =? 5760)
  || ((8192 <=? c) && (c <=? 8202))
  || (c =? 8232) || (c =? 8233) || (c =? 8239) || (c =? 8287)
  || (c =? 12288).

Fixpoint lstrip (s : pystr) : pystr :=
  match s with
  | [] => []
  | c :: s' => if py_isspace c then lstrip s' else s
  end.

Definition rstrip (s : pystr) : pystr := rev (lstrip (rev s)).

(** [s.strip()] *)
Definition strip (s : pystr) : pystr := rstrip (lstrip s).

(** [s.endswith(suffix)] *)
Definition endswith (s suffix : pystr) : bool :=
  str_eqb (drop (length s - length suffix)%nat s) suffix.

(** Reading a text file opened with the default [newline=None]: the
    sequences CR LF and CR become LF. *)
Fixpoint universal_newlines (s : pystr) : pystr :=
  match s with
  | [] => []
  | c :: s' =>
      if c =? CR then
        LF :: match s' with
              | d :: s'' => if d =? LF then universal_newlines s''
                            else universal_newlines s'
              | [] => []
              end
      else c :: universal_newlines s'
  end.

(** Iterating over a text file: the lines, each with its terminating LF
    (the last line may lack one). *)
Fixpoint readlines (s : pystr) : list pystr :=
  match s with
  | [] => []
  | c :: s' =>
      if c =? LF then [c] :: readlines s'
      else match readlines s' with
           | [] => [[c]]
           | l :: ls => (c :: l) :: ls
           end
  end.

(** Code-point lexicographic order, the order of [sorted] on strings. *)
Fixpoint str_leb (a b : pystr) : bool :=
  match a, b with
  | [], _ => true
  | _ :: _, [] => false
  | x :: a', y :: b' => (x <? y) || ((x =? y) && str_leb a' b')
  end.

Definition str_le (a b : pystr) : Prop := str_leb a b = true.

#[global] Instance str_le_dec a b : Decision (str_le a b).
Proof. unfold str_le. apply _. Defined.

(** [sorted(set(l))] *)
Definition sorted_set (l : list pystr) : list pystr :=
  merge_sort str_le (elements (list_to_set l : gset pystr)).

(** ** [os.path] (POSIX flavour) *)

(** [s.split(sep)] for a one-character separator. *)
Fixpoint str_split (sep : char) (s : pystr) : list pystr :=
  match s with
  | [] => [[]]
  | c :: s' =>
      if c =? sep then [] :: str_split sep s'
      else match str_split sep s' with
           | seg :: segs => (c :: seg) :: segs
           | [] => [[c]]
           end
  end.

(** [sep.join(parts)] *)
Fixpoint str_join (sep : char) (parts : list pystr) : pystr :=
  match parts with
  | [] => []
  | [x] => x
  | x :: rest => x ++ sep :: str_join sep rest
  end.

(** [p[:1] == sep] *)
Definition starts_with_sep (p : pystr) : bool :=
  match p with
  | c :: _ => c =? SLASH
  | [] => false
  end.

(** Python's order on lists of strings, used by [min] and [max]. *)
Fixpoint segs_leb (a b : list pystr) : bool :=
  match a, b with
  | [], _ => true
  | _ :: _, [] => false
  | x :: a', y :: b' =>
      if str_eqb x y then segs_leb a' b' else str_leb x y
  end.

Definition segs_min (a b : list pystr) := if segs_leb a b then a else b.
Definition segs_max (a b : list pystr) := if segs_leb a b then b else a.

(** The components kept by [commonpath]: [c for c in s if c and c != curdir] *)
Definition path_components (p : pystr) : list pystr :=
  filter (λ c, c ≠ [] ∧ c ≠ [DOT]) (str_split SLASH p).

Inductive exn :=
| ValueError (msg : string)
| TypeError (msg : string)
| AttributeError (msg : string)
| IndexError (msg : string)
| OSError (msg : string)
| JSONDecodeError (msg : string)
| HTTPError (msg : string)
| TinyTagException (msg : string).

(** The loop of [commonpath] over [enumerate(s1)]; [s2[i]] out of range
    would be an [IndexError]. *)
Fixpoint common_loop (s1 s2 : list pystr) : exn + list pystr :=
  match s1 with
  | [] => inr []
  | c :: s1' =>
      match s2 with
      | [] => inl (IndexError "list index out of range")
      | d :: s2' =>
          if str_eqb c d then
            match common_loop s1' s2' with
            | inr common => inr (c :: common)
            | inl e => inl e
            end
          else inr []
      end
  end.

(** [os.path.commonpath(paths)] *)
Definition commonpath (paths : list pystr) : exn + pystr :=
  match paths with
  | [] => inl (ValueError "commonpath() arg is an empty sequence")
  | p0 :: ps =>
      let isabs := starts_with_sep p0 in
      if forallb (λ p, bool_decide (starts_with_sep p = isabs)) ps then
        let split_paths := map path_components paths in
        let s1 := foldr segs_min (path_components p0) split_paths in
        let s2 := foldr segs_max (path_components p0) split_paths in
        match common_loop s1 s2 with
        | inr common =>
            inr ((if isabs then [SLASH] else []) ++ str_join SLASH common)
        | inl e => inl e
        end
      else inl (ValueError "Can't mix absolute and relative paths")
  end.

Arguments commonpath : simpl never.

(** [s.rfind(c)]: the last index of [c] in [s], if any. *)
Fixpoint rfind (c : char) (s : pystr) : option nat :=
  match s with
  | [] => None
  | d :: s' =>
      match rfind c s' with
      | Some i => Some (S i)
      | None => if d =? c then Some 0%nat else None
      end
  end.

(** [os.path.splitext(p)]: the extension starts at the last dot of the last
    component, unless that component consists of leading dots up to there. *)
Definition splitext (p : pystr) : pystr * pystr :=
  let filenameIndex :=
    match rfind SLASH p with Some i => S i | None => 0%nat end in
  match rfind DOT p with
  | Some dotIndex =>
      if bool_decide (filenameIndex ≤ dotIndex)%nat then
        if forallb (λ c, c =? DOT)
             (take (dotIndex - filenameIndex) (drop filenameIndex p))
        then (p, [])
        else (take dotIndex p, drop dotIndex p)
      else (p, [])
  | None => (p, [])
  end.

(** [os.path.join(a, b)] *)
Definition path_join (a b : pystr) : pystr :=
  if starts_with_sep b then b
  else if str_eqb a [] || endswith a [SLASH] then a ++ b
  else a ++ SLASH :: b.

(** ** Values exchanged with the collaborators *)

(** What [r.json()] returns. A JSON object is the list of its items. *)
Inductive json :=
| JNull
| JBool (b : bool)
| JNum (q : Q)
| JStr (s : pystr)
| JArr (items : list json)
| JObj (members : list (pystr * json)).

(** Python truthiness of a decoded JSON value. *)
Definition truthy (v : json) : bool :=
  match v with
  | JNull => false
  | JBool b => b
  | JNum q => negb (Qeq_bool q 0)
  | JStr s => negb (str_eqb s [])
  | JArr items => match items with [] => false | _ => true end
  | JObj members => match members with [] => false | _ => true end
  end.

Fixpoint dict_lookup (key : pystr) (members : list (pystr * json)) : option json :=
  match members with
  | [] => None
  | (k, v) :: rest => if str_eqb k key then Some v else dict_lookup key rest
  end.

(** [data.get(key)]: [None] (here [JNull]) for a missing key; only a dict
    has the method. *)
Definition dict_get (data : json) (key : pystr) : exn + json :=
  match data with
  | JObj members => inr (default JNull (dict_lookup key members))
  | _ => inl (AttributeError "object has no attribute 'get'")
  end.

(** The tag object returned by [TinyTag.get]; every field may be [None]. *)
Record TinyTag := {
  album : option pystr;
  title : option pystr;
  artist : option pystr;
  duration : option Q
}.

(** [int(x)] on a float: truncation towards zero. *)
Definition int_of_float (x : Q) : Z := Z.quot (Qnum x) (Z.pos (Qden x)).

(** [not s] for a value that is [None] or a string. *)
Definition falsy_str (s : option pystr) : bool :=
  match s with
  | None => true
  | Some s => str_eqb s []
  end.

Record QueryParams := {
  artist_name : option pystr;
  track_name : option pystr;
  album_name : option pystr;
  duration_param : Z
}.

(** An HTTP response: its status and what [r.json()] does on its body. *)
Record Response := {
  status_code : Z;
  json_body : exn + json
}.

Inductive level := INFO | ERROR.

(** ** Operations and programs *)

Inductive op :=
| OsPathIsdir (p : pystr)
| OsPathExists (p : pystr)
| OsWalk (top : pystr)
| ReadText (p : pystr)
| OpenWrite (p : pystr)
| FileWrite (p : pystr) (data : pystr)
| TinyTagGet (p : pystr)
| SemAcquire
| SemRelease
| ClientGet (url : pystr) (params : QueryParams)
| Logging (lvl : level) (fmt : string)
| CacheEntriesBind (entries : list pystr)
| CacheEntriesRead
| CacheEntriesAppend (p : pystr).

(** The type of the answer to each operation. *)
Definition resp (o : op) : Type :=
  match o with
  | OsPathIsdir _ => bool
  | OsPathExists _ => bool
  | OsWalk _ => list (pystr * list pystr)
  | ReadText _ => exn + pystr
  | OpenWrite _ => exn + unit
  | FileWrite _ _ => exn + unit
  | TinyTagGet _ => exn + TinyTag
  | SemAcquire => unit
  | SemRelease => unit
  | ClientGet _ _ => exn + Response
  | Logging _ _ => unit
  | CacheEntriesBind _ => unit
  | CacheEntriesRead => list pystr
  | CacheEntriesAppend _ => unit
  end.

Inductive prog (A : Type) : Type :=
| Ret (a : A)
| Raise (e : exn)
| Vis (o : op) (k : resp o → prog A).

Arguments Ret {A} a.
Arguments Raise {A} e.
Arguments Vis {A} o k.

Fixpoint bind {A B} (p : prog A) (f : A → prog B) : prog B :=
  match p with
  | Ret a => f a
  | Raise e => Raise e
  | Vis o k => Vis o (λ r, bind (k r) f)
  end.

(** [try: p except Exception as e: h e] *)
Fixpoint try_except {A} (p : prog A) (h : exn → prog A) : prog A :=
  match p with
  | Ret a => Ret a
  | Raise e => h e
  | Vis o k => Vis o (λ r, try_except (k r) h)
  end.

#[global] Instance prog_ret : MRet prog := @Ret.
#[global] Instance prog_bind : MBind prog := λ A B f p, bind p f.

(** An operation whose answer is used as it is. *)
Definition perform (o : op) : prog (resp o) := Vis o Ret.

(** A value that a library call computed, or the exception it raised. *)
Definition lift {A} (r : exn + A) : prog A :=
  match r with
  | inl e => Raise e
  | inr a => Ret a
  end.

(** [for x in l: body x] *)
Fixpoint for_each {A} (l : list A) (body : A → prog unit) : prog unit :=
  match l with
  | [] => mret tt
  | x :: l' => body x;; for_each l' body
  end.

Definition logging_info (fmt : string) : prog unit := perform (Logging INFO fmt).
Definition logging_error (fmt : string) : prog unit := perform (Logging ERROR fmt).

(** ** The program *)

Definition directory_path : pystr := str "Z:\mnt\data\Jellyfin\Music".
Definition cache_file : pystr := str "lyrics_cache.txt".
Definition MAX_CONCURRENCY : nat := 20.

Definition load_cache : prog (list pystr) :=
  present ← perform (OsPathExists cache_file);
  if present : bool then
    text ← perform (ReadText cache_file) ≫= lift;
    mret (strip <$> filter (λ line, strip line ≠ []) (readlines text))
  else mret [].

Definition save_cache (cache : list pystr) : prog unit :=
  perform (OpenWrite cache_file) ≫= lift;;
  for_each (sorted_set cache)
    (λ item, perform (FileWrite cache_file (item ++ [LF])) ≫= lift).

Fixpoint is_in_cache (file_path : pystr) (cache_entries : list pystr)
  : prog bool :=
  match cache_entries with
  | [] => mret false
  | entry :: rest =>
      d ← perform (OsPathIsdir entry);
      if d : bool then
        common ← lift (commonpath [file_path; entry]);
        if str_eqb common entry then mret true
        else is_in_cache file_path rest
      else
        if str_eqb file_path entry then mret true
        else is_in_cache file_path rest
  end.

Definition lrclib_url : pystr := str "https://lrclib.net/api/get".

(** The result is [None] or the lyrics value found in the response. *)
Definition get_lyrics (artist title album : option pystr) (duration : Z)
  : prog (option json) :=
  let url := lrclib_url in
  let params := {| artist_name := artist; track_name := title;
                   album_name := album; duration_param := duration |} in
  returned ← try_except
    (r ← perform (ClientGet url params) ≫= lift;
     if (status_code r =? 200)%Z then
       data ← lift (json_body r);
       synced ← lift (dict_get data (str "syncedLyrics"));
       lyrics ← (if truthy synced then mret synced
                 else lift (dict_get data (str "plainLyrics")));
       if truthy lyrics then
         logging_info "Found lyrics for: %s - %s";;
         mret (Some lyrics)
       else mret None
     else mret None)
    (λ e, logging_error "HTTP error for %s - %s (%s)";; mret None);
  match returned with
  | Some lyrics => mret (Some lyrics)
  | None =>
      logging_info "Lyrics not found for: %s - %s";;
      mret None
  end.

Definition get_song_details (file_path : pystr)
  : prog (option pystr * option pystr * option pystr * Z) :=
  audio ← perform (TinyTagGet file_path) ≫= lift;
  d ← match duration audio with
      | Some x => mret (int_of_float x)
      | None => Raise (TypeError "int() argument must be a real number, not 'NoneType'")
      end;
  mret (album audio, title audio, artist audio, d).

(** The tagged tuples returned by [process_file]. *)
Inductive Outcome :=
| cached (file_path : pystr)
| already_exists (file_path : pystr)
| found (file_path : pystr)
| missing (file_path : pystr)
| error (file_path : pystr) (e : exn).

(** [async with sem: body] *)
Definition with_sem {A} (body : prog A) : prog A :=
  perform SemAcquire;;
  r ← try_except body (λ e, perform SemRelease;; Raise e);
  perform SemRelease;;
  mret r.

(** [with open(p, 'w', encoding="utf-8") as f: f.write(v)]; only a [str] can
    be written. *)
Definition write_text (p : pystr) (v : json) : prog unit :=
  perform (OpenWrite p) ≫= lift;;
  match v with
  | JStr s => perform (FileWrite p s) ≫= lift
  | _ => Raise (TypeError "write() argument must be str")
  end.

(** [cache_entries] is the list object shared with [main_async]; the
    containment check runs on its content when the task starts. *)
Definition process_file (file_path : pystr) : prog Outcome :=
  cache_entries ← perform CacheEntriesRead;
  hit ← is_in_cache file_path cache_entries;
  if hit : bool then mret (cached file_path) else
  let new_file_path := (splitext file_path).1 ++ str ".lrc" in
  present ← perform (OsPathExists new_file_path);
  if present : bool then mret (already_exists file_path) else
  extracted ← try_except
    ('(album, title, artist, duration) ← get_song_details file_path;
     if falsy_str artist || falsy_str title
     then mret (inl (missing file_path))
     else mret (inr (album, title, artist, duration)))
    (λ e, mret (inl (error file_path e)));
  match extracted with
  | inl outcome => mret outcome
  | inr (album, title, artist, duration) =>
      lyrics ← with_sem (get_lyrics artist title album duration);
      match lyrics with
      | None => mret (missing file_path)
      | Some lyrics =>
          try_except
            (write_text new_file_path lyrics;;
             mret (found file_path))
            (λ e, mret (error file_path e))
      end
  end.

Definition audio_suffixes : list pystr :=
  [str ".flac"; str ".mp3"; str ".wav"; str ".ogg"; str ".aac"; str ".wma"].

Definition collect_audio_files (directory_path : pystr) : prog (list pystr) :=
  walk ← perform (OsWalk directory_path);
  mret (concat (map (λ '(root, files),
                  map (path_join root)
                    (filter (λ file,
                       existsb (endswith file) audio_suffixes = true) files))
               walk)).

(** [main_async] up to the creation of the tasks: the discovered files.
    The loaded cache becomes the shared list [cache_entries]. *)
Definition main_setup : prog (list pystr) :=
  logging_info "Starting the lyrics fetching process...";;
  logging_info "Using cache file: %s";;
  audio_files ← collect_audio_files directory_path;
  cache_entries ← load_cache;
  perform (CacheEntriesBind cache_entries);;
  mret audio_files.

(** The local counters of [main_async]. *)
Record Counters := {
  Found_lyrics : nat;
  Missing_lyrics : nat
}.

(** The body of the loop over [asyncio.as_completed(tasks)], for one result. *)
Definition loop_body (result : Outcome) (c : Counters) : prog Counters :=
  match result with
  | cached p =>
      logging_info "Skipping (in cache): %s";;
      mret c
  | already_exists p =>
      logging_info "Lyrics file already exists for: %s";;
      perform (CacheEntriesAppend p);;
      mret c
  | found p =>
      let c := {| Found_lyrics := Found_lyrics c + 1;
                  Missing_lyrics := Missing_lyrics c |} in
      perform (CacheEntriesAppend p);;
      logging_info "Saved lyrics for: %s";;
      mret c
  | missing p =>
      let c := {| Found_lyrics := Found_lyrics c;
                  Missing_lyrics := Missing_lyrics c + 1 |} in
      logging_info "No lyrics found for: %s";;
      mret c
  | error p e =>
      let c := {| Found_lyrics := Found_lyrics c;
                  Missing_lyrics := Missing_lyrics c + 1 |} in
      logging_error "Error processing %s (%s)";;
      mret c
  end.

(** [main_async] after the loop. *)
Definition main_finish : prog unit :=
  cache_entries ← perform CacheEntriesRead;
  save_cache cache_entries;;
  logging_info "Lyrics fetching complete.";;
  logging_info "Total songs processed: %s";;
  logging_info "Total with lyrics found: %s";;
  logging_info "Total with lyrics missing: %s".

(** ** The world the program runs in *)

Record World := {
  w_isdir : pystr → bool;
  (** the text files read or written by the program, decoded *)
  w_files : gmap pystr pystr;
  (** [os.walk(top)]: each directory with the names of its files *)
  w_walk : pystr → list (pystr * list pystr);
  (** what [TinyTag.get] does on each file *)
  w_tinytag : pystr → exn + TinyTag;
  (** what the lookup service answers to the n-th request *)
  w_lrclib : nat → QueryParams → exn + Response;
  w_requests : nat;
  (** failures of [open(p, "r")] or of decoding, of [open(p, "w")] and of
      [f.write] *)
  w_read_error : pystr → option exn;
  w_open_error : pystr → option exn;
  w_write_error : pystr → pystr → option exn;
  (** the list object [cache_entries] *)
  w_cache_entries : list pystr;
  (** the value of the semaphore [sem] *)
  w_sem : nat
}.

Definition set_files (f : gmap pystr pystr) (w : World) : World :=
  {| w_isdir := w_isdir w; w_files := f; w_walk := w_walk w;
     w_tinytag := w_tinytag w; w_lrclib := w_lrclib w;
     w_requests := w_requests w; w_read_error := w_read_error w;
     w_open_error := w_open_error w; w_write_error := w_write_error w;
     w_cache_entries := w_cache_entries w; w_sem := w_sem w |}.

Definition set_requests (n : nat) (w : World) : World :=
  {| w_isdir := w_isdir w; w_files := w_files w; w_walk := w_walk w;
     w_tinytag := w_tinytag w; w_lrclib := w_lrclib w;
     w_requests := n; w_read_error := w_read_error w;
     w_open_error := w_open_error w; w_write_error := w_write_error w;
     w_cache_entries := w_cache_entries w; w_sem := w_sem w |}.

Definition set_cache_entries (l : list pystr) (w : World) : World :=
  {| w_isdir := w_isdir w; w_files := w_files w; w_walk := w_walk w;
     w_tinytag := w_tinytag w; w_lrclib := w_lrclib w;
     w_requests := w_requests w; w_read_error := w_read_error w;
     w_open_error := w_open_error w; w_write_error := w_write_error w;
     w_cache_entries := l; w_sem := w_sem w |}.

Definition set_sem (n : nat) (w : World) : World :=
  {| w_isdir := w_isdir w; w_files := w_files w; w_walk := w_walk w;
     w_tinytag := w_tinytag w; w_lrclib := w_lrclib w;
     w_requests := w_requests w; w_read_error := w_read_error w;
     w_open_error := w_open_error w; w_write_error := w_write_error w;
     w_cache_entries := w_cache_entries w; w_sem := n |}.

(** [os.path.exists] *)
Definition path_exists (w : World) (p : pystr) : bool :=
  w_isdir w p || bool_decide (is_Some (w_files w !! p)).

(** The meaning of each operation: its answer and the world after it, or
    [None] when the operation cannot proceed yet (a semaphore at zero). *)
Definition handle (o : op) (w : World) : option (resp o * World) :=
  match o return option (resp o * World) with
  | OsPathIsdir p => Some (w_isdir w p, w)
  | OsPathExists p => Some (path_exists w p, w)
  | OsWalk top => Some (w_walk w top, w)
  | ReadText p =>
      match w_read_error w p with
      | Some e => Some (inl e, w)
      | None =>
          match w_files w !! p with
          | Some text => Some (inr (universal_newlines text), w)
          | None => Some (inl (OSError "cannot open for reading"), w)
          end
      end
  | OpenWrite p =>
      match w_open_error w p with
      | Some e => Some (inl e, w)
      | None =>
          if w_isdir w p then Some (inl (OSError "Is a directory"), w)
          else Some (inr tt, set_files (<[p := []]> (w_files w)) w)
      end
  | FileWrite p data =>
      match w_write_error w p data with
      | Some e => Some (inl e, w)
      | None =>
          Some (inr tt,
                set_files (<[p := default [] (w_files w !! p) ++ data]>
                             (w_files w)) w)
      end
  | TinyTagGet p => Some (w_tinytag w p, w)
  | SemAcquire =>
      match w_sem w with
      | O => None
      | S n => Some (tt, set_sem n w)
      end
  | SemRelease => Some (tt, set_sem (S (w_sem w)) w)
  | ClientGet url params =>
      Some (w_lrclib w (w_requests w) params,
            set_requests (S (w_requests w)) w)
  | Logging _ _ => Some (tt, w)
  | CacheEntriesBind entries => Some (tt, set_cache_entries entries w)
  | CacheEntriesRead => Some (w_cache_entries w, w)
  | CacheEntriesAppend p =>
      Some (tt, set_cache_entries (w_cache_entries w ++ [p]) w)
  end.

(** How a sequential execution ends. *)
Inductive Res (A : Type) : Type :=
| Ok (a : A)
| Raised (e : exn)
| Blocked.

Arguments Ok {A} a.
Arguments Raised {A} e.
Arguments Blocked {A}.

(** Sequential execution: the result, the final world and the operations
    performed, in order. *)
Fixpoint run {A} (p : prog A) (w : World) : Res A * World * list op :=
  match p with
  | Ret a => (Ok a, w, [])
  | Raise e => (Raised e, w, [])
  | Vis o k =>
      match handle o w with
      | None => (Blocked, w, [])
      | Some (r, w') =>
          let '(res, w'', tr) := run (k r) w' in (res, w'', o :: tr)
      end
  end.

(** ** The cache file *)

(** The text [save_cache] writes for the sorted entries: one per line. *)
Definition cache_text (entries : list pystr) : pystr :=
  concat (map (λ item, item ++ [LF]) entries).

(** Entries that a line of the cache file can hold: not empty, no line
    break inside, no white space at either end. *)
Definition clean_entry (s : pystr) : bool :=
  match s with [] => false | c :: _ => negb (py_isspace c) end
  && match rev s with [] => false | c :: _ => negb (py_isspace c) end
  && forallb (λ c, negb (c =? LF) && negb (c =? CR)) s.

(** A world with an empty file system, no readable audio file and an
    unreachable lookup service; the examples below vary it. *)
Definition empty_world : World :=
  {| w_isdir := λ _, false;
     w_files := ∅;
     w_walk := λ _, [];
     w_tinytag := λ _, inl (TinyTagException "unreadable");
     w_lrclib := λ _ _, inl (HTTPError "unreachable");
     w_requests := 0;
     w_read_error := λ _, None;
     w_open_error := λ _, None;
     w_write_error := λ _ _, None;
     w_cache_entries := [];
     w_sem := MAX_CONCURRENCY |}.

(** ** The containment check *)

(** Longest common prefix of two lists of components. *)
Fixpoint lcp (a b : list pystr) : list pystr :=
  match a, b with
  | x :: a', y :: b' => if str_eqb x y then x :: lcp a' b' else []
  | _, _ => []
  end.

(** A component kept by [path_components]. *)
Definition good_component (c : pystr) : Prop :=
  c ≠ [] ∧ c ≠ [DOT] ∧ SLASH ∉ c.

(** A path in the form [commonpath] produces: its components joined by
    single separators, with a leading separator exactly when absolute. *)
Definition normalized (e : pystr) : Prop :=
  e = (if starts_with_sep e then [SLASH] else [])
        ++ str_join SLASH (path_components e).

(** What one entry contributes to [is_in_cache]. *)
Definition entry_matches (isdir : pystr → bool) (path e : pystr) : Prop :=
  if isdir e then
    starts_with_sep path = starts_with_sep e
    ∧ normalized e
    ∧ path_components e `prefix_of` path_components path
  else path = e.

(** The entries on which [commonpath] raises [ValueError]. *)
Definition entry_raises (isdir : pystr → bool) (path e : pystr) : Prop :=
  isdir e = true ∧ starts_with_sep path ≠ starts_with_sep e.

(** The containment test in the words of the specification: [path] equals
    some entry, or some entry is a directory and [path] is lexically inside
    it, components compared one by one. *)
Definition lexically_inside (path dir : pystr) : Prop :=
  starts_with_sep path = starts_with_sep dir
  ∧ path_components dir `prefix_of` path_components path.

Definition Contains (isdir : pystr → bool) (path : pystr)
    (entries : list pystr) : Prop :=
  ∃ e, e ∈ entries ∧ (path = e ∨ (isdir e = true ∧ lexically_inside path e)).

(** A world in which [/music/] is a directory. *)
Definition music_world : World :=
  {| w_isdir := λ p, str_eqb p (str "/music/");
     w_files := ∅;
     w_walk := λ _, [];
     w_tinytag := λ _, inl (TinyTagException "unreadable");
     w_lrclib := λ _ _, inl (HTTPError "unreachable");
     w_requests := 0;
     w_read_error := λ _, None;
     w_open_error := λ _, None;
     w_write_error := λ _ _, None;
     w_cache_entries := [str "/music/"];
     w_sem := MAX_CONCURRENCY |}.

(** ** The lyrics client *)

(** The value [get_lyrics] returns for each answer of the lookup service. *)
Definition lyrics_of_response (r : exn + Response) : option json :=
  match r with
  | inl _ => None
  | inr resp =>
      if (status_code resp =? 200)%Z then
        match json_body resp with
        | inr (JObj members) =>
            let synced := default JNull (dict_lookup (str "syncedLyrics") members) in
            let plain := default JNull (dict_lookup (str "plainLyrics") members) in
            if truthy synced then Some synced
            else if truthy plain then Some plain else None
        | _ => None
        end
      else None
  end.

Definition is_log (o : op) : Prop := ∃ lvl fmt, o = Logging lvl fmt.

Definition lookup_params (artist title album : option pystr) (d : Z) : QueryParams :=
  {| artist_name := artist; track_name := title; album_name := album;
     duration_param := d |}.

(** ** The file processor, stage by stage *)

(** The sibling output file of an audio file. *)
Definition lrc_path (file_path : pystr) : pystr :=
  (splitext file_path).1 ++ str ".lrc".

Arguments splitext : simpl never.

(** What [process_file] does once the lyrics value is known. *)
Definition write_stage (file_path : pystr) (lyrics : option json)
  : prog Outcome :=
  match lyrics with
  | None => mret (missing file_path)
  | Some lyrics =>
      try_except
        (write_text (lrc_path file_path) lyrics;;
         mret (found file_path))
        (λ e, mret (error file_path e))
  end.

(** What [process_file] does once the metadata is known to be usable. *)
Definition lookup_stage (file_path : pystr)
    (album title artist : option pystr) (duration : Z) : prog Outcome :=
  lyrics ← with_sem (get_lyrics artist title album duration);
  write_stage file_path lyrics.

Arguments lookup_stage : simpl never.
Arguments write_stage : simpl never.
Arguments lrc_path : simpl never.

(** ** Properties of the file processor *)

Definition is_extraction (o : op) : bool :=
  match o with TinyTagGet _ => true | _ => false end.
Definition is_lookup (o : op) : bool :=
  match o with ClientGet _ _ => true | _ => false end.
Definition is_write (o : op) : bool :=
  match o with OpenWrite _ | FileWrite _ _ => true | _ => false end.

(** A world whose cache holds one file. *)
Definition cached_world : World :=
  {| w_isdir := λ _, false;
     w_files := ∅;
     w_walk := λ _, [];
     w_tinytag := λ _, inl (TinyTagException "unreadable");
     w_lrclib := λ _ _, inl (HTTPError "unreachable");
     w_requests := 0;
     w_read_error := λ _, None;
     w_open_error := λ _, None;
     w_write_error := λ _ _, None;
     w_cache_entries := [str "/music/b.mp3"; str "/music/a.mp3"];
     w_sem := MAX_CONCURRENCY |}.

(** Worlds with one kind of audio file and one answer of the service. *)
Definition song_world (tags : exn + TinyTag) (answer : exn + Response)
  : World :=
  {| w_isdir := λ _, false;
     w_files := ∅;
     w_walk := λ _, [(directory_path, [str "song.mp3"])];
     w_tinytag := λ _, tags;
     w_lrclib := λ _ _, answer;
     w_requests := 0;
     w_read_error := λ _, None;
     w_open_error := λ _, None;
     w_write_error := λ _ _, None;
     w_cache_entries := [];
     w_sem := MAX_CONCURRENCY |}.

Definition waterloo_sunset : TinyTag :=
  {| album := Some (str "Something Else");
     title := Some (str "Waterloo Sunset");
     artist := Some (str "The Kinks");
     duration := Some (211 # 1)%Q |}.

(** A lookup that failed: a transport error or timeout, a status other than
    200, a body that is not JSON, or JSON that is not an object. *)
Definition lookup_failed (r : exn + Response) : Prop :=
  match r with
  | inl _ => True
  | inr resp =>
      status_code resp ≠ 200%Z
      ∨ (∃ e, json_body resp = inl e)
      ∨ (∃ v, json_body resp = inr v ∧ ∀ members, v ≠ JObj members)
  end.

(** A genuine answer without lyrics: status 200 and an object whose lyrics
    fields are absent or falsy. *)
Definition no_match (r : exn + Response) : Prop :=
  ∃ resp members,
    r = inr resp ∧ status_code resp = 200%Z
    ∧ json_body resp = inr (JObj members)
    ∧ truthy (default JNull (dict_lookup (str "syncedLyrics") members)) = false
    ∧ truthy (default JNull (dict_lookup (str "plainLyrics") members)) = false.

(** The conditions under which [process_file] reaches the lookup. *)
Definition reaches_lookup (w : World) (p : pystr)
    (al t ar : option pystr) (d : Z) : Prop :=
  (run (is_in_cache p (w_cache_entries w)) w).1.1 = Ok false
  ∧ path_exists w (lrc_path p) = false
  ∧ (run (get_song_details p) w).1.1 = Ok (al, t, ar, d)
  ∧ falsy_str ar = false ∧ falsy_str t = false
  ∧ (0 < w_sem w)%nat.

Definition no_artist : TinyTag :=
  {| album := Some (str "Something Else");
     title := Some (str "Waterloo Sunset");
     artist := Some [];
     duration := Some (211 # 1)%Q |}.

Definition no_album_no_duration : TinyTag :=
  {| album := Some [];
     title := Some (str "Waterloo Sunset");
     artist := Some (str "The Kinks");
     duration := Some (0 # 1)%Q |}.

Definition empty_lyrics_answer : Response :=
  {| status_code := 200;
     json_body := inr (JObj [(str "syncedLyrics", JStr []);
                             (str "plainLyrics", JNull)]) |}.

(** A world whose lookup service times out and whose output files cannot be
    opened. *)
Definition hostile_world : World :=
  {| w_isdir := λ _, false;
     w_files := ∅;
     w_walk := λ _, [(directory_path, [str "song.mp3"])];
     w_tinytag := λ _, inr waterloo_sunset;
     w_lrclib := λ _ _, inl (HTTPError "timed out");
     w_requests := 0;
     w_read_error := λ _, None;
     w_open_error := λ _, Some (OSError "Permission denied");
     w_write_error := λ _ _, Some (OSError "No space left on device");
     w_cache_entries := [];
     w_sem := MAX_CONCURRENCY |}.

(** A world whose cache file exists and cannot be read. *)
Definition unreadable_cache_world : World :=
  {| w_isdir := λ _, false;
     w_files := {[ cache_file := str "/music/a.mp3" ++ [LF] ]};
     w_walk := λ _, [(directory_path, [str "song.mp3"])];
     w_tinytag := λ _, inr waterloo_sunset;
     w_lrclib := λ _ _, inl (HTTPError "timed out");
     w_requests := 0;
     w_read_error := λ _, Some (OSError "Permission denied");
     w_open_error := λ _, None;
     w_write_error := λ _ _, None;
     w_cache_entries := [];
     w_sem := MAX_CONCURRENCY |}.

(** A world whose cache lists the current directory, a relative path. *)
Definition relative_dir_world : World :=
  {| w_isdir := λ p, str_eqb p (str ".");
     w_files := ∅;
     w_walk := λ _, [(str "/music", [str "song.mp3"])];
     w_tinytag := λ _, inr waterloo_sunset;
     w_lrclib := λ _ _, inl (HTTPError "timed out");
     w_requests := 0;
     w_read_error := λ _, None;
     w_open_error := λ _, None;
     w_write_error := λ _ _, None;
     w_cache_entries := [str "."];
     w_sem := MAX_CONCURRENCY |}.

(** ** The tasks of [main_async] *)

(** A task created for one file: still running or finished and not yet
    awaited ([Pending]), or awaited by the loop ([Consumed]). *)
Inductive Task :=
| Pending (p : prog Outcome)
| Consumed (result : Outcome).

Record Sys := {
  sys_world : World;
  sys_tasks : list Task;
  sys_counters : Counters;
  (** the operations performed so far, with the index of the task *)
  sys_events : list (nat * op)
}.

(** One step of a task in a world: its pending operation is performed, or,
    when the task has finished, the loop of [main_async] handles its result.
    A task whose operation cannot proceed, or that raised, has no step. The
    result is the task, the world and the counters after the step, and the
    operation performed by the task, if any. *)
Definition step_of (t : Task) (w : World) (c : Counters)
  : option (Task * World * Counters * list op) :=
  match t with
  | Pending (Vis o k) =>
      match handle o w with
      | Some (r, w') => Some (Pending (k r), w', c, [o])
      | None => None
      end
  | Pending (Ret result) =>
      match run (loop_body result c) w with
      | (Ok c', w', _) => Some (Consumed result, w', c', [])
      | _ => None
      end
  | _ => None
  end.

(** One step of the event loop, on behalf of task [i]. *)
Definition task_step (i : nat) (s : Sys) : option Sys :=
  match sys_tasks s !! i with
  | Some t =>
      match step_of t (sys_world s) (sys_counters s) with
      | Some (t', w', c', ops) =>
          Some {| sys_world := w';
                  sys_tasks := <[i := t']> (sys_tasks s);
                  sys_counters := c';
                  sys_events := sys_events s ++ map (pair i) ops |}
      | None => None
      end
  | None => None
  end.

Definition sys_step (s s' : Sys) : Prop := ∃ i, task_step i s = Some s'.

(** A schedule: the tasks that step, in order. *)
Fixpoint run_schedule (schedule : list nat) (s : Sys) : option Sys :=
  match schedule with
  | [] => Some s
  | i :: rest =>
      match task_step i s with
      | Some s' => run_schedule rest s'
      | None => None
      end
  end.

(** The state in which the tasks are created: [sem] is a new semaphore. *)
Definition initial_sys (w : World) (audio_files : list pystr) : Sys :=
  {| sys_world := set_sem MAX_CONCURRENCY w;
     sys_tasks := map (λ fp, Pending (process_file fp)) audio_files;
     sys_counters := {| Found_lyrics := 0; Missing_lyrics := 0 |};
     sys_events := [] |}.

(** How [main_async] ends. *)
Inductive Final :=
| Completed (w : World) (c : Counters) (results : list Outcome)
| Aborted (e : exn) (w : World).

Inductive main_async (w : World) : Final → Prop :=
| main_setup_raises e w' tr :
    run main_setup w = (Raised e, w', tr) →
    main_async w (Aborted e w')
| main_task_raises audio_files w0 tr s i e :
    run main_setup w = (Ok audio_files, w0, tr) →
    rtc sys_step (initial_sys w0 audio_files) s →
    sys_tasks s !! i = Some (Pending (Raise e)) →
    main_async w (Aborted e (sys_world s))
| main_save_raises audio_files w0 tr s results e w' tr' :
    run main_setup w = (Ok audio_files, w0, tr) →
    rtc sys_step (initial_sys w0 audio_files) s →
    sys_tasks s = map Consumed results →
    run main_finish (sys_world s) = (Raised e, w', tr') →
    main_async w (Aborted e w')
| main_completes audio_files w0 tr s results w' tr' :
    run main_setup w = (Ok audio_files, w0, tr) →
    rtc sys_step (initial_sys w0 audio_files) s →
    sys_tasks s = map Consumed results →
    run main_finish (sys_world s) = (Ok tt, w', tr') →
    main_async w (Completed w' (sys_counters s) results).

(** A lookup is in flight while its task is suspended in [client.get]. *)
Definition in_flight (t : Task) : bool :=
  match t with
  | Pending (Vis (ClientGet _ _) _) => true
  | _ => false
  end.

Definition lookups_in_flight (s : Sys) : nat :=
  length (filter (λ t, in_flight t = true) (sys_tasks s)).

(** The operations a task performs outside the semaphore, and inside. *)
Definition free_op (o : op) : bool :=
  match o with
  | OsPathIsdir _ | OsPathExists _ | TinyTagGet _ | OpenWrite _
  | FileWrite _ _ | Logging _ _ | CacheEntriesRead => true
  | _ => false
  end.

Definition held_op (o : op) : bool :=
  match o with
  | ClientGet _ _ | Logging _ _ => true
  | _ => false
  end.

(** Whether a task that holds the semaphore ([h = true]) or not may perform
    an operation, and whether it holds the semaphore afterwards. *)
Definition op_allowed (h : bool) (o : op) : bool :=
  match o with
  | SemAcquire => negb h
  | SemRelease => h
  | _ => if h then held_op o else free_op o
  end.

Definition holds_after (h : bool) (o : op) : bool :=
  match o with
  | SemAcquire => true
  | SemRelease => false
  | _ => h
  end.

(** [sem_discipline h hret hraise p]: started while holding the semaphore
    ([h = true]) or not, the program [p] acquires only when it does not hold
    it, releases only when it holds it, performs only [held_op]s while
    holding it and only [free_op]s otherwise, and holds it on return
    (on raise) exactly when [hret] ([hraise]). *)
Fixpoint sem_discipline {A} (h hret hraise : bool) (p : prog A) : Prop :=
  match p with
  | Ret _ => h = hret
  | Raise _ => h = hraise
  | Vis o k =>
      op_allowed h o = true
      ∧ ∀ r, sem_discipline (holds_after h o) hret hraise (k r)
  end.

(** ** The semaphore invariant *)

Definition task_ok (t : Task) (h : bool) : Prop :=
  match t with
  | Pending p => sem_discipline h false false p
  | Consumed _ => h = false
  end.

Definition count_true (hs : list bool) : nat :=
  length (filter (λ h, h = true) hs).

(** Each task follows the discipline from where it stands, and the free
    slots plus the held ones make the capacity. *)
Definition sem_inv (s : Sys) : Prop :=
  ∃ hs, Forall2 task_ok (sys_tasks s) hs
        ∧ (w_sem (sys_world s) + count_true hs = MAX_CONCURRENCY)%nat.

(** Two files, both suspended in their lookup. *)
Definition two_lookups_schedule : list nat :=
  [0; 0; 0; 0; 1; 1; 1; 1]%nat.

Definition two_songs : list pystr :=
  [str "/music/a.mp3"; str "/music/b.mp3"].

(** ** The cache during and after a run *)

(** The paths of the files handled as [found] or [already_exists] are in
    [cache_entries]. *)
Definition cache_inv (s : Sys) : Prop :=
  ∀ i p,
    sys_tasks s !! i = Some (Consumed (found p))
    ∨ sys_tasks s !! i = Some (Consumed (already_exists p)) →
    p ∈ w_cache_entries (sys_world s).

(** What holds throughout the loop of a run that started with the entries
    [E] in a world whose directories are [isdir0]. *)
Definition run_inv (isdir0 : pystr → bool) (E : list pystr) (s : Sys) : Prop :=
  sem_inv s
  ∧ w_isdir (sys_world s) = isdir0
  ∧ E `prefix_of` w_cache_entries (sys_world s)
  ∧ cache_inv s.

Definition song_path : pystr := path_join directory_path (str "song.mp3").

(** A world with one song, whose [.lrc] file exists already. *)
Definition lrc_present_world : World :=
  {| w_isdir := λ _, false;
     w_files := {[ lrc_path song_path := str "la la" ]};
     w_walk := λ _, [(directory_path, [str "song.mp3"; str "cover.jpg"])];
     w_tinytag := λ _, inr waterloo_sunset;
     w_lrclib := λ _ _, inl (HTTPError "timed out");
     w_requests := 0;
     w_read_error := λ _, None;
     w_open_error := λ _, None;
     w_write_error := λ _ _, None;
     w_cache_entries := [];
     w_sem := MAX_CONCURRENCY |}.

(** A complete run of [main_async] along a schedule, when there is one. *)
Definition main_async_along (schedule : list nat) (w : World) : option Final :=
  match run main_setup w with
  | (Ok audio_files, w0, _) =>
      match run_schedule schedule (initial_sys w0 audio_files) with
      | Some s =>
          match mapM (λ t, match t with
                           | Consumed r => Some r
                           | Pending _ => None
                           end) (sys_tasks s) with
          | Some results =>
              match run main_finish (sys_world s) with
              | (Ok _, w', _) => Some (Completed w' (sys_counters s) results)
              | _ => None
              end
          | None => None
          end
      | None => None
      end
  | _ => None
  end.

(** The world and the counters a run ends with. *)
Definition final_world (f : Final) : World :=
  match f with
  | Completed w _ _ => w
  | Aborted _ w => w
  end.

Definition final_counters (f : Final) : Counters :=
  match f with
  | Completed _ c _ => c
  | Aborted _ _ => {| Found_lyrics := 0; Missing_lyrics := 0 |}
  end.

(** The run along a schedule, and the state a schedule leads to. *)
Definition run_along (schedule : list nat) (w : World) : Final :=
  default (Aborted (ValueError "no such run") w)
    (main_async_along schedule w).

Definition state_after (schedule : list nat) (s : Sys) : Sys :=
  default s (run_schedule schedule s).

(** ** A second run *)

(** What [process_file] does after the containment check. *)
Definition post_check (p : pystr) (hit : bool) : prog Outcome :=
  if hit then mret (cached p) else
  present ← perform (OsPathExists (lrc_path p));
  if present : bool then mret (already_exists p) else
  extracted ← try_except
    ('(album, title, artist, duration) ← get_song_details p;
     if falsy_str artist || falsy_str title
     then mret (inl (missing p))
     else mret (inr (album, title, artist, duration)))
    (λ e, mret (inl (error p e)));
  match extracted with
  | inl outcome => mret outcome
  | inr (album, title, artist, duration) =>
      lookup_stage p album title artist duration
  end.

Arguments post_check : simpl never.



(** ** Where a [cached] outcome comes from *)

(** [ensures P p]: whenever [p] returns, its result satisfies [P]. *)
Fixpoint ensures {A} (P : A → Prop) (p : prog A) : Prop :=
  match p with
  | Ret a => P a
  | Raise _ => True
  | Vis _ k => ∀ r, ensures P (k r)
  end.




Definition synced_answer : Response :=
  {| status_code := 200;
     json_body := inr (JObj [(str "syncedLyrics",
                              JStr (str "[00:12.00] Dirty old river"))]) |}.


(** Run 1 finds the lyrics of the one song; run 2 is followed until its
    task has been handled. *)
Definition found_world : World :=
  song_world (inr waterloo_sunset) (inr synced_answer).

Definition found_run1 : Final := run_along (replicate 10 0%nat) found_world.





(** ** Lines of the cache file *)

(** A line of a text file: its body, then LF unless the file ends there. *)
Definition is_line (l : pystr) : Prop :=
  ∃ body, Forall (λ c, c ≠ LF) body ∧ (l = body ++ [LF] ∨ l = body).

(** ** The results of a run *)

(** The path an outcome is about: [result[1]], or [result[1][0]] for
    ["error"]. *)
Definition outcome_path (out : Outcome) : pystr :=
  match out with
  | cached p | already_exists p | found p | missing p | error p _ => p
  end.

(** The branches of the loop of [main_async] that add one to
    [Found_lyrics], that add one to [Missing_lyrics], and that append to
    [cache_entries]. *)
Definition counts_found (out : Outcome) : bool :=
  match out with found _ => true | _ => false end.
Definition counts_missing (out : Outcome) : bool :=
  match out with missing _ | error _ _ => true | _ => false end.
Definition is_appended (out : Outcome) : bool :=
  match out with found _ | already_exists _ => true | _ => false end.

(** A task for the file [p] whose program satisfies [Q] and whose result
    satisfies [R]. *)
Definition task_inv (Q : pystr → prog Outcome → Prop)
    (R : pystr → Outcome → Prop) (p : pystr) (t : Task) : Prop :=
  match t with
  | Pending q => Q p q
  | Consumed out => R p out
  end.

(** What the counters and the list of entries are in every state of the
    loop: they account for the results awaited so far. *)
Definition loop_inv (w0 : World) (s : Sys) : Prop :=
  Found_lyrics (sys_counters s)
  = length (filter (λ t, match t with
                         | Consumed out => counts_found out
                         | Pending _ => false
                         end = true) (sys_tasks s))
  ∧ Missing_lyrics (sys_counters s)
    = length (filter (λ t, match t with
                           | Consumed out => counts_missing out
                           | Pending _ => false
                           end = true) (sys_tasks s))
  ∧ ∃ extra,
      w_cache_entries (sys_world s) = w_cache_entries w0 ++ extra
      ∧ extra ≡ₚ
        omap (λ t, match t with
                   | Consumed out =>
                       if is_appended out then Some (outcome_path out) else None
                   | Pending _ => None
                   end) (sys_tasks s).

(** ** What a task may do *)

(** The file an operation writes to. *)
Definition write_target (o : op) : option pystr :=
  match o with
  | OpenWrite p | FileWrite p _ => Some p
  | _ => None
  end.

(** [all_ops Q p]: every operation [p] can perform satisfies [Q]. *)
Fixpoint all_ops {A} (Q : op → Prop) (p : prog A) : Prop :=
  match p with
  | Vis o k => Q o ∧ ∀ r, all_ops Q (k r)
  | _ => True
  end.

(** Operations that write to no file other than [target]. *)
Definition writes_only (target : pystr) (o : op) : Prop :=
  ∀ x, write_target o = Some x → x = target.


(** The [ValueError] of [os.path.commonpath]. *)
Definition mixed_paths : exn :=
  ValueError "Can't mix absolute and relative paths".

(** [lookups_le n p]: [p] performs at most [n] lookups. *)
Fixpoint lookups_le {A} (n : nat) (p : prog A) : Prop :=
  match p with
  | Vis o k =>
      if is_lookup o
      then match n with
           | O => False
           | S m => ∀ r, lookups_le m (k r)
           end
      else ∀ r, lookups_le n (k r)
  | _ => True
  end.

(** The lookups task [i] has performed. *)
Definition lookups_by (i : nat) (events : list (nat * op)) : nat :=
  length (filter (λ ev, ev.1 = i ∧ is_lookup ev.2 = true) events).

(** Each task still has the lookups [bs] allows it; what it has used and
    what it has left make one, and the requests sent and the lookups left
    make one per file. *)
Definition lookup_inv (w0 : World) (n : nat) (s : Sys) : Prop :=
  ∃ bs : list nat,
    Forall2 (λ t b, match t with
                    | Pending q => lookups_le b q
                    | Consumed _ => True
                    end) (sys_tasks s) bs
    ∧ (∀ j, lookups_by j (sys_events s) + default 0 (bs !! j) ≤ 1)%nat
    ∧ (w_requests (sys_world s) + sum_list bs = w_requests w0 + n)%nat
    ∧ (w_requests (sys_world s)
       = w_requests w0
         + length (filter (λ ev, is_lookup ev.2 = true) (sys_events s)))%nat.

(** ** The end of a run *)

(** A run has ended when every result has been awaited, or when a task has
    raised. *)
Definition all_consumed (s : Sys) : Prop :=
  ∃ results, sys_tasks s = map Consumed results.

Definition task_raised (s : Sys) : Prop :=
  ∃ i e, sys_tasks s !! i = Some (Pending (Raise e)).

(** One step of a task, whatever the world. *)
Definition task_succ (t' t : Task) : Prop :=
  ∃ w c w' c' ops, step_of t w c = Some (t', w', c', ops).

(** One step of one task of a list. *)
Definition tasks_succ (ts' ts : list Task) : Prop :=
  ∃ i t t', ts !! i = Some t ∧ task_succ t' t ∧ ts' = <[i := t']> ts.

(** ** Further examples *)

(** A cache file written by hand: padded lines, a CR LF line break and an
    empty line. *)
Definition padded_cache_world : World :=
  set_files
    {[ cache_file :=
         str "  /m/b.mp3 " ++ [CR; LF; LF] ++ str "/m/a.mp3" ]}
    empty_world.


(** An answer with both kinds of lyrics. *)
Definition both_answer : Response :=
  {| status_code := 200;
     json_body := inr (JObj [(str "plainLyrics", JStr (str "Dirty old river"));
                             (str "syncedLyrics",
                              JStr (str "[00:12.00] Dirty old river"))]) |}.

(** The request sent for the song of the examples. *)
Definition kinks_params : QueryParams :=
  lookup_params (Some (str "The Kinks")) (Some (str "Waterloo Sunset"))
    (Some (str "Something Else")) 211.

(** The state of the run on [found_world] after ten steps of its task. *)
Definition found_state : Sys :=
  state_after (replicate 10 0%nat) (initial_sys found_world [song_path]).

(** A world in which [/music/] is a directory listed in the cache, with one
    song inside it whose lyrics the service has. *)
Definition slash_dir_world : World :=
  {| w_isdir := λ p, str_eqb p (str "/music/");
     w_files := ∅;
     w_walk := λ _, [(str "/music", [str "a.mp3"])];
     w_tinytag := λ _, inr waterloo_sunset;
     w_lrclib := λ _ _, inr synced_answer;
     w_requests := 0;
     w_read_error := λ _, None;
     w_open_error := λ _, None;
     w_write_error := λ _ _, None;
     w_cache_entries := [str "/music/"];
     w_sem := MAX_CONCURRENCY |}.

(** A world whose cache lists the current directory before the file. *)
Definition dot_first_world : World :=
  {| w_isdir := λ p, str_eqb p (str ".");
     w_files := ∅;
     w_walk := λ _, [(str "/music", [str "a.mp3"])];
     w_tinytag := λ _, inr waterloo_sunset;
     w_lrclib := λ _ _, inr synced_answer;
     w_requests := 0;
     w_read_error := λ _, None;
     w_open_error := λ _, None;
     w_write_error := λ _ _, None;
     w_cache_entries := [str "."; str "/music/a.mp3"];
     w_sem := MAX_CONCURRENCY |}.

(** A tag with artist and title and without duration. *)
Definition no_duration : TinyTag :=
  {| album := Some (str "Something Else");
     title := Some (str "Waterloo Sunset");
     artist := Some (str "The Kinks");
     duration := None |}.

(** The [TypeError] of [int(None)]. *)
Definition int_of_None : exn :=
  TypeError "int() argument must be a real number, not 'NoneType'".

(** ** The reasons for a raise *)



(** * Properties *)

(** ** Sequential execution: general facts *)

Lemma run_bind {A B} (p : prog A) (f : A → prog B) (w : World) :
  run (bind p f) w =
    match run p w with
    | (Ok a, w', tr) =>
        let '(r, w'', tr') := run (f a) w' in (r, w'', tr ++ tr')
    | (Raised e, w', tr) => (Raised e, w', tr)
    | (Blocked, w', tr) => (Blocked, w', tr)
    end.
Proof.
  revert w. induction p as [a|e|o k IH]; intros w; simpl.
  - destruct (run (f a) w) as [[r w''] tr']. reflexivity.
  - reflexivity.
  - destruct (handle o w) as [[r w']|]; [|reflexivity].
    rewrite IH. destruct (run (k r) w') as [[[a|e|] w1] tr]; simpl.
    + destruct (run (f a) w1) as [[r' w2] tr']. reflexivity.
    + reflexivity.
    + reflexivity.
Qed.

Lemma run_try_except {A} (p : prog A) (h : exn → prog A) (w : World) :
  run (try_except p h) w =
    match run p w with
    | (Raised e, w', tr) =>
        let '(r, w'', tr') := run (h e) w' in (r, w'', tr ++ tr')
    | other => other
    end.
Proof.
  revert w. induction p as [a|e|o k IH]; intros w; simpl.
  - reflexivity.
  - destruct (run (h e) w) as [[r w''] tr']. reflexivity.
  - destruct (handle o w) as [[r w']|]; [|reflexivity].
    rewrite IH. destruct (run (k r) w') as [[[a|e|] w1] tr]; simpl; try reflexivity.
    destruct (run (h e) w1) as [[r' w2] tr']. reflexivity.
Qed.

Ltac unfold_monad := unfold mbind, prog_bind, mret, prog_ret in *.

(** ** The cache file *)

Lemma str_leb_total a b : str_leb a b = true ∨ str_leb b a = true.
Proof.
  revert b. induction a as [|x a IH]; intros [|y b]; simpl; auto.
  destruct (N.ltb_spec x y); simpl; auto.
  destruct (N.ltb_spec y x); simpl; auto.
  assert (x = y) by lia. subst. rewrite N.eqb_refl. simpl. apply IH.
Qed.

Lemma str_leb_trans a b c :
  str_leb a b = true → str_leb b c = true → str_leb a c = true.
Proof.
  revert b c. induction a as [|x a IH]; intros [|y b] [|z c]; simpl; auto;
    try discriminate.
  intros H1 H2.
  apply orb_true_iff in H1; apply orb_true_iff in H2; apply orb_true_iff.
  destruct H1 as [H1|H1], H2 as [H2|H2].
  - left. apply N.ltb_lt in H1, H2. apply N.ltb_lt. lia.
  - apply andb_true_iff in H2 as [H2 _]. apply N.eqb_eq in H2. subst. auto.
  - apply andb_true_iff in H1 as [H1 _]. apply N.eqb_eq in H1. subst. auto.
  - apply andb_true_iff in H1 as [H1 H1'], H2 as [H2 H2'].
    right. apply N.eqb_eq in H1, H2. subst. rewrite N.eqb_refl. simpl. eauto.
Qed.

Lemma str_leb_antisym a b :
  str_leb a b = true → str_leb b a = true → a = b.
Proof.
  revert b. induction a as [|x a IH]; intros [|y b]; simpl; auto;
    try discriminate.
  intros H1 H2.
  apply orb_true_iff in H1; apply orb_true_iff in H2.
  destruct H1 as [H1|H1], H2 as [H2|H2];
    repeat match goal with
           | H : (_ <? _) = true |- _ => apply N.ltb_lt in H
           | H : _ && _ = true |- _ => apply andb_true_iff in H as [? ?]
           | H : (_ =? _) = true |- _ => apply N.eqb_eq in H
           end; subst; try lia.
  f_equal. auto.
Qed.

#[global] Instance str_le_total : Total str_le.
Proof. intros a b. apply str_leb_total. Qed.

#[global] Instance str_le_trans : Transitive str_le.
Proof. intros a b c. apply str_leb_trans. Qed.

Lemma sorted_set_Sorted l : Sorted str_le (sorted_set l).
Proof. apply Sorted_merge_sort, _. Qed.

Lemma sorted_set_elem l e : e ∈ sorted_set l ↔ e ∈ l.
Proof.
  unfold sorted_set. rewrite merge_sort_Permutation, elem_of_elements.
  apply elem_of_list_to_set.
Qed.

Lemma sorted_set_NoDup l : NoDup (sorted_set l).
Proof.
  unfold sorted_set. rewrite merge_sort_Permutation. apply NoDup_elements.
Qed.

Lemma clean_entry_inv s :
  clean_entry s = true →
  (∃ c s', s = c :: s' ∧ py_isspace c = false)
  ∧ (∃ c s', rev s = c :: s' ∧ py_isspace c = false)
  ∧ Forall (λ c, c ≠ LF ∧ c ≠ CR) s.
Proof.
  unfold clean_entry. intros H.
  apply andb_true_iff in H as [H H3]. apply andb_true_iff in H as [H1 H2].
  split; [|split].
  - destruct s as [|c s']; [discriminate|].
    exists c, s'. split; [done|]. by apply negb_true_iff.
  - destruct (rev s) as [|c s']; [discriminate|].
    exists c, s'. split; [done|]. by apply negb_true_iff.
  - apply Forall_forall. intros c Hc.
    rewrite forallb_forall in H3. specialize (H3 c).
    rewrite <- list_elem_of_In in H3. specialize (H3 Hc).
    apply andb_true_iff in H3 as [Ha Hb].
    apply negb_true_iff in Ha, Hb. apply N.eqb_neq in Ha, Hb. done.
Qed.

Lemma universal_newlines_id s :
  Forall (λ c, c ≠ CR) s → universal_newlines s = s.
Proof.
  induction 1 as [|c s Hc _ IH]; simpl; [done|].
  apply N.eqb_neq in Hc. rewrite Hc. by rewrite IH.
Qed.

Lemma readlines_line item rest :
  Forall (λ c, c ≠ LF) item →
  readlines (item ++ LF :: rest) = (item ++ [LF]) :: readlines rest.
Proof.
  induction 1 as [|c s Hc _ IH]; simpl; [done|].
  apply N.eqb_neq in Hc. rewrite Hc. by rewrite IH.
Qed.

Lemma readlines_cache_text entries :
  Forall (λ item, Forall (λ c, c ≠ LF) item) entries →
  readlines (cache_text entries) = map (λ item, item ++ [LF]) entries.
Proof.
  induction 1 as [|item l Hi _ IH]; simpl; [done|].
  unfold cache_text in *. simpl. rewrite <- app_assoc. simpl.
  rewrite readlines_line by done. by rewrite IH.
Qed.

Lemma strip_line s : clean_entry s = true → strip (s ++ [LF]) = s.
Proof.
  intros H.
  apply clean_entry_inv in H as [(c & s' & -> & Hc) [(d & t & Hr & Hd) _]].
  unfold strip, rstrip. simpl lstrip. rewrite Hc.
  change (c :: s' ++ [LF]) with ((c :: s') ++ [LF]).
  rewrite rev_app_distr, Hr. simpl. rewrite Hd.
  rewrite <- Hr. apply rev_involutive.
Qed.

Lemma load_lines entries :
  Forall (λ s, clean_entry s = true) entries →
  strip <$> filter (λ line, strip line ≠ [])
              (map (λ item, item ++ [LF]) entries) = entries.
Proof.
  induction 1 as [|s l Hs _ IH]; [done|].
  cbn [map]. rewrite filter_cons, strip_line by done.
  destruct (decide (s ≠ [])) as [_|Hn].
  - rewrite fmap_cons, strip_line by done. by rewrite IH.
  - destruct s; [discriminate|]. by destruct Hn.
Qed.

Lemma set_files_id w : set_files (w_files w) w = w.
Proof. by destruct w. Qed.

Lemma run_write_lines w items t :
  (∀ d, w_write_error w cache_file d = None) →
  w_files w !! cache_file = Some t →
  run (for_each items
         (λ item, perform (FileWrite cache_file (item ++ [LF])) ≫= lift)) w
  = (Ok tt,
     set_files (<[cache_file := t ++ cache_text items]> (w_files w)) w,
     map (λ item, FileWrite cache_file (item ++ [LF])) items).
Proof.
  revert w t. induction items as [|item items IH]; intros w t Hw Ht.
  - simpl. rewrite app_nil_r, insert_id, set_files_id; done.
  - cbn [for_each]. unfold_monad. rewrite run_bind. simpl.
    rewrite Hw. simpl.
    erewrite IH; simpl; [|done|by rewrite lookup_insert_eq].
    rewrite Ht. simpl. unfold set_files; simpl.
    rewrite insert_insert_eq. unfold cache_text. simpl.
    by rewrite !app_assoc.
Qed.

Lemma run_save_cache w cache :
  w_open_error w cache_file = None →
  w_isdir w cache_file = false →
  (∀ d, w_write_error w cache_file d = None) →
  run (save_cache cache) w
  = (Ok tt,
     set_files (<[cache_file := cache_text (sorted_set cache)]> (w_files w)) w,
     OpenWrite cache_file
       :: map (λ item, FileWrite cache_file (item ++ [LF])) (sorted_set cache)).
Proof.
  intros Ho Hd Hw. unfold save_cache. unfold_monad.
  rewrite run_bind. simpl. rewrite Ho, Hd. simpl.
  erewrite run_write_lines; simpl; [|done|by rewrite lookup_insert_eq].
  unfold set_files; simpl. by rewrite insert_insert_eq.
Qed.

Lemma run_load_cache_present w text :
  w_read_error w cache_file = None →
  w_files w !! cache_file = Some text →
  run load_cache w
  = (Ok (strip <$> filter (λ line, strip line ≠ [])
                     (readlines (universal_newlines text))),
     w, [OsPathExists cache_file; ReadText cache_file]).
Proof.
  intros Hr Hf. unfold load_cache. unfold_monad. simpl.
  assert (path_exists w cache_file = true) as ->.
  { unfold path_exists. rewrite Hf, bool_decide_true by eauto.
    apply orb_true_r. }
  simpl. rewrite Hr, Hf. done.
Qed.

(** C5, as amended: for entries that are not empty, hold no line break and
    have no white space at either end, and when the cache file can be
    opened, written and read, [save_cache] replaces the content of the cache
    file by the deduplicated, sorted entries, one per line, and [load_cache]
    then returns exactly [sorted(set(x))]. *)
Theorem save_then_load_roundtrip (w : World) (x : list pystr) :
  Forall (λ s, clean_entry s = true) x →
  w_isdir w cache_file = false →
  w_open_error w cache_file = None →
  (∀ d, w_write_error w cache_file d = None) →
  w_read_error w cache_file = None →
  ∃ w' tr,
    run (save_cache x) w = (Ok tt, w', tr)
    ∧ w_files w' !! cache_file = Some (cache_text (sorted_set x))
    ∧ (run load_cache w').1.1 = Ok (sorted_set x)
    ∧ Sorted str_le (sorted_set x)
    ∧ NoDup (sorted_set x)
    ∧ (∀ e, e ∈ sorted_set x ↔ e ∈ x).
Proof.
  intros Hx Hd Ho Hw Hr.
  assert (Forall (λ s, clean_entry s = true) (sorted_set x)) as Hs.
  { rewrite Forall_forall in Hx |- *. intros e He.
    apply Hx. by apply sorted_set_elem. }
  eexists _, _. split; [by apply run_save_cache|].
  split; [by unfold set_files; cbn [w_files]; rewrite lookup_insert_eq|].
  split; [|auto using sorted_set_Sorted, sorted_set_NoDup, sorted_set_elem].
  erewrite run_load_cache_present;
    [|done|by unfold set_files; cbn [w_files]; rewrite lookup_insert_eq].
  cbn [fst]. f_equal.
  rewrite universal_newlines_id.
  - rewrite readlines_cache_text; [by apply load_lines|].
    eapply Forall_impl; [exact Hs|]. intros s H.
    apply clean_entry_inv in H as (_ & _ & H).
    eapply Forall_impl; [exact H|]. by intros c [? ?].
  - unfold cache_text. apply Forall_concat, Forall_fmap.
    eapply Forall_impl; [exact Hs|]. intros s H. simpl.
    apply clean_entry_inv in H as (_ & _ & H).
    apply Forall_app. split; [|by repeat constructor].
    eapply Forall_impl; [exact H|]. by intros c [? ?].
Qed.

Lemma save_then_load_roundtrip_witness :
  ∃ w' tr,
    run (save_cache [str "/m/b.mp3"; str "/m/a.mp3"; str "/m/b.mp3"])
      empty_world = (Ok tt, w', tr)
    ∧ w_files w' !! cache_file
      = Some (cache_text
                (sorted_set [str "/m/b.mp3"; str "/m/a.mp3"; str "/m/b.mp3"]))
    ∧ (run load_cache w').1.1
      = Ok (sorted_set [str "/m/b.mp3"; str "/m/a.mp3"; str "/m/b.mp3"])
    ∧ Sorted str_le
        (sorted_set [str "/m/b.mp3"; str "/m/a.mp3"; str "/m/b.mp3"])
    ∧ NoDup (sorted_set [str "/m/b.mp3"; str "/m/a.mp3"; str "/m/b.mp3"])
    ∧ (∀ e, e ∈ sorted_set [str "/m/b.mp3"; str "/m/a.mp3"; str "/m/b.mp3"]
            ↔ e ∈ [str "/m/b.mp3"; str "/m/a.mp3"; str "/m/b.mp3"]).
Proof.
  apply (save_then_load_roundtrip empty_world
           [str "/m/b.mp3"; str "/m/a.mp3"; str "/m/b.mp3"]).
  - repeat constructor.
  - reflexivity.
  - reflexivity.
  - reflexivity.
  - reflexivity.
Defined.

(** C5 as stated fails: an entry that starts with a space comes back
    without it, so loading what was saved does not give [sorted(set(x))]. *)
Lemma save_then_load_counterexample :
  ∃ w' tr,
    run (save_cache [str " a.mp3"]) empty_world = (Ok tt, w', tr)
    ∧ sorted_set [str " a.mp3"] = [str " a.mp3"]
    ∧ (run load_cache w').1.1 = Ok [str "a.mp3"]
    ∧ (run load_cache w').1.1 ≠ Ok (sorted_set [str " a.mp3"]).
Proof.
  eexists _, _. split; [reflexivity|].
  split; [by vm_compute|]. split; [by vm_compute|]. by vm_compute.
Qed.

(** ** The containment check *)

Lemma lcp_comm a b : lcp a b = lcp b a.
Proof.
  revert b. induction a as [|x a IH]; intros [|y b]; simpl; auto.
  unfold str_eqb. destruct (decide (x = y)) as [->|Hn].
  - rewrite !bool_decide_true by done. by rewrite IH.
  - rewrite !bool_decide_false by congruence. done.
Qed.

Lemma lcp_prefix a b : lcp a b = b ↔ b `prefix_of` a.
Proof.
  revert b. induction a as [|x a IH]; intros [|y b]; simpl.
  - split; [intros _; apply prefix_nil|done].
  - split; [done|]. intros H. by apply prefix_nil_inv in H.
  - split; [intros _; apply prefix_nil|done].
  - unfold str_eqb. case_bool_decide as Hxy.
    + subst y. split.
      * intros [= H]. apply IH in H. by apply prefix_cons.
      * intros H. apply prefix_cons_inv_2 in H. f_equal. by apply IH.
    + split; [done|]. intros H. apply prefix_cons_inv_1 in H. congruence.
Qed.

Lemma common_loop_lcp s1 s2 :
  segs_leb s1 s2 = true → common_loop s1 s2 = inr (lcp s1 s2).
Proof.
  revert s2. induction s1 as [|c s1 IH]; intros [|d s2]; simpl; try done.
  destruct (str_eqb c d); [|done]. intros H. by rewrite IH.
Qed.

Lemma segs_leb_total a b : segs_leb a b = false → segs_leb b a = true.
Proof.
  revert b. induction a as [|x a IH]; intros [|y b]; simpl; try done.
  unfold str_eqb. destruct (decide (x = y)) as [->|Hn].
  - rewrite !bool_decide_true by done. apply IH.
  - rewrite !bool_decide_false by congruence.
    intros H. destruct (str_leb_total x y); congruence.
Qed.

Lemma segs_leb_antisym a b :
  segs_leb a b = true → segs_leb b a = true → a = b.
Proof.
  revert b. induction a as [|x a IH]; intros [|y b]; simpl; try done.
  unfold str_eqb. destruct (decide (x = y)) as [->|Hn].
  - rewrite !bool_decide_true by done. intros. f_equal. auto.
  - rewrite !bool_decide_false by congruence.
    intros H1 H2. by destruct Hn; apply str_leb_antisym.
Qed.

Lemma common_loop_min_max a b :
  common_loop (segs_min a (segs_min b a)) (segs_max a (segs_max b a))
  = inr (lcp a b).
Proof.
  unfold segs_min, segs_max.
  destruct (segs_leb b a) eqn:Hba, (segs_leb a b) eqn:Hab.
  - assert (a = b) as <- by (by apply segs_leb_antisym).
    rewrite Hab. by apply common_loop_lcp.
  - rewrite (lcp_comm a b).
    destruct (segs_leb a a); by apply common_loop_lcp.
  - destruct (segs_leb a a); rewrite ?Hab; by apply common_loop_lcp.
  - apply segs_leb_total in Hba. congruence.
Qed.

(** [commonpath] of two paths. *)
Lemma commonpath_two p e :
  commonpath [p; e] =
    if bool_decide (starts_with_sep e = starts_with_sep p) then
      inr ((if starts_with_sep p then [SLASH] else [])
             ++ str_join SLASH (lcp (path_components p) (path_components e)))
    else inl (ValueError "Can't mix absolute and relative paths").
Proof.
  unfold commonpath. cbn [forallb map foldr]. rewrite andb_true_r.
  case_bool_decide; [|done]. by rewrite common_loop_min_max.
Qed.

Lemma str_split_no_sep sep s :
  Forall (λ seg, sep ∉ seg) (str_split sep s).
Proof.
  induction s as [|c s IH]; simpl.
  - repeat constructor. by intros ?%elem_of_nil.
  - destruct (N.eqb_spec c sep) as [->|Hne].
    + constructor; [by intros ?%elem_of_nil|done].
    + destruct (str_split sep s) as [|seg segs].
      * repeat constructor. intros H%list_elem_of_singleton. congruence.
      * apply Forall_cons in IH as [H1 H2]. constructor; [|done].
        intros [?|?]%elem_of_cons; [congruence|done].
Qed.

Lemma path_components_good p : Forall good_component (path_components p).
Proof.
  unfold path_components. apply Forall_forall. intros c Hc.
  apply list_elem_of_filter in Hc as [[H1 H2] H3].
  split; [done|]. split; [done|].
  pose proof (str_split_no_sep SLASH p) as H.
  rewrite Forall_forall in H. by apply H.
Qed.

Lemma str_split_app x t :
  SLASH ∉ x → str_split SLASH (x ++ SLASH :: t) = x :: str_split SLASH t.
Proof.
  induction x as [|c x IH]; intros Hx; simpl.
  - done.
  - destruct (N.eqb_spec c SLASH) as [->|Hne].
    + destruct Hx. by left.
    + rewrite IH; [done|]. intros H. apply Hx. by right.
Qed.

Lemma str_split_single x : SLASH ∉ x → str_split SLASH x = [x].
Proof.
  induction x as [|c x IH]; intros Hx; simpl; [done|].
  destruct (N.eqb_spec c SLASH) as [->|Hne].
  - destruct Hx. by left.
  - rewrite IH; [done|]. intros H. apply Hx. by right.
Qed.

Lemma str_split_join cs :
  cs ≠ [] → Forall (λ c, SLASH ∉ c) cs →
  str_split SLASH (str_join SLASH cs) = cs.
Proof.
  induction cs as [|x cs IH]; [done|]. intros _ H.
  apply Forall_cons in H as [Hx Hcs].
  destruct cs as [|y cs].
  - simpl. by apply str_split_single.
  - change (str_join SLASH (x :: y :: cs))
      with (x ++ SLASH :: str_join SLASH (y :: cs)).
    rewrite str_split_app by done. f_equal. by apply IH.
Qed.

Lemma filter_good cs :
  Forall good_component cs →
  filter (λ c : pystr, c ≠ [] ∧ c ≠ [DOT]) cs = cs.
Proof.
  induction 1 as [|c cs [H1 [H2 _]] _ IH]; [done|].
  rewrite filter_cons_True by done. by rewrite IH.
Qed.

Lemma path_components_join (pre : bool) cs :
  Forall good_component cs →
  path_components ((if pre then [SLASH] else []) ++ str_join SLASH cs) = cs.
Proof.
  intros H. unfold path_components.
  assert (filter (λ c : pystr, c ≠ [] ∧ c ≠ [DOT])
            (str_split SLASH (str_join SLASH cs)) = cs) as Hf.
  { destruct cs as [|x cs]; [done|].
    rewrite str_split_join; [by apply filter_good|done|].
    eapply Forall_impl; [exact H|]. by intros c (_ & _ & ?). }
  destruct pre; [|done].
  change ([SLASH] ++ str_join SLASH cs) with (SLASH :: str_join SLASH cs).
  cbn [str_split]. rewrite N.eqb_refl.
  rewrite filter_cons_False by (by intros [? _]). done.
Qed.

Lemma lcp_good a b : Forall good_component a → Forall good_component (lcp a b).
Proof.
  intros H. revert b. induction H as [|x a Hx _ IH]; intros [|y b]; simpl;
    try done.
  destruct (str_eqb x y); [|done]. constructor; auto.
Qed.

Lemma commonpath_is_entry p e :
  commonpath [p; e] = inr e ↔
  starts_with_sep p = starts_with_sep e
  ∧ normalized e
  ∧ path_components e `prefix_of` path_components p.
Proof.
  rewrite commonpath_two. case_bool_decide as Habs; split.
  - intros [= He].
    assert (Forall good_component (lcp (path_components p) (path_components e)))
      as Hg by apply lcp_good, path_components_good.
    assert (path_components e = lcp (path_components p) (path_components e))
      as Hc.
    { rewrite <- He at 1. by apply path_components_join. }
    split; [done|]. split.
    + unfold normalized. rewrite Habs. rewrite Hc at 1. by rewrite He.
    + apply lcp_prefix. by rewrite <- Hc.
  - intros (_ & Hn & Hp). apply lcp_prefix in Hp. rewrite Hp.
    rewrite <- Habs. by rewrite <- Hn.
  - done.
  - intros (? & _). congruence.
Qed.

Lemma run_is_in_cache_cons w p e rest :
  run (is_in_cache p (e :: rest)) w =
    if w_isdir w e then
      match commonpath [p; e] with
      | inl x => (Raised x, w, [OsPathIsdir e])
      | inr c =>
          if str_eqb c e then (Ok true, w, [OsPathIsdir e])
          else let '(r, w', tr) := run (is_in_cache p rest) w in
               (r, w', OsPathIsdir e :: tr)
      end
    else
      if str_eqb p e then (Ok true, w, [OsPathIsdir e])
      else let '(r, w', tr) := run (is_in_cache p rest) w in
           (r, w', OsPathIsdir e :: tr).
Proof.
  cbn [is_in_cache]. unfold_monad. cbn [perform bind run handle].
  destruct (w_isdir w e).
  - destruct (commonpath [p; e]) as [x|c]; cbn [lift bind run]; [done|].
    by destruct (str_eqb c e).
  - by destruct (str_eqb p e).
Qed.

(** The containment check only asks whether entries are directories, and
    changes nothing. *)
Lemma run_is_in_cache_pure w p es :
  (run (is_in_cache p es) w).1.2 = w
  ∧ Forall (λ o, ∃ e, o = OsPathIsdir e) (run (is_in_cache p es) w).2.
Proof.
  induction es as [|e rest [IH1 IH2]]; [split; [reflexivity|simpl; constructor]|].
  rewrite run_is_in_cache_cons.
  destruct (run (is_in_cache p rest) w) as [[r w'] tr]. simpl in *.
  assert (Forall (λ o, ∃ e, o = OsPathIsdir e) [OsPathIsdir e]) as Hone
    by (repeat constructor; eauto).
  assert (Forall (λ o, ∃ e, o = OsPathIsdir e) (OsPathIsdir e :: tr)) as Hmore
    by (constructor; eauto).
  destruct (w_isdir w e).
  - destruct (commonpath [p; e]) as [x|c]; simpl; [done|].
    by destruct (str_eqb c e).
  - by destruct (str_eqb p e).
Qed.

(** An entry that matches is found, when no entry before it raises. *)
Lemma is_in_cache_hit w p pre e post :
  entry_matches (w_isdir w) p e →
  Forall (λ d, ¬ entry_raises (w_isdir w) p d) pre →
  (run (is_in_cache p (pre ++ e :: post)) w).1.1 = Ok true.
Proof.
  intros Hm Hr. unfold entry_matches, entry_raises in *.
  induction Hr as [|d pre Hd _ IH]; cbn [app]; rewrite run_is_in_cache_cons.
  - destruct (w_isdir w e).
    + apply commonpath_is_entry in Hm. rewrite Hm.
      unfold str_eqb. by rewrite bool_decide_true.
    + subst e. unfold str_eqb. by rewrite bool_decide_true.
  - destruct (run (is_in_cache p (pre ++ e :: post)) w) as [[r w'] tr].
    cbn in IH. subst r.
    destruct (w_isdir w d).
    + rewrite commonpath_two. case_bool_decide as Habs.
      * by destruct (str_eqb _ d).
      * destruct Hd. split; [done|]. congruence.
    + by destruct (str_eqb p d).
Qed.

(** C2, as amended: [is_in_cache] returns true exactly when some entry
    matches and the check of no entry before it raises. An entry that is not
    a directory matches when it equals the path; a directory matches when it
    is written in normalized form and the path lies inside it, component by
    component. The check raises on a directory entry that is absolute where
    the path is relative, or the reverse. In particular, when the check
    returns true the path is contained in the entries in the sense of the
    specification. *)
Theorem is_in_cache_true_iff (w : World) (p : pystr) (es : list pystr) :
  ((run (is_in_cache p es) w).1.1 = Ok true ↔
   ∃ pre e post,
     es = pre ++ e :: post
     ∧ entry_matches (w_isdir w) p e
     ∧ Forall (λ d, ¬ entry_raises (w_isdir w) p d) pre)
  ∧ ((run (is_in_cache p es) w).1.1 = Ok true → Contains (w_isdir w) p es).
Proof.
  assert ((run (is_in_cache p es) w).1.1 = Ok true →
          ∃ pre e post,
            es = pre ++ e :: post
            ∧ entry_matches (w_isdir w) p e
            ∧ Forall (λ d, ¬ entry_raises (w_isdir w) p d) pre) as Hfound.
  { induction es as [|e rest IH]; [done|].
    rewrite run_is_in_cache_cons.
    destruct (run (is_in_cache p rest) w) as [[r w'] tr]. cbn in IH.
    unfold entry_matches, entry_raises in *.
    destruct (w_isdir w e) eqn:Hd.
    - destruct (commonpath [p; e]) as [x|c] eqn:Hc; [done|].
      unfold str_eqb. case_bool_decide as Hce.
      + subst c. intros _. exists [], e, rest. rewrite Hd.
        split; [done|]. split; [by apply commonpath_is_entry|constructor].
      + cbn. intros (pre & e' & post & -> & Hm & Hr)%IH.
        exists (e :: pre), e', post. split; [done|]. split; [done|].
        constructor; [|done]. intros [_ Habs].
        rewrite commonpath_two in Hc. case_bool_decide; [|done]. congruence.
    - unfold str_eqb. case_bool_decide as Hpe.
      + subst e. intros _. exists [], p, rest. rewrite Hd.
        split; [done|]. split; [done|constructor].
      + cbn. intros (pre & e' & post & -> & Hm & Hr)%IH.
        exists (e :: pre), e', post. split; [done|]. split; [done|].
        constructor; [|done]. intros [? _]. congruence. }
  split; [split; [exact Hfound|]|].
  - intros (pre & e & post & -> & Hm & Hr). by apply is_in_cache_hit.
  - intros (pre & e & post & -> & Hm & _)%Hfound.
    exists e. split; [apply elem_of_app; right; by left|].
    unfold entry_matches in Hm. destruct (w_isdir w e); [right|by left].
    destruct Hm as (? & _ & ?). by repeat split.
Qed.

(** C2 as stated fails: a directory entry written with a trailing separator
    contains the path lexically, yet [is_in_cache] returns false. *)
Lemma is_in_cache_counterexample :
  Contains (w_isdir music_world) (str "/music/a.mp3") [str "/music/"]
  ∧ (run (is_in_cache (str "/music/a.mp3") [str "/music/"]) music_world).1.1
    = Ok false.
Proof.
  split; [|by vm_compute].
  exists (str "/music/"). split; [by left|]. right.
  split; [by vm_compute|]. split; [by vm_compute|].
  exists [str "a.mp3"]. by vm_compute.
Qed.

(** ** The lyrics client *)

Lemma run_get_lyrics w artist title album d :
  ∃ logs,
    run (get_lyrics artist title album d) w
    = (Ok (lyrics_of_response
             (w_lrclib w (w_requests w) (lookup_params artist title album d))),
       set_requests (S (w_requests w)) w,
       ClientGet lrclib_url (lookup_params artist title album d) :: logs)
    ∧ Forall is_log logs.
Proof.
  unfold get_lyrics, lookup_params. unfold_monad. rewrite run_bind, run_try_except.
  cbn [perform bind run handle].
  set (params := {| artist_name := artist; track_name := title;
                    album_name := album; duration_param := d |}).
  assert (∀ l f, is_log (Logging l f)) as Hlog by (intros; by eexists _, _).
  destruct (w_lrclib w (w_requests w) params) as [e|resp]; cbn.
  { eexists. split; [reflexivity|]. repeat constructor; apply Hlog. }
  destruct (status_code resp =? 200)%Z; cbn.
  2: { eexists. split; [reflexivity|]. repeat constructor; apply Hlog. }
  destruct (json_body resp) as [e|data]; cbn.
  { eexists. split; [reflexivity|]. repeat constructor; apply Hlog. }
  destruct data as [|b|q|s|items|members]; cbn;
    try (eexists; split; [reflexivity|]; repeat constructor; apply Hlog).
  destruct (truthy (default JNull (dict_lookup (str "syncedLyrics") members)))
    eqn:Hs; cbn; rewrite ?Hs; cbn.
  { eexists. split; [reflexivity|]. repeat constructor; apply Hlog. }
  destruct (truthy (default JNull (dict_lookup (str "plainLyrics") members)))
    eqn:Hp; cbn; rewrite ?Hp; cbn.
  { eexists. split; [reflexivity|]. repeat constructor; apply Hlog. }
  eexists. split; [reflexivity|]. repeat constructor; apply Hlog.
Qed.

(** ** The file processor, stage by stage *)

Lemma run_get_song_details w p :
  run (get_song_details p) w =
    (match w_tinytag w p with
     | inl e => Raised e
     | inr audio =>
         match duration audio with
         | Some x => Ok (album audio, title audio, artist audio, int_of_float x)
         | None =>
             Raised (TypeError "int() argument must be a real number, not 'NoneType'")
         end
     end, w, [TinyTagGet p]).
Proof.
  unfold get_song_details. unfold_monad. cbn.
  destruct (w_tinytag w p) as [e|audio]; cbn; [done|].
  by destruct (duration audio).
Qed.

Lemma process_file_stages p :
  process_file p =
    (cache_entries ← perform CacheEntriesRead;
     hit ← is_in_cache p cache_entries;
     if hit : bool then mret (cached p) else
     present ← perform (OsPathExists (lrc_path p));
     if present : bool then mret (already_exists p) else
     extracted ← try_except
       ('(album, title, artist, duration) ← get_song_details p;
        if falsy_str artist || falsy_str title
        then mret (inl (missing p))
        else mret (inr (album, title, artist, duration)))
       (λ e, mret (inl (error p e)));
     match extracted with
     | inl outcome => mret outcome
     | inr (album, title, artist, duration) =>
         lookup_stage p album title artist duration
     end).
Proof. reflexivity. Qed.

Lemma process_file_post_check p :
  process_file p
  = Vis CacheEntriesRead (λ ce, bind (is_in_cache p ce) (post_check p)).
Proof. reflexivity. Qed.

Lemma run_process_file_check w p :
  run (process_file p) w =
    match run (is_in_cache p (w_cache_entries w)) w with
    | (Ok true, w', tr) => (Ok (cached p), w', CacheEntriesRead :: tr)
    | (Ok false, w', tr) =>
        if path_exists w' (lrc_path p)
        then (Ok (already_exists p), w',
              CacheEntriesRead :: tr ++ [OsPathExists (lrc_path p)])
        else
          let pre := CacheEntriesRead :: tr
                       ++ [OsPathExists (lrc_path p); TinyTagGet p] in
          match w_tinytag w' p with
          | inl e => (Ok (error p e), w', pre)
          | inr audio =>
              match duration audio with
              | None =>
                  (Ok (error p (TypeError
                     "int() argument must be a real number, not 'NoneType'")),
                   w', pre)
              | Some x =>
                  if falsy_str (artist audio) || falsy_str (title audio)
                  then (Ok (missing p), w', pre)
                  else
                    let '(r, w'', tr') :=
                      run (lookup_stage p (album audio) (title audio)
                             (artist audio) (int_of_float x)) w' in
                    (r, w'', pre ++ tr')
              end
          end
    | (Raised e, w', tr) => (Raised e, w', CacheEntriesRead :: tr)
    | (Blocked, w', tr) => (Blocked, w', CacheEntriesRead :: tr)
    end.
Proof.
  rewrite process_file_stages. unfold_monad. cbn [perform bind run handle].
  rewrite run_bind.
  destruct (run (is_in_cache p (w_cache_entries w)) w) as [[[hit|e|] w'] tr];
    [|done..].
  destruct hit; cbn [run]; [by rewrite app_nil_r|].
  cbn [perform bind run handle].
  destruct (path_exists w' (lrc_path p)); cbn [run]; [done|].
  rewrite run_bind, run_try_except, run_bind, run_get_song_details.
  destruct (w_tinytag w' p) as [e|audio]; cbn; [done|].
  destruct (duration audio) as [x|]; cbn; [|done].
  destruct (falsy_str (artist audio) || falsy_str (title audio)); cbn; [done|].
  destruct (run _ w') as [[r w''] tr']. by rewrite <- !app_assoc.
Qed.

Lemma run_lookup_stage w p al t ar d n :
  w_sem w = S n →
  ∃ logs,
    Forall is_log logs
    ∧ run (lookup_stage p al t ar d) w =
        let '(r, w', tr) :=
          run (write_stage p
                 (lyrics_of_response
                    (w_lrclib w (w_requests w) (lookup_params ar t al d))))
            (set_requests (S (w_requests w)) w) in
        (r, w',
         SemAcquire :: ClientGet lrclib_url (lookup_params ar t al d)
           :: logs ++ SemRelease :: tr).
Proof.
  intros Hsem. unfold lookup_stage, with_sem. unfold_monad.
  cbn [perform bind run handle]. rewrite Hsem.
  destruct (run_get_lyrics (set_sem n w) ar t al d) as (logs & Hrun & Hlogs).
  exists logs. split; [done|].
  rewrite !run_bind, run_try_except, Hrun. cbn [perform bind run handle].
  assert (set_sem (S (w_sem (set_requests (S (w_requests (set_sem n w)))
                               (set_sem n w))))
            (set_requests (S (w_requests (set_sem n w))) (set_sem n w))
          = set_requests (S (w_requests w)) w) as ->.
  { destruct w; cbn in *. by subst. }
  cbn [w_lrclib w_requests set_sem].
  destruct (run _ (set_requests (S (w_requests w)) w)) as [[r w'] tr].
  cbn. by rewrite <- app_assoc.
Qed.

Lemma run_write_stage_none w p :
  run (write_stage p None) w = (Ok (missing p), w, []).
Proof. reflexivity. Qed.

Lemma run_write_stage_some w p v :
  run (write_stage p (Some v)) w =
    match w_open_error w (lrc_path p) with
    | Some e => (Ok (error p e), w, [OpenWrite (lrc_path p)])
    | None =>
        if w_isdir w (lrc_path p)
        then (Ok (error p (OSError "Is a directory")), w,
              [OpenWrite (lrc_path p)])
        else
          let w1 := set_files (<[lrc_path p := []]> (w_files w)) w in
          match v with
          | JStr s =>
              match w_write_error w (lrc_path p) s with
              | Some e =>
                  (Ok (error p e), w1,
                   [OpenWrite (lrc_path p); FileWrite (lrc_path p) s])
              | None =>
                  (Ok (found p),
                   set_files (<[lrc_path p := s]> (w_files w)) w,
                   [OpenWrite (lrc_path p); FileWrite (lrc_path p) s])
              end
          | _ =>
              (Ok (error p (TypeError "write() argument must be str")), w1,
               [OpenWrite (lrc_path p)])
          end
    end.
Proof.
  unfold write_stage, write_text. unfold_monad.
  rewrite run_try_except. cbn [perform bind run handle].
  destruct (w_open_error w (lrc_path p)) as [e|]; cbn; [done|].
  destruct (w_isdir w (lrc_path p)); cbn; [done|].
  destruct v; cbn; try done.
  destruct (w_write_error w (lrc_path p) s) as [e|]; cbn; [done|].
  rewrite lookup_insert_eq. cbn. unfold set_files; cbn.
  by rewrite insert_insert_eq.
Qed.

(** ** Properties of the file processor *)

Lemma is_in_cache_run_inv w p es r :
  (run (is_in_cache p es) w).1.1 = r →
  ∃ tr, run (is_in_cache p es) w = (r, w, tr)
        ∧ Forall (λ o, ∃ e, o = OsPathIsdir e) tr.
Proof.
  intros H. destruct (run_is_in_cache_pure w p es) as [Hw Htr].
  destruct (run (is_in_cache p es) w) as [[r' w'] tr]. simpl in *.
  subst. eauto.
Qed.

(** C1, as amended: when some loaded entry matches the path and no entry
    before it makes the check raise, the path is [cached]; the only
    operations performed are the reading of the entries and the directory
    tests of the check: no extraction, no lookup, no write, and the world is
    unchanged. An entry that is not a directory matches when it equals the
    path; a directory matches when it is written in normalized form and the
    path lies inside it, component by component. *)
Theorem cached_path_short_circuits (w : World) (p : pystr)
    (pre post : list pystr) (e : pystr) :
  w_cache_entries w = pre ++ e :: post →
  entry_matches (w_isdir w) p e →
  Forall (λ d, ¬ entry_raises (w_isdir w) p d) pre →
  ∃ tr,
    run (process_file p) w = (Ok (cached p), w, tr)
    ∧ Forall (λ o, is_extraction o = false ∧ is_lookup o = false
                   ∧ is_write o = false) tr.
Proof.
  intros Hes Hm Hpre.
  pose proof (is_in_cache_hit w p pre e post Hm Hpre) as Hhit.
  rewrite <- Hes in Hhit.
  apply is_in_cache_run_inv in Hhit as (tr & Hrun & Htr).
  exists (CacheEntriesRead :: tr). rewrite run_process_file_check, Hrun.
  split; [done|]. constructor; [done|].
  eapply Forall_impl; [exact Htr|]. by intros o [x ->].
Qed.

Lemma cached_path_short_circuits_witness :
  ∃ tr,
    run (process_file (str "/music/a.mp3")) cached_world
    = (Ok (cached (str "/music/a.mp3")), cached_world, tr)
    ∧ Forall (λ o, is_extraction o = false ∧ is_lookup o = false
                   ∧ is_write o = false) tr.
Proof.
  apply (cached_path_short_circuits cached_world (str "/music/a.mp3")
           [str "/music/b.mp3"] [] (str "/music/a.mp3")).
  - reflexivity.
  - reflexivity.
  - constructor; [|constructor]. intros [H _]. discriminate H.
Defined.

(** C1 as stated fails. A path that lies inside a directory entry written
    with a trailing separator is contained in the entries, yet it is
    processed in full: extraction, lookup and write. And a path listed in
    the cache after a relative directory entry is contained in the entries,
    yet [process_file] raises. *)
Lemma contained_path_counterexample :
  (Contains (w_isdir slash_dir_world) (str "/music/a.mp3")
     (w_cache_entries slash_dir_world)
   ∧ (run (process_file (str "/music/a.mp3")) slash_dir_world).1.1
     = Ok (found (str "/music/a.mp3"))
   ∧ existsb is_extraction
       (run (process_file (str "/music/a.mp3")) slash_dir_world).2 = true
   ∧ existsb is_lookup
       (run (process_file (str "/music/a.mp3")) slash_dir_world).2 = true
   ∧ existsb is_write
       (run (process_file (str "/music/a.mp3")) slash_dir_world).2 = true)
  ∧ (Contains (w_isdir dot_first_world) (str "/music/a.mp3")
       (w_cache_entries dot_first_world)
     ∧ (run (process_file (str "/music/a.mp3")) dot_first_world).1.1
       = Raised mixed_paths).
Proof.
  split; [split; [|split; [|split; [|split]]]|split].
  - exists (str "/music/"). split; [by left|]. right.
    split; [by vm_compute|]. split; [by vm_compute|].
    exists [str "a.mp3"]. by vm_compute.
  - vm_compute. reflexivity.
  - vm_compute. reflexivity.
  - vm_compute. reflexivity.
  - vm_compute. reflexivity.
  - exists (str "/music/a.mp3"). split; [by right; left|by left].
  - vm_compute. reflexivity.
Qed.

Lemma lookup_failed_None r : lookup_failed r → lyrics_of_response r = None.
Proof.
  destruct r as [e|resp]; [done|]. simpl.
  intros [H|[[e H]|(v & H & Hv)]].
  - apply Z.eqb_neq in H. by rewrite H.
  - rewrite H. by destruct (status_code resp =? 200)%Z.
  - rewrite H. destruct (status_code resp =? 200)%Z; [|done].
    destruct v; try done. by destruct (Hv members).
Qed.

Lemma no_match_None r : no_match r → lyrics_of_response r = None.
Proof.
  intros (resp & m & -> & Hs & Hb & H1 & H2). simpl.
  by rewrite Hs, Hb, H1, H2.
Qed.

Lemma get_song_details_Ok_inv w p al t ar d :
  (run (get_song_details p) w).1.1 = Ok (al, t, ar, d) →
  ∃ audio x, w_tinytag w p = inr audio ∧ duration audio = Some x
    ∧ al = album audio ∧ t = title audio ∧ ar = artist audio
    ∧ d = int_of_float x.
Proof.
  rewrite run_get_song_details. simpl.
  destruct (w_tinytag w p) as [e|audio]; [done|].
  destruct (duration audio) as [x|] eqn:Hx; [|done].
  intros [= <- <- <- <-]. by exists audio, x.
Qed.

Lemma run_process_file_lookup w p al t ar d :
  reaches_lookup w p al t ar d →
  ∃ pre logs,
    run (process_file p) w =
      let '(r, w', tr) :=
        run (write_stage p
               (lyrics_of_response
                  (w_lrclib w (w_requests w) (lookup_params ar t al d))))
          (set_requests (S (w_requests w)) w) in
      (r, w',
       pre ++ SemAcquire :: ClientGet lrclib_url (lookup_params ar t al d)
         :: logs ++ SemRelease :: tr).
Proof.
  intros (Hc & Hex & Hd & Har & Ht & Hsem).
  apply is_in_cache_run_inv in Hc as (tr & Hc & _).
  apply get_song_details_Ok_inv in Hd
    as (audio & x & Htag & Hdur & -> & -> & -> & ->).
  destruct (w_sem w) as [|n] eqn:Hn; [lia|].
  destruct (run_lookup_stage w p (album audio) (title audio) (artist audio)
              (int_of_float x) n Hn) as (logs & _ & Hrun).
  eexists _, logs.
  rewrite run_process_file_check, Hc, Hex, Htag, Hdur, Har, Ht. cbn [orb].
  rewrite Hrun. destruct (run (write_stage _ _) _) as [[r w'] tr'].
  reflexivity.
Qed.

(** C6: when the lookup fails (transport error or timeout, status other
    than 200, body that is not JSON or not a JSON object), [get_lyrics]
    returns [None] instead of raising, and [process_file] ends with
    [missing], the same outcome as for a genuine answer without lyrics. *)
Theorem lookup_failure_is_missing (w : World) (p : pystr)
    (al t ar : option pystr) (d : Z) :
  reaches_lookup w p al t ar d →
  lookup_failed (w_lrclib w (w_requests w) (lookup_params ar t al d))
  ∨ no_match (w_lrclib w (w_requests w) (lookup_params ar t al d)) →
  (run (get_lyrics ar t al d) w).1.1 = Ok None
  ∧ ∃ w' tr, run (process_file p) w = (Ok (missing p), w', tr).
Proof.
  intros Hreach Hfail.
  assert (lyrics_of_response
            (w_lrclib w (w_requests w) (lookup_params ar t al d)) = None) as Hn.
  { destruct Hfail; [by apply lookup_failed_None|by apply no_match_None]. }
  split.
  - destruct (run_get_lyrics w ar t al d) as (logs & -> & _). by rewrite Hn.
  - destruct (run_process_file_lookup w p al t ar d Hreach) as (pre & logs & ->).
    rewrite Hn, run_write_stage_none. eauto.
Qed.

Lemma lookup_failure_is_missing_witness :
  (run (get_lyrics (Some (str "The Kinks")) (Some (str "Waterloo Sunset"))
          (Some (str "Something Else")) 211)
     (song_world (inr waterloo_sunset) (inl (HTTPError "timed out")))).1.1
  = Ok None
  ∧ ∃ w' tr,
      run (process_file (str "/music/song.mp3"))
        (song_world (inr waterloo_sunset) (inl (HTTPError "timed out")))
      = (Ok (missing (str "/music/song.mp3")), w', tr).
Proof.
  apply (lookup_failure_is_missing
           (song_world (inr waterloo_sunset) (inl (HTTPError "timed out")))
           (str "/music/song.mp3")
           (Some (str "Something Else")) (Some (str "Waterloo Sunset"))
           (Some (str "The Kinks")) 211).
  - repeat split; try (vm_compute; reflexivity).
    unfold song_world, MAX_CONCURRENCY; simpl; lia.
  - left. exact I.
Defined.

(** C7, as amended: for a file that is not in the cache and has no lyrics
    file, and whose tag [TinyTag.get] returns. When the tag has a duration,
    a falsy artist or title ends the file with [missing] before any lookup,
    and when both are present the lookup is issued with the album as it is
    and [int(duration)], whatever their values (an empty album, a zero
    duration). When the tag has no duration, [int] raises inside
    [get_song_details] and the file ends with [error] and no lookup,
    whatever the artist and the title are. *)
Theorem artist_and_title_required (w : World) (p : pystr) (audio : TinyTag) :
  (run (is_in_cache p (w_cache_entries w)) w).1.1 = Ok false →
  path_exists w (lrc_path p) = false →
  w_tinytag w p = inr audio →
  match duration audio with
  | Some x =>
      (falsy_str (artist audio) || falsy_str (title audio) = true →
       ∃ tr, run (process_file p) w = (Ok (missing p), w, tr)
             ∧ Forall (λ o, is_lookup o = false) tr)
      ∧ (falsy_str (artist audio) || falsy_str (title audio) = false →
         (0 < w_sem w)%nat →
         ∃ r w' tr,
           run (process_file p) w = (r, w', tr)
           ∧ ClientGet lrclib_url
               (lookup_params (artist audio) (title audio) (album audio)
                  (int_of_float x)) ∈ tr)
  | None =>
      ∃ tr, run (process_file p) w = (Ok (error p int_of_None), w, tr)
            ∧ Forall (λ o, is_lookup o = false) tr
  end.
Proof.
  intros Hc Hex Htag.
  assert (∀ tr, Forall (λ o, ∃ e, o = OsPathIsdir e) tr →
                Forall (λ o, is_lookup o = false)
                  (CacheEntriesRead
                     :: tr ++ [OsPathExists (lrc_path p); TinyTagGet p]))
    as Hquiet.
  { intros tr Htr. constructor; [done|]. apply Forall_app. split.
    - eapply Forall_impl; [exact Htr|]. by intros o [e ->].
    - by repeat constructor. }
  destruct (duration audio) as [x|] eqn:Hdur.
  - split.
    + intros Hf. apply is_in_cache_run_inv in Hc as (tr & Hc & Htr).
      rewrite run_process_file_check, Hc, Hex, Htag, Hdur, Hf.
      eexists. split; [reflexivity|]. by apply Hquiet.
    + intros Hf Hsem. apply orb_false_iff in Hf as [Har Ht].
      destruct (run_process_file_lookup w p (album audio) (title audio)
                  (artist audio) (int_of_float x)) as (pre & logs & ->).
      { repeat split; try done.
        by rewrite run_get_song_details, Htag, Hdur. }
      destruct (run (write_stage _ _) _) as [[r w'] tr].
      eexists _, _, _. split; [reflexivity|].
      apply elem_of_app. right. right. by left.
  - apply is_in_cache_run_inv in Hc as (tr & Hc & Htr).
    rewrite run_process_file_check, Hc, Hex, Htag, Hdur.
    eexists. split; [reflexivity|]. by apply Hquiet.
Qed.

Lemma artist_and_title_required_witness :
  (∃ tr,
     run (process_file (str "/music/song.mp3"))
       (song_world (inr no_artist) (inl (HTTPError "unreachable")))
     = (Ok (missing (str "/music/song.mp3")),
        song_world (inr no_artist) (inl (HTTPError "unreachable")), tr)
     ∧ Forall (λ o, is_lookup o = false) tr)
  ∧ (∃ r w' tr,
       run (process_file (str "/music/song.mp3"))
         (song_world (inr no_album_no_duration)
            (inl (HTTPError "unreachable")))
       = (r, w', tr)
       ∧ ClientGet lrclib_url
           (lookup_params (Some (str "The Kinks"))
              (Some (str "Waterloo Sunset")) (Some []) 0) ∈ tr).
Proof.
  split.
  - refine (proj1 (artist_and_title_required
                     (song_world (inr no_artist)
                        (inl (HTTPError "unreachable")))
                     (str "/music/song.mp3") no_artist _ _ _) _);
      vm_compute; reflexivity.
  - refine (proj2 (artist_and_title_required
                     (song_world (inr no_album_no_duration)
                        (inl (HTTPError "unreachable")))
                     (str "/music/song.mp3") no_album_no_duration _ _ _) _ _);
      try (vm_compute; reflexivity).
    unfold song_world, MAX_CONCURRENCY; simpl; lia.
Defined.

(** C7 as stated fails: a tag with artist and title and without duration
    ends the file with [error], and no lookup is made. *)
Lemma missing_duration_counterexample :
  falsy_str (artist no_duration) = false
  ∧ falsy_str (title no_duration) = false
  ∧ (run (process_file song_path)
       (song_world (inr no_duration) (inr synced_answer))).1.1
    = Ok (error song_path int_of_None)
  ∧ existsb is_lookup
      (run (process_file song_path)
         (song_world (inr no_duration) (inr synced_answer))).2 = false.
Proof. repeat split; vm_compute; reflexivity. Qed.

(** C10: on a 200 answer whose [syncedLyrics] is absent, null or empty (any
    falsy value), [get_lyrics] uses [plainLyrics]: it returns that value
    when it is truthy and [None] otherwise; when both fields are falsy the
    file ends with [missing]. *)
Theorem falsy_synced_lyrics_fall_back (w : World) (p : pystr)
    (al t ar : option pystr) (d : Z) (resp : Response)
    (members : list (pystr * json)) :
  w_lrclib w (w_requests w) (lookup_params ar t al d) = inr resp →
  status_code resp = 200%Z →
  json_body resp = inr (JObj members) →
  truthy (default JNull (dict_lookup (str "syncedLyrics") members)) = false →
  let plain := default JNull (dict_lookup (str "plainLyrics") members) in
  (run (get_lyrics ar t al d) w).1.1
  = Ok (if truthy plain then Some plain else None)
  ∧ (truthy plain = false → reaches_lookup w p al t ar d →
     ∃ w' tr, run (process_file p) w = (Ok (missing p), w', tr))
  ∧ truthy (JStr []) = false ∧ truthy JNull = false.
Proof.
  intros Hr Hs Hb Hsy plain.
  assert (lyrics_of_response
            (w_lrclib w (w_requests w) (lookup_params ar t al d))
          = if truthy plain then Some plain else None) as Hl.
  { rewrite Hr. simpl. by rewrite Hs, Hb, Hsy. }
  split; [|split; [|done]].
  - destruct (run_get_lyrics w ar t al d) as (logs & -> & _). by rewrite Hl.
  - intros Hp Hreach.
    destruct (run_process_file_lookup w p al t ar d Hreach) as (pre & logs & ->).
    rewrite Hl, Hp, run_write_stage_none. eauto.
Qed.

Lemma falsy_synced_lyrics_fall_back_witness :
  (run (get_lyrics (Some (str "The Kinks")) (Some (str "Waterloo Sunset"))
          (Some (str "Something Else")) 211)
     (song_world (inr waterloo_sunset) (inr empty_lyrics_answer))).1.1
  = Ok None
  ∧ ∃ w' tr,
      run (process_file (str "/music/song.mp3"))
        (song_world (inr waterloo_sunset) (inr empty_lyrics_answer))
      = (Ok (missing (str "/music/song.mp3")), w', tr).
Proof.
  destruct (falsy_synced_lyrics_fall_back
              (song_world (inr waterloo_sunset) (inr empty_lyrics_answer))
              (str "/music/song.mp3")
              (Some (str "Something Else")) (Some (str "Waterloo Sunset"))
              (Some (str "The Kinks")) 211 empty_lyrics_answer
              [(str "syncedLyrics", JStr []); (str "plainLyrics", JNull)]
              eq_refl eq_refl eq_refl eq_refl) as (Hget & Hmissing & _).
  split; [exact Hget|].
  apply Hmissing; [reflexivity|].
  repeat split; try (vm_compute; reflexivity).
  unfold song_world, MAX_CONCURRENCY; simpl; lia.
Defined.

Lemma run_write_stage_Ok w p v :
  ∃ out w' tr, run (write_stage p v) w = (Ok out, w', tr).
Proof.
  destruct v as [v|]; [|by eexists _, _, _].
  rewrite run_write_stage_some.
  destruct (w_open_error w (lrc_path p)); [by eexists _, _, _|].
  destruct (w_isdir w (lrc_path p)); [by eexists _, _, _|].
  destruct v; try by eexists _, _, _.
  destruct (w_write_error w (lrc_path p) s); by eexists _, _, _.
Qed.

Lemma run_load_cache_absent w :
  path_exists w cache_file = false →
  run load_cache w = (Ok [], w, [OsPathExists cache_file]).
Proof.
  intros H. unfold load_cache. unfold_monad. cbn [perform bind run handle].
  by rewrite H.
Qed.

Lemma run_load_cache_unreadable w e :
  path_exists w cache_file = true →
  w_read_error w cache_file = Some e →
  run load_cache w
  = (Raised e, w, [OsPathExists cache_file; ReadText cache_file]).
Proof.
  intros H He. unfold load_cache. unfold_monad. cbn [perform bind run handle].
  rewrite H. cbn [perform bind run handle]. by rewrite He.
Qed.

Lemma run_main_setup_unreadable w e :
  path_exists w cache_file = true →
  w_read_error w cache_file = Some e →
  (run main_setup w).1.1 = Raised e.
Proof.
  intros H He. unfold main_setup, collect_audio_files, logging_info.
  unfold_monad. cbn [perform bind run handle].
  rewrite run_bind, (run_load_cache_unreadable w e) by done. done.
Qed.

(** C8, as amended: once the containment check has returned, no failure of
    the existing-output check, extraction, lookup or write escapes
    [process_file]: it returns an outcome. An absent cache file loads as the
    empty cache. A cache file that exists but cannot be read makes
    [load_cache] raise, and [main_async] ends there, before any file is
    processed. *)
Theorem failures_after_check_do_not_escape (w : World) (p : pystr) (b : bool) :
  (run (is_in_cache p (w_cache_entries w)) w).1.1 = Ok b →
  (0 < w_sem w)%nat →
  (∃ out w' tr, run (process_file p) w = (Ok out, w', tr))
  ∧ (path_exists w cache_file = false →
     run load_cache w = (Ok [], w, [OsPathExists cache_file]))
  ∧ (∀ e, path_exists w cache_file = true →
          w_read_error w cache_file = Some e →
          (run load_cache w).1.1 = Raised e
          ∧ (run main_setup w).1.1 = Raised e).
Proof.
  intros Hc Hsem. split; [|split].
  - apply is_in_cache_run_inv in Hc as (tr & Hc & _).
    rewrite run_process_file_check, Hc.
    destruct b; [by eexists _, _, _|].
    destruct (path_exists w (lrc_path p)); [by eexists _, _, _|].
    destruct (w_tinytag w p) as [e|audio]; [by eexists _, _, _|].
    destruct (duration audio) as [x|]; [|by eexists _, _, _].
    destruct (falsy_str (artist audio) || falsy_str (title audio));
      [by eexists _, _, _|].
    destruct (w_sem w) as [|n] eqn:Hn; [lia|].
    destruct (run_lookup_stage w p (album audio) (title audio) (artist audio)
                (int_of_float x) n Hn) as (logs & _ & ->).
    destruct (run_write_stage_Ok (set_requests (S (w_requests w)) w) p
                (lyrics_of_response
                   (w_lrclib w (w_requests w)
                      (lookup_params (artist audio) (title audio)
                         (album audio) (int_of_float x)))))
      as (out & w' & tr' & ->).
    by eexists _, _, _.
  - apply run_load_cache_absent.
  - intros e H He. split; [|by apply run_main_setup_unreadable].
    by rewrite (run_load_cache_unreadable w e).
Qed.

Lemma failures_after_check_do_not_escape_witness :
  (∃ out w' tr,
     run (process_file (str "/music/song.mp3")) hostile_world
     = (Ok out, w', tr))
  ∧ run load_cache hostile_world
    = (Ok [], hostile_world, [OsPathExists cache_file]).
Proof.
  destruct (failures_after_check_do_not_escape hostile_world
              (str "/music/song.mp3") false)
    as (Hp & Hl & _).
  - vm_compute. reflexivity.
  - unfold hostile_world, MAX_CONCURRENCY; simpl; lia.
  - split; [exact Hp|]. apply Hl. vm_compute. reflexivity.
Defined.

(** C8 as stated fails: a cache file that cannot be read does not degrade to
    an empty cache; [load_cache] raises and so does [main_async]. *)
Lemma unreadable_cache_counterexample :
  (run load_cache unreadable_cache_world).1.1
  = Raised (OSError "Permission denied")
  ∧ (run load_cache unreadable_cache_world).1.1 ≠ Ok []
  ∧ (run main_setup unreadable_cache_world).1.1
    = Raised (OSError "Permission denied").
Proof. by vm_compute. Qed.

(** The containment check is outside every [try]: on a directory entry that
    is relative where the path is absolute, [commonpath] raises and the
    exception leaves [process_file]. *)
Lemma containment_check_raises :
  (run (process_file (str "/music/song.mp3")) relative_dir_world).1.1
  = Raised (ValueError "Can't mix absolute and relative paths").
Proof. by vm_compute. Qed.

(** ** The tasks of [main_async] *)

Lemma sem_discipline_bind {A B} h h1 hret hraise (p : prog A) (f : A → prog B) :
  sem_discipline h h1 hraise p →
  (∀ a, sem_discipline h1 hret hraise (f a)) →
  sem_discipline h hret hraise (bind p f).
Proof.
  revert h. induction p as [a|e|o k IH]; intros h Hp Hf; cbn in *.
  - by subst.
  - done.
  - destruct Hp as [Ho Hk]. split; [done|]. intros r. by apply IH.
Qed.

Lemma sem_discipline_try {A} h h1 hret hraise (p : prog A) (hd : exn → prog A) :
  sem_discipline h hret h1 p →
  (∀ e, sem_discipline h1 hret hraise (hd e)) →
  sem_discipline h hret hraise (try_except p hd).
Proof.
  revert h. induction p as [a|e|o k IH]; intros h Hp Hf; cbn in *.
  - done.
  - by subst.
  - destruct Hp as [Ho Hk]. split; [done|]. intros r. by apply IH.
Qed.

Lemma sem_discipline_lift {A} h (r : exn + A) :
  sem_discipline h h h (lift r).
Proof. by destruct r. Qed.

Lemma sd_acquire {A} hret hraise (k : resp SemAcquire → prog A) :
  (∀ r, sem_discipline true hret hraise (k r)) →
  sem_discipline false hret hraise (Vis SemAcquire k).
Proof. by split. Qed.

Lemma sd_release {A} hret hraise (k : resp SemRelease → prog A) :
  (∀ r, sem_discipline false hret hraise (k r)) →
  sem_discipline true hret hraise (Vis SemRelease k).
Proof. by split. Qed.

Lemma sem_discipline_perform_free o :
  free_op o = true → sem_discipline false false false (perform o).
Proof. intros H. destruct o; try discriminate; by split. Qed.

Lemma sem_discipline_perform_held o :
  held_op o = true → sem_discipline true true true (perform o).
Proof. intros H. destruct o; try discriminate; by split. Qed.

Ltac sd_perform :=
  match goal with
  | |- sem_discipline _ _ _ (perform ?o) =>
      first [apply (sem_discipline_perform_free o)
            |apply (sem_discipline_perform_held o)]; reflexivity
  end.

Lemma sem_discipline_is_in_cache p es :
  sem_discipline false false false (is_in_cache p es).
Proof.
  induction es as [|e es IH]; [done|].
  cbn [is_in_cache]. unfold_monad.
  eapply sem_discipline_bind; [sd_perform|].
  intros [].
  - eapply sem_discipline_bind; [apply sem_discipline_lift|].
    intros c. destruct (str_eqb c e); [done|done].
  - destruct (str_eqb p e); [done|done].
Qed.

Lemma sem_discipline_get_lyrics ar t al d :
  sem_discipline true true true (get_lyrics ar t al d).
Proof.
  unfold get_lyrics, logging_info, logging_error. unfold_monad.
  eapply sem_discipline_bind.
  - eapply sem_discipline_try.
    + eapply sem_discipline_bind;
        [eapply sem_discipline_bind;
           [sd_perform|apply sem_discipline_lift]|].
      intros r. destruct (status_code r =? 200)%Z; [|done].
      eapply sem_discipline_bind; [apply sem_discipline_lift|]. intros data.
      eapply sem_discipline_bind; [apply sem_discipline_lift|]. intros synced.
      eapply sem_discipline_bind.
      { destruct (truthy synced); [done|apply sem_discipline_lift]. }
      intros lyrics. destruct (truthy lyrics); [|done].
      eapply sem_discipline_bind; [sd_perform|].
      intros _. done.
    + intros e. eapply sem_discipline_bind;
        [sd_perform|]. intros _. done.
  - intros [lyrics|]; [done|].
    eapply sem_discipline_bind; [sd_perform|].
    intros _. done.
Qed.

Lemma sem_discipline_process_file p :
  sem_discipline false false false (process_file p).
Proof.
  unfold process_file. unfold_monad.
  eapply sem_discipline_bind; [sd_perform|].
  intros ce.
  eapply sem_discipline_bind; [apply sem_discipline_is_in_cache|].
  intros []; [done|].
  eapply sem_discipline_bind; [sd_perform|].
  intros []; [done|].
  eapply sem_discipline_bind.
  { eapply sem_discipline_try.
    - eapply sem_discipline_bind.
      + unfold get_song_details. unfold_monad.
        eapply sem_discipline_bind;
          [eapply sem_discipline_bind;
             [sd_perform|apply sem_discipline_lift]|].
        intros audio. eapply sem_discipline_bind.
        * destruct (duration audio); done.
        * intros d. done.
      + intros [[[al t] ar] d].
        destruct (falsy_str ar || falsy_str t); done.
    - intros e. done. }
  intros [out|[[[al t] ar] d]]; [done|].
  eapply sem_discipline_bind.
  { unfold with_sem. unfold_monad.
    apply sd_acquire. intros _. cbn [bind].
    eapply sem_discipline_bind.
    - eapply (sem_discipline_try true true).
      + apply sem_discipline_get_lyrics.
      + intros e. apply sd_release. intros _. done.
    - intros r. apply sd_release. intros _. done. }
  intros [lyrics|]; [|done].
  eapply sem_discipline_try; [|intros e; done].
  eapply sem_discipline_bind; [|intros _; done].
  unfold write_text. unfold_monad.
  eapply sem_discipline_bind;
    [eapply sem_discipline_bind;
       [sd_perform|apply sem_discipline_lift]|].
  intros _. destruct lyrics; try done.
  eapply sem_discipline_bind;
    [sd_perform|apply sem_discipline_lift].
Qed.

(** ** The semaphore invariant *)

Lemma count_true_insert (hs : list bool) (i : nat) (h h' : bool) :
  hs !! i = Some h →
  (count_true (<[i := h']> hs) + (if h then 1 else 0)
   = count_true hs + (if h' then 1 else 0))%nat.
Proof.
  revert i. induction hs as [|x hs IH]; intros [|i] Hi; simplify_eq/=.
  - unfold count_true. rewrite !filter_cons.
    destruct h, h'; repeat case_decide; simpl; try done; lia.
  - specialize (IH i Hi). unfold count_true in *. rewrite !filter_cons.
    case_decide; simpl; lia.
Qed.

Lemma handle_sem_unchanged o w r w' :
  handle o w = Some (r, w') →
  o ≠ SemAcquire → o ≠ SemRelease →
  w_sem w' = w_sem w.
Proof.
  destruct o; cbn; intros H ? ?; try done; simplify_eq; try done.
  - destruct (w_read_error w p); [by simplify_eq|].
    destruct (w_files w !! p); by simplify_eq.
  - destruct (w_open_error w p); [by simplify_eq|].
    destruct (w_isdir w p); by simplify_eq.
  - destruct (w_write_error w p data); by simplify_eq.
Qed.

(** The loop body only logs and appends to [cache_entries]. *)
Lemma run_loop_body result c w :
  ∃ c' tr,
    run (loop_body result c) w
    = (Ok c',
       match result with
       | already_exists p | found p =>
           set_cache_entries (w_cache_entries w ++ [p]) w
       | _ => w
       end, tr).
Proof. destruct result; by eexists _, _. Qed.

Lemma task_step_inv i s s' :
  task_step i s = Some s' →
  ∃ t t' w' c' ops,
    sys_tasks s !! i = Some t
    ∧ step_of t (sys_world s) (sys_counters s) = Some (t', w', c', ops)
    ∧ s' = {| sys_world := w';
              sys_tasks := <[i := t']> (sys_tasks s);
              sys_counters := c';
              sys_events := sys_events s ++ map (pair i) ops |}.
Proof.
  unfold task_step. intros H.
  destruct (sys_tasks s !! i) as [t|]; [|done].
  destruct (step_of t (sys_world s) (sys_counters s))
    as [[[[t' w'] c'] ops]|] eqn:Hs; [|done].
  simplify_eq. by eexists _, _, _, _, _.
Qed.

Lemma step_of_inv t w c t' w' c' ops :
  step_of t w c = Some (t', w', c', ops) →
  (∃ o k r,
     t = Pending (Vis o k) ∧ handle o w = Some (r, w')
     ∧ t' = Pending (k r) ∧ c' = c ∧ ops = [o])
  ∨ (∃ result,
       t = Pending (Ret result) ∧ t' = Consumed result ∧ ops = []
       ∧ w' = match result with
              | already_exists p | found p =>
                  set_cache_entries (w_cache_entries w ++ [p]) w
              | _ => w
              end).
Proof.
  destruct t as [[result|e|o k]|]; cbn; try done.
  - destruct (run_loop_body result c w) as (c'' & tr & ->).
    intros ?; simplify_eq. right. by eexists.
  - destruct (handle o w) as [[r w'']|] eqn:Hh; [|done].
    intros ?; simplify_eq. left. by eexists _, _, _.
Qed.

Lemma sem_inv_step s s' : sem_inv s → sys_step s s' → sem_inv s'.
Proof.
  intros (hs & Hts & Hsum) [i Hstep].
  apply task_step_inv in Hstep
    as (t & t' & w' & c' & ops & Ht & Hstep & ->).
  destruct (Forall2_lookup_l _ _ _ _ _ Hts Ht) as (h & Hi & Hok).
  apply step_of_inv in Hstep
    as [(o & k & r & -> & Hh & -> & -> & ->)|(result & -> & -> & -> & ->)];
    cbn [sys_world sys_tasks].
  - destruct Hok as [Ho Hk].
    exists (<[i := holds_after h o]> hs). split.
    + apply Forall2_insert; [done|]. apply Hk.
    + cbn [sys_world].
      pose proof (count_true_insert hs i h (holds_after h o) Hi) as Hc.
      destruct o;
        try (rewrite (handle_sem_unchanged _ _ _ _ Hh) by done;
             cbn [holds_after] in *; destruct h; lia).
      * cbn in Hh, Ho, Hc. destruct h; [done|].
        destruct (w_sem (sys_world s)) eqn:Hs; simplify_eq. cbn. lia.
      * cbn in Hh, Ho, Hc. destruct h; [|done]. simplify_eq. cbn. lia.
  - cbn in Hok. subst h. exists hs. split.
    + rewrite <- (list_insert_id hs i false) by done.
      by apply Forall2_insert.
    + by destruct result.
Qed.

Lemma sem_inv_initial w files : sem_inv (initial_sys w files).
Proof.
  exists (replicate (length files) false). split.
  - cbn. induction files as [|f files IH]; cbn; constructor; [|done].
    apply sem_discipline_process_file.
  - unfold count_true.
    assert (filter (λ h, h = true) (replicate (length files) false) = []) as ->.
    { induction files as [|f files IH]; [done|].
      cbn [length replicate]. by rewrite filter_cons_False. }
    cbn [initial_sys sys_world w_sem set_sem length]. lia.
Qed.

Lemma sem_inv_reachable w files s :
  rtc sys_step (initial_sys w files) s → sem_inv s.
Proof.
  revert s. apply rtc_ind_r; [apply sem_inv_initial|].
  eauto using sem_inv_step.
Qed.

Lemma in_flight_le_held ts hs :
  Forall2 task_ok ts hs →
  (length (filter (λ t, in_flight t = true) ts) ≤ count_true hs)%nat.
Proof.
  unfold count_true. induction 1 as [|t h ts hs Hth _ IH]; [done|].
  rewrite !filter_cons. destruct (decide (in_flight t = true)) as [Hf|Hf].
  - assert (h = true) as ->.
    { destruct t as [[?|?|o k]|]; try done. destruct o; try done.
      destruct Hth as [Ho _]. by destruct h. }
    rewrite decide_True by done. simpl. lia.
  - case_decide; simpl; lia.
Qed.

(** C9: at every moment of a run at most [MAX_CONCURRENCY] lookups are in
    flight. The limiter concerns the lookup alone: every other operation can
    always proceed, and [process_file] acquires the semaphore only around
    the lookup, performing nothing but the lookup and its logging while it
    holds it. *)
Theorem at_most_max_concurrency_lookups
    (w : World) (audio_files : list pystr) (s : Sys) :
  rtc sys_step (initial_sys w audio_files) s →
  (lookups_in_flight s ≤ MAX_CONCURRENCY)%nat
  ∧ (∀ o w', o ≠ SemAcquire → is_Some (handle o w'))
  ∧ (∀ p, sem_discipline false false false (process_file p))
  ∧ (∀ i o k, sys_tasks s !! i = Some (Pending (Vis o k)) →
              o ≠ SemAcquire → ∃ s', sys_step s s').
Proof.
  intros Hreach.
  assert (∀ o w', o ≠ SemAcquire → is_Some (handle o w')) as Henabled.
  { intros o w' Ho. destruct o; cbn; try done; try by eexists.
    - destruct (w_read_error w' p); [by eexists|].
      destruct (w_files w' !! p); by eexists.
    - destruct (w_open_error w' p); [by eexists|].
      destruct (w_isdir w' p); by eexists.
    - destruct (w_write_error w' p data); by eexists. }
  split; [|split; [done|split; [apply sem_discipline_process_file|]]].
  - destruct (sem_inv_reachable _ _ _ Hreach) as (hs & Hts & Hsum).
    pose proof (in_flight_le_held _ _ Hts). unfold lookups_in_flight. lia.
  - intros i o k Ht Ho.
    destruct (Henabled o (sys_world s) Ho) as [[r w'] Hh].
    eexists. exists i. unfold task_step. rewrite Ht. cbn. by rewrite Hh.
Qed.

Lemma run_schedule_reachable schedule s s' :
  run_schedule schedule s = Some s' → rtc sys_step s s'.
Proof.
  revert s. induction schedule as [|i rest IH]; intros s H; cbn in H.
  - by simplify_eq.
  - destruct (task_step i s) as [s1|] eqn:Hs; [|done].
    eapply rtc_l; [by exists i|by apply IH].
Qed.

Lemma at_most_max_concurrency_lookups_witness :
  ∃ s,
    run_schedule two_lookups_schedule
      (initial_sys (song_world (inr waterloo_sunset)
                      (inl (HTTPError "timed out"))) two_songs) = Some s
    ∧ lookups_in_flight s = 2%nat
    ∧ (lookups_in_flight s ≤ MAX_CONCURRENCY)%nat.
Proof.
  destruct (run_schedule two_lookups_schedule
              (initial_sys (song_world (inr waterloo_sunset)
                              (inl (HTTPError "timed out"))) two_songs))
    as [s|] eqn:Hs; [|by vm_compute in Hs].
  exists s. split; [done|]. split.
  - vm_compute in Hs. by simplify_eq.
  - apply (at_most_max_concurrency_lookups
             (song_world (inr waterloo_sunset) (inl (HTTPError "timed out")))
             two_songs s).
    by apply run_schedule_reachable with two_lookups_schedule.
Defined.

(** ** The cache during and after a run *)

Lemma handle_allowed_preserves h o w r w' :
  handle o w = Some (r, w') →
  op_allowed h o = true →
  w_isdir w' = w_isdir w ∧ w_cache_entries w' = w_cache_entries w.
Proof.
  destruct o; cbn; intros H Ho; simplify_eq; try done;
    try (by destruct h).
  - destruct (w_open_error w p); [by simplify_eq|].
    destruct (w_isdir w p); by simplify_eq.
  - destruct (w_write_error w p data); by simplify_eq.
  - destruct (w_sem w); by simplify_eq.
Qed.

Lemma run_inv_initial w files :
  run_inv (w_isdir w) (w_cache_entries w) (initial_sys w files).
Proof.
  split; [apply sem_inv_initial|]. split; [done|]. split; [done|].
  intros i p [H|H]; cbn in H; rewrite list_lookup_fmap in H;
    destruct (files !! i); simplify_eq/=.
Qed.

Lemma run_inv_step isdir0 E s s' :
  run_inv isdir0 E s → sys_step s s' → run_inv isdir0 E s'.
Proof.
  intros (Hsem & Hdir & Hpre & Hc) Hstep.
  split; [by eapply sem_inv_step|].
  destruct Hsem as (hs & Hts & _). destruct Hstep as [i Hstep].
  apply task_step_inv in Hstep
    as (t & t' & w' & c' & ops & Ht & Hstep & ->).
  destruct (Forall2_lookup_l _ _ _ _ _ Hts Ht) as (h & Hi & Hok).
  apply step_of_inv in Hstep
    as [(o & k & r & -> & Hh & -> & -> & ->)|(result & -> & -> & -> & ->)];
    cbn [sys_world sys_tasks].
  - destruct Hok as [Ho _].
    destruct (handle_allowed_preserves _ _ _ _ _ Hh Ho) as [-> ->].
    split; [done|]. split; [done|].
    intros j p Hj. cbn [sys_world sys_tasks] in *.
    destruct (decide (i = j)) as [->|Hne].
    + rewrite list_lookup_insert_eq in Hj by (by eapply lookup_lt_Some).
      destruct Hj; simplify_eq.
    + rewrite list_lookup_insert_ne in Hj by done.
      destruct (handle_allowed_preserves _ _ _ _ _ Hh Ho) as [_ ->]. eauto.
  - assert (w_cache_entries (sys_world s) `prefix_of`
              w_cache_entries
                match result with
                | already_exists p | found p =>
                    set_cache_entries (w_cache_entries (sys_world s) ++ [p])
                      (sys_world s)
                | _ => sys_world s
                end) as Hgrow.
    { destruct result; cbn; try done; by apply prefix_app_r. }
    split; [by destruct result|]. split; [by etrans|].
    intros j p Hj. cbn [sys_world sys_tasks] in *.
    destruct (decide (i = j)) as [->|Hne].
    + rewrite list_lookup_insert_eq in Hj by (by eapply lookup_lt_Some).
      destruct Hj; simplify_eq; cbn; apply elem_of_app; right; by left.
    + rewrite list_lookup_insert_ne in Hj by done.
      eapply elem_of_prefix; [|exact Hgrow]. eauto.
Qed.

Lemma run_inv_reachable w files s :
  rtc sys_step (initial_sys w files) s →
  run_inv (w_isdir w) (w_cache_entries w) s.
Proof.
  revert s. apply rtc_ind_r; [apply run_inv_initial|].
  eauto using run_inv_step.
Qed.

Lemma run_write_lines_Ok w items t w' tr :
  w_files w !! cache_file = Some t →
  run (for_each items
         (λ item, perform (FileWrite cache_file (item ++ [LF])) ≫= lift)) w
  = (Ok tt, w', tr) →
  w' = set_files (<[cache_file := t ++ cache_text items]> (w_files w)) w.
Proof.
  revert w t tr. induction items as [|item items IH]; intros w t tr Ht.
  - cbn. intros [= <- _]. by rewrite app_nil_r, insert_id, set_files_id.
  - cbn [for_each]. unfold_monad. rewrite run_bind.
    cbn [perform bind run handle].
    destruct (w_write_error w cache_file (item ++ [LF])) as [e|]; cbn; [done|].
    rewrite Ht. cbn.
    destruct (run (for_each items _) _) as [[r w1] tr1] eqn:Hrun.
    intros [= -> -> _].
    apply IH with (t := t ++ item ++ [LF]) in Hrun;
      [|by cbn; rewrite lookup_insert_eq].
    rewrite Hrun. unfold set_files; cbn. rewrite insert_insert_eq.
    unfold cache_text. cbn. by rewrite !app_assoc.
Qed.

Lemma run_save_cache_Ok w cache w' tr :
  run (save_cache cache) w = (Ok tt, w', tr) →
  w' = set_files (<[cache_file := cache_text (sorted_set cache)]> (w_files w)) w.
Proof.
  unfold save_cache. unfold_monad. rewrite run_bind.
  cbn [perform bind run handle].
  destruct (w_open_error w cache_file) as [e|]; cbn; [done|].
  destruct (w_isdir w cache_file); cbn; [done|].
  destruct (run (for_each _ _) _) as [[r w1] tr1] eqn:Hrun.
  intros [= -> -> _].
  apply run_write_lines_Ok with (t := []) in Hrun;
    [|by cbn; rewrite lookup_insert_eq].
  rewrite Hrun. unfold set_files; cbn. by rewrite insert_insert_eq.
Qed.

Lemma run_main_finish_Ok w w' tr :
  run main_finish w = (Ok tt, w', tr) →
  w' = set_files
         (<[cache_file := cache_text (sorted_set (w_cache_entries w))]>
            (w_files w)) w.
Proof.
  unfold main_finish, logging_info. unfold_monad.
  cbn [perform bind run handle]. rewrite run_bind.
  destruct (run (save_cache (w_cache_entries w)) w) as [[[[]|e|] w1] tr1]
    eqn:Hrun; cbn; try done.
  intros [= <- _]. by apply run_save_cache_Ok in Hrun.
Qed.

Lemma Consumed_lookup results out :
  out ∈ results → ∃ i, map Consumed results !! i = Some (Consumed out).
Proof.
  intros (i & Hi)%list_elem_of_lookup. exists i.
  by rewrite list_lookup_fmap, Hi.
Qed.

(** What a completed run leaves in the cache file. *)
Lemma main_async_completed_cache w wf c results :
  main_async w (Completed wf c results) →
  ∃ L,
    w_cache_entries wf = L
    ∧ w_files wf !! cache_file = Some (cache_text (sorted_set L))
    ∧ ∀ p, found p ∈ results ∨ already_exists p ∈ results → p ∈ L.
Proof.
  inversion 1 as [| | |files w0 tr s res w' tr' Hsetup Hreach Hts Hfin]; subst.
  apply run_main_finish_Ok in Hfin. subst wf.
  exists (w_cache_entries (sys_world s)). split; [done|].
  split; [by cbn; rewrite lookup_insert_eq|].
  destruct (run_inv_reachable _ _ _ Hreach) as (_ & _ & _ & Hc).
  intros p [Hp|Hp]; apply Consumed_lookup in Hp as [i Hi];
    rewrite <- Hts in Hi; eauto.
Qed.

(** C4: a file that is not in the cache and whose sibling [.lrc] file
    exists is [already_exists], with no lookup; the loop of [main_async]
    appends its path to [cache_entries]; and in every completed run the
    path of such a file is among the entries written to the cache file. *)
Theorem existing_output_is_cached (w : World) (p : pystr) :
  (run (is_in_cache p (w_cache_entries w)) w).1.1 = Ok false →
  path_exists w (lrc_path p) = true →
  (∃ tr, run (process_file p) w = (Ok (already_exists p), w, tr)
         ∧ Forall (λ o, is_lookup o = false) tr)
  ∧ (∀ c, ∃ c' tr,
       run (loop_body (already_exists p) c) w
       = (Ok c', set_cache_entries (w_cache_entries w ++ [p]) w, tr))
  ∧ (∀ w0 wf c results,
       main_async w0 (Completed wf c results) →
       already_exists p ∈ results →
       p ∈ sorted_set (w_cache_entries wf)
       ∧ w_files wf !! cache_file
         = Some (cache_text (sorted_set (w_cache_entries wf)))).
Proof.
  intros Hc Hex. split; [|split].
  - apply is_in_cache_run_inv in Hc as (tr & Hc & Htr).
    rewrite run_process_file_check, Hc, Hex.
    eexists. split; [reflexivity|].
    constructor; [done|]. apply Forall_app. split; [|by repeat constructor].
    eapply Forall_impl; [exact Htr|]. by intros o [e ->].
  - intros c. apply (run_loop_body (already_exists p)).
  - intros w0 wf c results Hrun Hp.
    destruct (main_async_completed_cache _ _ _ _ Hrun) as (L & -> & Hf & HL).
    split; [|done]. apply sorted_set_elem. auto.
Qed.

Lemma main_async_along_completed schedule w wf c results :
  main_async_along schedule w = Some (Completed wf c results) →
  main_async w (Completed wf c results).
Proof.
  unfold main_async_along.
  destruct (run main_setup w) as [[[files| |] w0] tr] eqn:Hsetup; try done.
  destruct (run_schedule schedule (initial_sys w0 files)) as [s|] eqn:Hs;
    [|done].
  destruct (mapM _ (sys_tasks s)) as [res|] eqn:Hres; [|done].
  destruct (run main_finish (sys_world s)) as [[[[]| |] w'] tr'] eqn:Hfin;
    try done.
  intros [= <- <- <-].
  eapply main_completes; [done|by eapply run_schedule_reachable| |done].
  apply mapM_Some in Hres. clear -Hres.
  induction Hres as [|t r ts rs Htr _ IH]; [done|].
  cbn. rewrite IH. by destruct t; simplify_eq.
Qed.

Lemma existing_output_is_cached_witness :
  (∃ tr,
     run (process_file song_path) lrc_present_world
     = (Ok (already_exists song_path), lrc_present_world, tr)
     ∧ Forall (λ o, is_lookup o = false) tr)
  ∧ ∃ wf c,
      main_async lrc_present_world
        (Completed wf c [already_exists song_path])
      ∧ song_path ∈ sorted_set (w_cache_entries wf)
      ∧ w_files wf !! cache_file
        = Some (cache_text (sorted_set (w_cache_entries wf))).
Proof.
  destruct (existing_output_is_cached lrc_present_world song_path)
    as (Hp & _ & Hrun).
  - vm_compute. reflexivity.
  - vm_compute. reflexivity.
  - split; [exact Hp|].
    set (F := run_along [0; 0; 0]%nat lrc_present_world).
    assert (main_async lrc_present_world
              (Completed (final_world F) (final_counters F)
                 [already_exists song_path])) as Halong.
    { apply main_async_along_completed with [0; 0; 0]%nat.
      vm_compute. reflexivity. }
    exists (final_world F), (final_counters F). split; [exact Halong|].
    apply (Hrun lrc_present_world _ _ [already_exists song_path] Halong).
    by left.
Defined.

(** ** Where a [cached] outcome comes from *)

Lemma ensures_bind {A B} (Q : A → Prop) (P : B → Prop)
    (p : prog A) (f : A → prog B) :
  ensures Q p → (∀ a, Q a → ensures P (f a)) → ensures P (bind p f).
Proof.
  intros Hp Hf. induction p as [a|e|o k IH]; cbn in *; auto.
Qed.

Lemma ensures_try {A} (P : A → Prop) (p : prog A) (h : exn → prog A) :
  ensures P p → (∀ e, ensures P (h e)) → ensures P (try_except p h).
Proof.
  intros Hp Hh. induction p as [a|e|o k IH]; cbn in *; auto.
Qed.

Lemma ensures_any {A} (p : prog A) : ensures (λ _, True) p.
Proof. induction p; cbn; auto. Qed.











(** ** A second run *)


Lemma load_saved_entries L :
  Forall (λ e, clean_entry e = true) L →
  strip <$> filter (λ line, strip line ≠ [])
              (readlines (universal_newlines (cache_text (sorted_set L))))
  = sorted_set L.
Proof.
  intros HL.
  assert (Forall (λ s, clean_entry s = true) (sorted_set L)) as Hs.
  { rewrite Forall_forall in HL |- *. intros e He.
    apply HL. by apply sorted_set_elem. }
  rewrite universal_newlines_id.
  - rewrite readlines_cache_text; [by apply load_lines|].
    eapply Forall_impl; [exact Hs|]. intros s H.
    apply clean_entry_inv in H as (_ & _ & H).
    eapply Forall_impl; [exact H|]. by intros c [? ?].
  - unfold cache_text. apply Forall_concat, Forall_fmap.
    eapply Forall_impl; [exact Hs|]. intros s H. simpl.
    apply clean_entry_inv in H as (_ & _ & H).
    apply Forall_app. split; [|by repeat constructor].
    eapply Forall_impl; [exact H|]. by intros c [? ?].
Qed.

Lemma task_step_eq i s t t' w' c' ops :
  sys_tasks s !! i = Some t →
  step_of t (sys_world s) (sys_counters s) = Some (t', w', c', ops) →
  ∃ s', task_step i s = Some s'
        ∧ sys_world s' = w'
        ∧ sys_tasks s' !! i = Some t'.
Proof.
  intros Ht Hstep. unfold task_step. rewrite Ht, Hstep.
  eexists. split; [done|]. split; [done|]. cbn.
  apply list_lookup_insert_eq. by eapply lookup_lt_Some.
Qed.


Section CoveredFile.
(** The task [i] of a run is for the file [p], which the entries the run
    started with cover, whatever is appended to them. *)
Variables (w_ref : World) (p : pystr) (i : nat).
Hypothesis covered :
  ∀ L, w_cache_entries w_ref `prefix_of` L →
       (run (is_in_cache p L) w_ref).1.1 = Ok true.





End CoveredFile.




(** ** Discovery and output paths *)

Lemma endswith_iff s suf : endswith s suf = true ↔ ∃ x, s = x ++ suf.
Proof.
  unfold endswith, str_eqb. rewrite bool_decide_eq_true. split.
  - set (n := (length s - length suf)%nat). intros H. exists (take n s).
    rewrite <- H. symmetry. apply take_drop.
  - intros [x ->]. rewrite length_app.
    replace (length x + length suf - length suf)%nat with (length x) by lia.
    by rewrite drop_app_length.
Qed.

Lemma path_join_suffix a b : ∃ pre, path_join a b = pre ++ b.
Proof.
  unfold path_join. destruct (starts_with_sep b); [by exists []|].
  destruct (str_eqb a [] || endswith a [SLASH]); [by exists a|].
  exists (a ++ [SLASH]). by rewrite <- app_assoc.
Qed.

Lemma lrc_not_audio x :
  existsb (endswith (x ++ str ".lrc")) audio_suffixes = false.
Proof.
  apply not_true_is_false. rewrite existsb_exists.
  intros (suf & Hin & (y & Hy)%endswith_iff).
  apply (f_equal (@rev N)) in Hy. rewrite !rev_app_distr in Hy.
  replace (rev (str ".lrc")) with [99; 114; 108; 46] in Hy by reflexivity.
  unfold audio_suffixes in Hin. cbn in Hin.
  destruct Hin as [<-|[<-|[<-|[<-|[<-|[<-|[]]]]]]];
    vm_compute (rev (str _)) in Hy; cbn in Hy; try discriminate.
Qed.

Lemma rfind_None c s : rfind c s = None ↔ c ∉ s.
Proof.
  induction s as [|d s IH]; cbn.
  - split; [intros _; apply not_elem_of_nil|done].
  - rewrite not_elem_of_cons. destruct (rfind c s) as [i|].
    + split; [done|]. intros [_ H]. by apply IH in H.
    + destruct (N.eqb_spec d c) as [->|Hne].
      * split; [done|]. by intros [? _].
      * split; [|done]. intros _. split; [done|]. by apply IH.
Qed.

Lemma rfind_lt c s i : rfind c s = Some i → (i < length s)%nat.
Proof.
  revert i. induction s as [|d s IH]; intros i; cbn; [done|].
  destruct (rfind c s) as [j|].
  - intros [= <-]. specialize (IH j eq_refl). lia.
  - destruct (d =? c); [|done]. intros [= <-]. lia.
Qed.

Lemma rfind_app c a b :
  rfind c (a ++ b)
  = match rfind c b with
    | Some i => Some (length a + i)%nat
    | None => rfind c a
    end.
Proof.
  induction a as [|d a IH]; cbn.
  - by destruct (rfind c b).
  - rewrite IH. by destruct (rfind c b).
Qed.

Lemma splitext_stem pre stem ext :
  SLASH ∉ stem → SLASH ∉ ext → DOT ∉ ext →
  (∃ c, c ∈ stem ∧ c ≠ DOT) →
  splitext (pre ++ stem ++ DOT :: ext) = (pre ++ stem, DOT :: ext).
Proof.
  intros Hs He Hd (c & Hc & Hcd).
  unfold splitext. rewrite (app_assoc pre stem).
  assert (rfind DOT ((pre ++ stem) ++ DOT :: ext)
          = Some (length (pre ++ stem))) as ->.
  { rewrite rfind_app. cbn. apply rfind_None in Hd. rewrite Hd. cbn.
    f_equal. lia. }
  assert (∃ fi, match rfind SLASH ((pre ++ stem) ++ DOT :: ext) with
                | Some i => S i | None => 0%nat end = fi
                ∧ (fi ≤ length pre)%nat) as (fi & -> & Hfi).
  { rewrite rfind_app. cbn.
    assert (SLASH ∉ DOT :: ext) as H1.
    { apply not_elem_of_cons. split; [done|done]. }
    apply rfind_None in He. rewrite He. cbn. rewrite rfind_app.
    apply rfind_None in Hs. rewrite Hs.
    destruct (rfind SLASH pre) as [i|] eqn:Hi.
    - apply rfind_lt in Hi. eexists. split; [done|lia].
    - eexists. split; [done|lia]. }
  rewrite bool_decide_true by (rewrite length_app; lia).
  assert (forallb (λ c, c =? DOT)
            (take (length (pre ++ stem) - fi)
               (drop fi ((pre ++ stem) ++ DOT :: ext))) = false) as ->.
  { apply not_true_is_false. rewrite forallb_forall. intros Hall.
    specialize (Hall c). rewrite N.eqb_eq in Hall. apply Hcd, Hall.
    apply list_elem_of_In.
    rewrite <- (app_assoc pre), drop_app_le by done.
    rewrite length_app.
    replace (length pre + length stem - fi)%nat
      with (length (drop fi pre) + length stem)%nat
      by (rewrite length_drop; lia).
    rewrite take_app_add' by done. rewrite take_app_length.
    apply elem_of_app. by right. }
  by rewrite take_app_length, drop_app_length.
Qed.

Lemma audio_name_join root file :
  existsb (endswith file) audio_suffixes = true →
  existsb (endswith (path_join root file)) audio_suffixes = true.
Proof.
  rewrite !existsb_exists. intros (suf & Hin & (x & ->)%endswith_iff).
  exists suf. split; [done|]. apply endswith_iff.
  destruct (path_join_suffix root (x ++ suf)) as [pre ->].
  exists (pre ++ x). by rewrite app_assoc.
Qed.

Lemma elem_of_concat {A} (x : A) (ls : list (list A)) :
  x ∈ concat ls ↔ ∃ l, l ∈ ls ∧ x ∈ l.
Proof.
  rewrite list_elem_of_In, in_concat. split; intros (l & H1 & H2); exists l.
  - by rewrite !list_elem_of_In.
  - by rewrite <- !list_elem_of_In.
Qed.

(** The paths [collect_audio_files] returns for a walk. *)
Lemma collected_elem (walk : list (pystr * list pystr)) (p : pystr) :
  p ∈ concat (map (λ '(root, files),
                map (path_join root)
                  (filter (λ file,
                     existsb (endswith file) audio_suffixes = true) files))
             walk) ↔
  ∃ root files file,
    (root, files) ∈ walk ∧ file ∈ files
    ∧ existsb (endswith file) audio_suffixes = true
    ∧ p = path_join root file.
Proof.
  rewrite elem_of_concat. split.
  - intros (l & Hl & Hp).
    apply list_elem_of_fmap in Hl as ([root files] & -> & Hin).
    apply list_elem_of_fmap in Hp as (file & -> & [Hs Hf]%list_elem_of_filter).
    by exists root, files, file.
  - intros (root & files & file & Hin & Hf & Hs & ->).
    eexists. split; [apply list_elem_of_fmap; by exists (root, files)|].
    apply list_elem_of_fmap. exists file. split; [done|].
    by apply list_elem_of_filter.
Qed.

Lemma collected_audio w top l p :
  (run (collect_audio_files top) w).1.1 = Ok l → p ∈ l →
  existsb (endswith p) audio_suffixes = true.
Proof.
  intros [= <-] (root & files & file & _ & _ & Hs & ->)%collected_elem.
  by apply audio_name_join.
Qed.

(** X1: [collect_audio_files] performs the walk and nothing else, and never
    raises. Its result holds exactly the paths [os.path.join(root, file)] of
    the files of the walk whose name ends with one of the six suffixes
    (lower case, compared as written), and every path it returns ends with
    one of these suffixes itself. *)
Theorem collect_audio_files_paths (w : World) (top : pystr) :
  ∃ l,
    run (collect_audio_files top) w = (Ok l, w, [OsWalk top])
    ∧ (∀ p, p ∈ l ↔
         ∃ root files file,
           (root, files) ∈ w_walk w top ∧ file ∈ files
           ∧ existsb (endswith file) audio_suffixes = true
           ∧ p = path_join root file)
    ∧ Forall (λ p, existsb (endswith p) audio_suffixes = true) l.
Proof.
  eexists. split; [reflexivity|]. split; [intros p; apply collected_elem|].
  apply Forall_forall. intros p (root & files & file & _ & _ & Hs & ->)%collected_elem.
  rewrite existsb_exists in Hs |- *.
  destruct Hs as (suf & Hin & (x & ->)%endswith_iff).
  exists suf. split; [done|]. apply endswith_iff.
  destruct (path_join_suffix root (x ++ suf)) as [pre ->].
  exists (pre ++ x). by rewrite app_assoc.
Qed.

(** X2: the path of a lyrics file, [splitext(p)[0] + '.lrc'], ends with
    none of the audio suffixes, whatever [p] is; so no lyrics path is among
    the paths [collect_audio_files] returns. *)
Theorem lyrics_path_never_collected (w : World) (top : pystr) (p : pystr) :
  existsb (endswith (lrc_path p)) audio_suffixes = false
  ∧ ∃ l, (run (collect_audio_files top) w).1.1 = Ok l ∧ lrc_path p ∉ l.
Proof.
  split; [apply lrc_not_audio|].
  eexists. split; [reflexivity|]. intros Hin.
  eapply collected_audio in Hin; [|reflexivity].
  unfold lrc_path in Hin. by rewrite lrc_not_audio in Hin.
Qed.

Lemma starts_with_sep_app b c :
  b ≠ [] → starts_with_sep (b ++ c) = starts_with_sep b.
Proof. by destruct b. Qed.

(** X3: for a file name made of a stem and an audio suffix, where the stem
    holds no separator and at least one character other than a dot, the
    lyrics file lies in the same directory and has the same stem:
    [splitext] splits the joined path at the suffix. *)
Theorem lrc_path_sibling (root stem suf : pystr) :
  suf ∈ audio_suffixes →
  SLASH ∉ stem →
  (∃ c, c ∈ stem ∧ c ≠ DOT) →
  lrc_path (path_join root (stem ++ suf))
  = path_join root (stem ++ str ".lrc")
  ∧ splitext (path_join root (stem ++ suf))
    = (path_join root stem, suf).
Proof.
  intros Hsuf Hs Hc.
  assert (stem ≠ []) as Hne.
  { destruct Hc as (c & Hc & _). intros ->. by apply elem_of_nil in Hc. }
  assert (starts_with_sep stem = false) as Hrel.
  { destruct stem as [|c stem]; [done|]. cbn.
    apply N.eqb_neq. intros ->. apply Hs. by left. }
  assert (∃ ext, suf = (DOT :: ext) ∧ (SLASH ∉ ext) ∧ (DOT ∉ ext))
    as (ext & -> & He & Hd).
  { unfold audio_suffixes in Hsuf.
    repeat (apply elem_of_cons in Hsuf as [->|Hsuf]);
      [..|by apply elem_of_nil in Hsuf];
      (eexists; split; [reflexivity|]; split;
       apply not_elem_of_cons; vm_compute; split; try done;
       repeat (apply not_elem_of_cons; split; [done|]);
       apply not_elem_of_nil). }
  assert (∃ pre, ∀ x, path_join root (stem ++ x) = pre ++ stem ++ x)
    as (pre & Hjoin).
  { unfold path_join.
    destruct (str_eqb root [] || endswith root [SLASH]).
    - exists root. intros x. by rewrite starts_with_sep_app, Hrel.
    - exists (root ++ [SLASH]). intros x.
      by rewrite starts_with_sep_app, Hrel, <- app_assoc. }
  assert (path_join root stem = pre ++ stem) as Hstem.
  { specialize (Hjoin []). by rewrite !app_nil_r in Hjoin. }
  unfold lrc_path. rewrite !Hjoin, Hstem, splitext_stem by done.
  cbn [fst]. split; [by rewrite <- app_assoc|done].
Qed.

Lemma lrc_path_sibling_witness :
  lrc_path (path_join (str "/music") (str "song" ++ str ".mp3"))
  = path_join (str "/music") (str "song" ++ str ".lrc")
  ∧ splitext (path_join (str "/music") (str "song" ++ str ".mp3"))
    = (path_join (str "/music") (str "song"), str ".mp3").
Proof.
  apply (lrc_path_sibling (str "/music") (str "song") (str ".mp3")).
  - apply list_elem_of_further, list_elem_of_here.
  - apply (bool_decide_unpack _). vm_compute. exact I.
  - exists 115. split; [|done].
    apply (bool_decide_unpack _). vm_compute. exact I.
Defined.

(** ** What the cache file gives back *)

Lemma universal_newlines_no_CR s :
  Forall (λ c, c ≠ CR) (universal_newlines s).
Proof.
  cut (Forall (λ c, c ≠ CR) (universal_newlines s)
       ∧ ∀ c, Forall (λ c, c ≠ CR) (universal_newlines (c :: s)));
    [by intros [? _]|].
  induction s as [|d s [IH1 IH2]].
  - split; [constructor|]. intros c. cbn.
    destruct (N.eqb_spec c CR); by repeat constructor.
  - split; [apply IH2|]. intros c.
    change (universal_newlines (c :: d :: s))
      with (if c =? CR
            then LF :: (if d =? LF then universal_newlines s
                        else universal_newlines (d :: s))
            else c :: universal_newlines (d :: s)).
    destruct (N.eqb_spec c CR).
    + constructor; [done|]. destruct (d =? LF); [done|apply IH2].
    + constructor; [done|apply IH2].
Qed.

Lemma readlines_is_line s : Forall is_line (readlines s).
Proof.
  induction s as [|c s IH]; cbn; [constructor|].
  destruct (N.eqb_spec c LF) as [->|Hc].
  - constructor; [|done]. exists []. split; [constructor|by left].
  - destruct (readlines s) as [|l ls].
    + repeat constructor. exists [c]. split; [by repeat constructor|by right].
    + inversion IH as [|? ? (body & Hb & Hl) Hls]; subst.
      constructor; [|done]. exists (c :: body).
      split; [by constructor|]. destruct Hl as [-> | ->]; auto.
Qed.

Lemma readlines_chars (P : N → Prop) s :
  Forall P s → Forall (Forall P) (readlines s).
Proof.
  induction 1 as [|c s Hc _ IH]; cbn; [constructor|].
  destruct (c =? LF).
  - constructor; [by repeat constructor|done].
  - destruct (readlines s) as [|l ls]; [by repeat constructor|].
    inversion IH; subst. constructor; [by constructor|done].
Qed.

Lemma lstrip_spec s :
  ∃ sp, s = sp ++ lstrip s
        ∧ Forall (λ c, py_isspace c = true) sp
        ∧ match lstrip s with
          | [] => True
          | c :: _ => py_isspace c = false
          end.
Proof.
  induction s as [|c s (sp & Hs & Hsp & Hl)]; cbn.
  - by exists [].
  - destruct (py_isspace c) eqn:Hc.
    + exists (c :: sp). split; [by cbn; f_equal|]. split; [by constructor|done].
    + exists []. by rewrite Hc.
Qed.

(** [strip] cuts white space at both ends and keeps what lies between. *)
Lemma strip_spec s :
  ∃ a b, s = a ++ strip s ++ b
         ∧ Forall (λ c, py_isspace c = true) a
         ∧ Forall (λ c, py_isspace c = true) b
         ∧ (strip s = [] ∨
            ∃ c d t u, strip s = c :: t ∧ strip s = u ++ [d]
                       ∧ py_isspace c = false ∧ py_isspace d = false).
Proof.
  unfold strip, rstrip.
  destruct (lstrip_spec s) as (a & Hs & Ha & Hfirst).
  destruct (lstrip_spec (rev (lstrip s))) as (rb & Hr & Hrb & Hlast).
  set (m := lstrip s) in *. set (r := lstrip (rev m)) in *.
  assert (m = rev r ++ rev rb) as Hm.
  { rewrite <- rev_app_distr, <- Hr. by rewrite rev_involutive. }
  exists a, (rev rb). split; [by rewrite <- Hm|]. split; [done|].
  split.
  { apply Forall_forall. intros c Hc. rewrite Forall_forall in Hrb.
    apply Hrb. apply list_elem_of_In. apply list_elem_of_In in Hc.
    by apply in_rev. }
  destruct r as [|d r']; [by left|]. right.
  cbn [rev] in *.
  destruct (rev r' ++ [d]) as [|c t] eqn:Ht.
  { by destruct (rev r'). }
  exists c, d, t, (rev r'). split; [done|]. split; [done|]. split; [|done].
  rewrite Hm in Hfirst. done.
Qed.

Lemma clean_entry_intro c t d u s :
  s = c :: t → s = u ++ [d] →
  py_isspace c = false → py_isspace d = false →
  Forall (λ c, c ≠ LF ∧ c ≠ CR) s →
  clean_entry s = true.
Proof.
  intros Hc Hd Hsc Hsd Hall. unfold clean_entry.
  apply andb_true_iff. split; [apply andb_true_iff; split|].
  - rewrite Hc. by rewrite Hsc.
  - rewrite Hd, rev_app_distr. cbn. by rewrite Hsd.
  - apply forallb_forall. intros x Hx%list_elem_of_In.
    rewrite Forall_forall in Hall. destruct (Hall x Hx) as [H1 H2].
    apply N.eqb_neq in H1, H2. by rewrite H1, H2.
Qed.

Lemma strip_line_clean l :
  is_line l → Forall (λ c, c ≠ CR) l → strip l ≠ [] →
  clean_entry (strip l) = true.
Proof.
  intros (body & Hbody & Hl) Hcr Hne.
  destruct (strip_spec l) as (a & b & Hs & Ha & Hb & [H|H]); [done|].
  destruct H as (c & d & t & u & Hc & Hd & Hsc & Hsd).
  clear Hne. revert Hs Hc Hd. generalize (strip l). intros x Hs Hc Hd.
  eapply clean_entry_intro; try done.
  assert (Forall (λ c, c ≠ CR) x) as Hcr'.
  { rewrite Hs in Hcr. by apply Forall_app in Hcr as [_ [? _]%Forall_app]. }
  assert (Forall (λ c, c ≠ LF) x) as Hlf.
  { destruct Hl as [Hl|Hl]; rewrite Hl in Hs; clear Hl.
    - destruct b as [|y b _] using rev_ind.
      + rewrite app_nil_r, Hd, !app_assoc in Hs.
        apply app_inj_tail in Hs as [_ <-]. done.
      + rewrite !app_assoc in Hs. apply app_inj_tail in Hs as [-> _].
        by apply Forall_app in Hbody as [[_ ?]%Forall_app _].
    - rewrite Hs in Hbody.
      by apply Forall_app in Hbody as [_ [? _]%Forall_app]. }
  apply Forall_forall. intros y Hy. rewrite Forall_forall in Hcr', Hlf. auto.
Qed.

Lemma load_cache_entries_clean text :
  Forall (λ e, clean_entry e = true)
    (strip <$> filter (λ line, strip line ≠ [])
                 (readlines (universal_newlines text))).
Proof.
  apply Forall_fmap, Forall_forall. intros l [Hne Hl]%list_elem_of_filter.
  cbn. apply strip_line_clean; [| |done].
  - pose proof (readlines_is_line (universal_newlines text)) as H.
    rewrite Forall_forall in H. auto.
  - pose proof (readlines_chars (λ c, c ≠ CR) _
                  (universal_newlines_no_CR text)) as H.
    rewrite Forall_forall in H. auto.
Qed.

Lemma run_load_cache_Ok w l w' tr :
  run load_cache w = (Ok l, w', tr) →
  w' = w
  ∧ (l = []
     ∨ ∃ text, l = strip <$> filter (λ line, strip line ≠ [])
                              (readlines (universal_newlines text))).
Proof.
  unfold load_cache. unfold_monad. cbn [perform bind run handle].
  destruct (path_exists w cache_file); cbn [perform bind run handle].
  - destruct (w_read_error w cache_file); cbn; [done|].
    destruct (w_files w !! cache_file) as [text|]; cbn; [|done].
    intros [= <- <- _]. split; [done|]. right. by exists text.
  - cbn. intros [= <- <- _]. split; [done|by left].
Qed.

(** X4: when [load_cache] returns, it has changed nothing, and every
    entry it returns is not empty, has no white space at either end and
    holds no line break. *)
Theorem load_cache_entries_are_clean (w w' : World) (l : list pystr)
    (tr : list op) :
  run load_cache w = (Ok l, w', tr) →
  w' = w ∧ Forall (λ e, clean_entry e = true) l.
Proof.
  intros (-> & Hl)%run_load_cache_Ok. split; [done|].
  destruct Hl as [->|[text ->]]; [constructor|].
  apply load_cache_entries_clean.
Qed.

Lemma load_cache_entries_are_clean_witness :
  run load_cache padded_cache_world
  = (Ok [str "/m/b.mp3"; str "/m/a.mp3"], padded_cache_world,
     [OsPathExists cache_file; ReadText cache_file])
  ∧ Forall (λ e, clean_entry e = true) [str "/m/b.mp3"; str "/m/a.mp3"].
Proof.
  assert (run load_cache padded_cache_world
          = (Ok [str "/m/b.mp3"; str "/m/a.mp3"], padded_cache_world,
             [OsPathExists cache_file; ReadText cache_file])) as Hrun.
  { vm_compute. reflexivity. }
  split; [exact Hrun|].
  exact (proj2 (load_cache_entries_are_clean _ _ _ _ Hrun)).
Defined.

Lemma sorted_set_idem l : sorted_set (sorted_set l) = sorted_set l.
Proof.
  unfold sorted_set at 1 3. f_equal. f_equal. apply set_eq. intros x.
  by rewrite !elem_of_list_to_set, sorted_set_elem.
Qed.

(** X5: what [load_cache] has returned survives [save_cache]: saving the
    loaded list and loading again gives the list sorted and without
    duplicates, and saving that once more leaves the files as they are. *)
Theorem loaded_cache_round_trip (w w0 : World) (l : list pystr)
    (tr0 : list op) :
  run load_cache w = (Ok l, w0, tr0) →
  w_isdir w cache_file = false →
  w_open_error w cache_file = None →
  (∀ d, w_write_error w cache_file d = None) →
  w_read_error w cache_file = None →
  ∃ w' tr,
    run (save_cache l) w = (Ok tt, w', tr)
    ∧ (run load_cache w').1.1 = Ok (sorted_set l)
    ∧ ∃ w'' tr', run (save_cache (sorted_set l)) w' = (Ok tt, w'', tr')
                 ∧ w_files w'' = w_files w'.
Proof.
  intros Hload Hd Ho Hw Hr.
  assert (Forall (λ e, clean_entry e = true) l) as Hclean.
  { apply run_load_cache_Ok in Hload as (_ & [->|[text ->]]); [constructor|].
    apply load_cache_entries_clean. }
  eexists _, _. split; [by apply run_save_cache|].
  set (w' := set_files _ w).
  assert (w_files w' !! cache_file = Some (cache_text (sorted_set l))) as Hf.
  { unfold w'. cbn [set_files w_files]. by rewrite lookup_insert_eq. }
  split.
  - erewrite run_load_cache_present; [|done|exact Hf].
    cbn [fst]. f_equal. by apply load_saved_entries.
  - eexists _, _. split; [by apply run_save_cache|].
    cbn [set_files w_files]. unfold w'. cbn [set_files w_files].
    by rewrite insert_insert_eq, sorted_set_idem.
Qed.

Lemma loaded_cache_round_trip_witness :
  ∃ w' tr,
    run (save_cache [str "/m/b.mp3"; str "/m/a.mp3"]) padded_cache_world
    = (Ok tt, w', tr)
    ∧ (run load_cache w').1.1
      = Ok (sorted_set [str "/m/b.mp3"; str "/m/a.mp3"])
    ∧ ∃ w'' tr',
        run (save_cache (sorted_set [str "/m/b.mp3"; str "/m/a.mp3"])) w'
        = (Ok tt, w'', tr')
        ∧ w_files w'' = w_files w'.
Proof.
  apply (loaded_cache_round_trip padded_cache_world padded_cache_world
           [str "/m/b.mp3"; str "/m/a.mp3"]
           [OsPathExists cache_file; ReadText cache_file]).
  - vm_compute. reflexivity.
  - reflexivity.
  - reflexivity.
  - reflexivity.
  - reflexivity.
Defined.

(** ** The containment check, entry by entry *)


(** X6: the containment check goes through the entries in order: on a
    list [a ++ b] it gives what it gives on [a], unless that is [False]; then
    it gives what it gives on [b]. *)
Theorem is_in_cache_app (w : World) (p : pystr) (a b : list pystr) :
  (run (is_in_cache p (a ++ b)) w).1.1
  = match (run (is_in_cache p a) w).1.1 with
    | Ok false => (run (is_in_cache p b) w).1.1
    | r => r
    end.
Proof.
  induction a as [|e a IH]; [done|].
  cbn [app]. rewrite !run_is_in_cache_cons.
  destruct (run (is_in_cache p (a ++ b)) w) as [[r w'] tr].
  destruct (run (is_in_cache p a) w) as [[ra wa] tra].
  cbn in IH. subst r.
  destruct (w_isdir w e).
  - destruct (commonpath [p; e]) as [x|c]; [done|]. by destruct (str_eqb c e).
  - by destruct (str_eqb p e).
Qed.

(** X7: when no entry is a directory, the containment check never raises
    and is plain membership of the path in the list. *)
Theorem is_in_cache_of_files (w : World) (p : pystr) (es : list pystr) :
  Forall (λ e, w_isdir w e = false) es →
  (run (is_in_cache p es) w).1.1 = Ok (bool_decide (p ∈ es)).
Proof.
  induction 1 as [|e es He _ IH]; [done|].
  rewrite run_is_in_cache_cons, He.
  destruct (run (is_in_cache p es) w) as [[r w'] tr]. cbn in IH. subst r.
  unfold str_eqb. case_bool_decide as Hpe; cbn.
  - subst e. rewrite bool_decide_true; [done|by left].
  - f_equal. apply bool_decide_ext. rewrite elem_of_cons.
    split; [auto|]. by intros [?|?].
Qed.

Lemma is_in_cache_of_files_witness :
  (run (is_in_cache (str "/music/a.mp3") (w_cache_entries cached_world))
     cached_world).1.1
  = Ok (bool_decide (str "/music/a.mp3" ∈ w_cache_entries cached_world)).
Proof.
  apply (is_in_cache_of_files cached_world (str "/music/a.mp3")).
  by repeat constructor.
Defined.

(** X8: the containment check raises exactly when it comes to a directory
    entry that is absolute where the path is relative, or the reverse, with
    no match before it; the exception is the [ValueError] of
    [os.path.commonpath]. *)
Theorem is_in_cache_raises_iff (w : World) (p : pystr) (es : list pystr)
    (x : exn) :
  (run (is_in_cache p es) w).1.1 = Raised x ↔
  x = ValueError "Can't mix absolute and relative paths"
  ∧ ∃ pre d post,
      es = pre ++ d :: post
      ∧ entry_raises (w_isdir w) p d
      ∧ (run (is_in_cache p pre) w).1.1 = Ok false.
Proof.
  induction es as [|e rest IH].
  - split; [done|]. intros (_ & pre & d & post & H & _). by destruct pre.
  - rewrite run_is_in_cache_cons.
    destruct (run (is_in_cache p rest) w) as [[r w'] tr] eqn:Hrest.
    cbn in IH. unfold entry_raises.
    destruct (w_isdir w e) eqn:Hd.
    + rewrite commonpath_two. case_bool_decide as Habs.
      * destruct (str_eqb _ e) eqn:Heq; cbn.
        -- split; [done|]. intros (_ & pre & d & post & Hes & Hr & Hpre).
           destruct pre as [|e' pre]; cbn in Hes; simplify_eq.
           ++ destruct Hr as [_ Hr]. congruence.
           ++ rewrite run_is_in_cache_cons, Hd, commonpath_two,
                bool_decide_true, Heq in Hpre by done. done.
        -- rewrite IH. split.
           ++ intros (-> & pre & d & post & -> & Hr & Hpre). split; [done|].
              exists (e :: pre), d, post. split; [done|]. split; [done|].
              rewrite run_is_in_cache_cons, Hd, commonpath_two,
                bool_decide_true, Heq by done.
              by destruct (run (is_in_cache p pre) w) as [[? ?] ?].
           ++ intros (-> & pre & d & post & Hes & Hr & Hpre). split; [done|].
              destruct pre as [|e' pre]; cbn in Hes; simplify_eq.
              { destruct Hr as [_ Hr]. congruence. }
              exists pre, d, post. split; [done|]. split; [done|].
              rewrite run_is_in_cache_cons, Hd, commonpath_two,
                bool_decide_true, Heq in Hpre by done.
              by destruct (run (is_in_cache p pre) w) as [[? ?] ?].
      * cbn. split.
        -- intros [= <-]. split; [done|]. exists [], e, rest.
           split; [done|]. split; [|done]. split; [done|congruence].
        -- by intros (-> & _).
    + destruct (str_eqb p e) eqn:Heq; cbn.
      * split; [done|]. intros (_ & pre & d & post & Hes & Hr & Hpre).
        destruct pre as [|e' pre]; cbn in Hes; simplify_eq.
        -- destruct Hr as [Hr _]. congruence.
        -- by rewrite run_is_in_cache_cons, Hd, Heq in Hpre.
      * rewrite IH. split.
        -- intros (-> & pre & d & post & -> & Hr & Hpre). split; [done|].
           exists (e :: pre), d, post. split; [done|]. split; [done|].
           rewrite run_is_in_cache_cons, Hd, Heq.
           by destruct (run (is_in_cache p pre) w) as [[? ?] ?].
        -- intros (-> & pre & d & post & Hes & Hr & Hpre). split; [done|].
           destruct pre as [|e' pre]; cbn in Hes; simplify_eq.
           { destruct Hr as [Hr _]. congruence. }
           exists pre, d, post. split; [done|]. split; [done|].
           rewrite run_is_in_cache_cons, Hd, Heq in Hpre.
           by destruct (run (is_in_cache p pre) w) as [[? ?] ?].
Qed.

(** ** The outcomes of one file *)

Lemma get_lyrics_result w ar t al d :
  (run (get_lyrics ar t al d) w).1.1
  = Ok (lyrics_of_response
          (w_lrclib w (w_requests w) (lookup_params ar t al d))).
Proof. by destruct (run_get_lyrics w ar t al d) as (logs & -> & _). Qed.

(** X9: [get_lyrics] never raises and never blocks: it sends exactly one
    request, with the four parameters it was given, and apart from the
    request it only logs. *)
Theorem get_lyrics_always_returns (w : World) (ar t al : option pystr) (d : Z) :
  ∃ v tr,
    run (get_lyrics ar t al d) w
    = (Ok v, set_requests (S (w_requests w)) w, tr)
    ∧ filter (λ o, is_lookup o = true) tr
      = [ClientGet lrclib_url (lookup_params ar t al d)]
    ∧ Forall (λ o, is_lookup o = true ∨ is_log o) tr.
Proof.
  destruct (run_get_lyrics w ar t al d) as (logs & -> & Hlogs).
  eexists _, _. split; [done|]. split.
  - rewrite filter_cons_True by done. f_equal.
    induction Hlogs as [|o logs (l & f & ->) _ IH]; [done|].
    by rewrite filter_cons_False.
  - constructor; [by left|]. eapply Forall_impl; [exact Hlogs|]. auto.
Qed.

(** X10: on a 200 answer whose [syncedLyrics] is truthy, [get_lyrics]
    returns that value, whatever [plainLyrics] holds. *)
Theorem synced_lyrics_preferred (w : World) (ar t al : option pystr) (d : Z)
    (resp : Response) (members : list (pystr * json)) (synced : json) :
  w_lrclib w (w_requests w) (lookup_params ar t al d) = inr resp →
  status_code resp = 200%Z →
  json_body resp = inr (JObj members) →
  dict_lookup (str "syncedLyrics") members = Some synced →
  truthy synced = true →
  (run (get_lyrics ar t al d) w).1.1 = Ok (Some synced).
Proof.
  intros Hr Hs Hb Hl Ht. rewrite get_lyrics_result, Hr. cbn.
  by rewrite Hs, Hb, Hl; cbn; rewrite Ht.
Qed.

Lemma synced_lyrics_preferred_witness :
  (run (get_lyrics (Some (str "The Kinks")) (Some (str "Waterloo Sunset"))
          (Some (str "Something Else")) 211)
     (song_world (inr waterloo_sunset) (inr both_answer))).1.1
  = Ok (Some (JStr (str "[00:12.00] Dirty old river"))).
Proof.
  apply (synced_lyrics_preferred
           (song_world (inr waterloo_sunset) (inr both_answer))
           _ _ _ _ both_answer
           [(str "plainLyrics", JStr (str "Dirty old river"));
            (str "syncedLyrics", JStr (str "[00:12.00] Dirty old river"))]);
    vm_compute; reflexivity.
Defined.

(** X11: when [get_song_details] raises ([TinyTag.get] fails, or the tag
    has no duration and [int] raises [TypeError]), the file ends with
    ["error"] carrying that exception; nothing is looked up or written, the
    semaphore is not taken, and the loop counts the file as missing. *)
Theorem extraction_failure_is_error (w : World) (p : pystr) (e : exn) :
  (run (is_in_cache p (w_cache_entries w)) w).1.1 = Ok false →
  path_exists w (lrc_path p) = false →
  (run (get_song_details p) w).1.1 = Raised e →
  (∃ tr, run (process_file p) w = (Ok (error p e), w, tr)
         ∧ Forall (λ o, is_lookup o = false ∧ is_write o = false
                        ∧ o ≠ SemAcquire) tr)
  ∧ (w_tinytag w p = inl e
     ∨ ∃ audio, w_tinytag w p = inr audio ∧ duration audio = None
                ∧ e = TypeError
                      "int() argument must be a real number, not 'NoneType'")
  ∧ ∀ c, ∃ tr,
      run (loop_body (error p e) c) w
      = (Ok {| Found_lyrics := Found_lyrics c;
               Missing_lyrics := Missing_lyrics c + 1 |}, w, tr).
Proof.
  intros Hc Hex Hd.
  apply is_in_cache_run_inv in Hc as (tr & Hc & Htr).
  assert (Forall (λ o, is_lookup o = false ∧ is_write o = false
                       ∧ o ≠ SemAcquire)
            (CacheEntriesRead :: tr
               ++ [OsPathExists (lrc_path p); TinyTagGet p])) as Hops.
  { constructor; [done|]. apply Forall_app. split; [|by repeat constructor].
    eapply Forall_impl; [exact Htr|]. by intros o [x ->]. }
  rewrite run_get_song_details in Hd. cbn in Hd.
  rewrite run_process_file_check, Hc, Hex.
  split; [|split].
  - destruct (w_tinytag w p) as [e'|audio]; [simplify_eq; eauto|].
    destruct (duration audio); simplify_eq. eauto.
  - destruct (w_tinytag w p) as [e'|audio]; [simplify_eq; eauto|].
    destruct (duration audio) eqn:Hdur; simplify_eq. right. eauto.
  - intros c. by eexists.
Qed.

Lemma extraction_failure_is_error_witness :
  ∃ tr,
    run (process_file song_path)
      (song_world (inl (TinyTagException "no tag")) (inr synced_answer))
    = (Ok (error song_path (TinyTagException "no tag")),
       song_world (inl (TinyTagException "no tag")) (inr synced_answer), tr)
    ∧ Forall (λ o, is_lookup o = false ∧ is_write o = false
                   ∧ o ≠ SemAcquire) tr.
Proof.
  destruct (extraction_failure_is_error
              (song_world (inl (TinyTagException "no tag"))
                 (inr synced_answer))
              song_path (TinyTagException "no tag")) as (H & _).
  - vm_compute. reflexivity.
  - vm_compute. reflexivity.
  - vm_compute. reflexivity.
  - exact H.
Defined.

Lemma run_process_file_lookup_trace w p al t ar d :
  reaches_lookup w p al t ar d →
  ∃ pre logs,
    Forall (λ o, is_lookup o = false ∧ is_write o = false) pre
    ∧ Forall is_log logs
    ∧ run (process_file p) w =
        let '(r, w', tr) :=
          run (write_stage p
                 (lyrics_of_response
                    (w_lrclib w (w_requests w) (lookup_params ar t al d))))
            (set_requests (S (w_requests w)) w) in
        (r, w',
         pre ++ SemAcquire :: ClientGet lrclib_url (lookup_params ar t al d)
           :: logs ++ SemRelease :: tr).
Proof.
  intros (Hc & Hex & Hd & Har & Ht & Hsem).
  apply is_in_cache_run_inv in Hc as (tr & Hc & Htr).
  apply get_song_details_Ok_inv in Hd
    as (audio & x & Htag & Hdur & -> & -> & -> & ->).
  destruct (w_sem w) as [|n] eqn:Hn; [lia|].
  destruct (run_lookup_stage w p (album audio) (title audio) (artist audio)
              (int_of_float x) n Hn) as (logs & Hlogs & Hrun).
  exists (CacheEntriesRead :: tr ++ [OsPathExists (lrc_path p); TinyTagGet p]),
    logs.
  split; [|split; [done|]].
  { constructor; [done|]. apply Forall_app. split; [|by repeat constructor].
    eapply Forall_impl; [exact Htr|]. by intros o [e ->]. }
  rewrite run_process_file_check, Hc, Hex, Htag, Hdur, Har, Ht. cbn [orb].
  rewrite Hrun. destruct (run (write_stage _ _) _) as [[r w'] tr'].
  reflexivity.
Qed.

Lemma filter_lookup_trace pre logs tr o :
  Forall (λ o, is_lookup o = false ∧ is_write o = false) pre →
  Forall is_log logs →
  is_lookup o = true →
  Forall (λ o, is_lookup o = false) tr →
  filter (λ o, is_lookup o = true)
    (pre ++ SemAcquire :: o :: logs ++ SemRelease :: tr) = [o].
Proof.
  intros Hpre Hlogs Ho Htr.
  assert (∀ l, Forall (λ o, is_lookup o = false) l →
               filter (λ o, is_lookup o = true) l = []) as Hnil.
  { induction 1 as [|x l Hx _ IH]; [done|].
    rewrite filter_cons_False; [done|congruence]. }
  assert (Forall (λ o, is_lookup o = false) pre) as Hpre'.
  { eapply Forall_impl; [exact Hpre|]. by intros ? [? ?]. }
  assert (Forall (λ o, is_lookup o = false) logs) as Hlogs'.
  { eapply Forall_impl; [exact Hlogs|]. by intros ? (l & f & ->). }
  rewrite filter_app, (Hnil pre) by done. cbn [app].
  rewrite filter_cons_False by done. rewrite filter_cons_True by done.
  rewrite filter_app, (Hnil logs) by done. cbn [app].
  rewrite filter_cons_False by done. by rewrite (Hnil tr).
Qed.

Lemma filter_write_trace pre logs tr o :
  Forall (λ o, is_lookup o = false ∧ is_write o = false) pre →
  Forall is_log logs →
  is_lookup o = true →
  filter (λ o, is_write o = true)
    (pre ++ SemAcquire :: o :: logs ++ SemRelease :: tr)
  = filter (λ o, is_write o = true) tr.
Proof.
  intros Hpre Hlogs Ho.
  assert (∀ l, Forall (λ o, is_write o = false) l →
               filter (λ o, is_write o = true) l = []) as Hnil.
  { induction 1 as [|x l Hx _ IH]; [done|].
    rewrite filter_cons_False; [done|congruence]. }
  assert (Forall (λ o, is_write o = false) pre) as Hpre'.
  { eapply Forall_impl; [exact Hpre|]. by intros ? [? ?]. }
  assert (Forall (λ o, is_write o = false) logs) as Hlogs'.
  { eapply Forall_impl; [exact Hlogs|]. by intros ? (l & f & ->). }
  rewrite filter_app, (Hnil pre) by done. cbn [app].
  rewrite filter_cons_False by done.
  rewrite filter_cons_False by (by destruct o).
  rewrite filter_app, (Hnil logs) by done. cbn [app].
  by rewrite filter_cons_False.
Qed.

(** X12: when the lookup gives a string and the lyrics file can be opened
    and written, the file ends with ["found"], the lyrics file holds exactly
    that string, one request has been sent, and the only writes are the
    opening and the writing of the lyrics file. *)
Theorem found_writes_lyrics (w : World) (p : pystr)
    (al t ar : option pystr) (d : Z) (s : pystr) :
  reaches_lookup w p al t ar d →
  (run (get_lyrics ar t al d) w).1.1 = Ok (Some (JStr s)) →
  w_isdir w (lrc_path p) = false →
  w_open_error w (lrc_path p) = None →
  w_write_error w (lrc_path p) s = None →
  ∃ tr,
    run (process_file p) w
    = (Ok (found p),
       set_files (<[lrc_path p := s]> (w_files w))
         (set_requests (S (w_requests w)) w), tr)
    ∧ filter (λ o, is_lookup o = true) tr
      = [ClientGet lrclib_url (lookup_params ar t al d)]
    ∧ filter (λ o, is_write o = true) tr
      = [OpenWrite (lrc_path p); FileWrite (lrc_path p) s].
Proof.
  intros Hreach Hl Hd Ho Hw. rewrite get_lyrics_result in Hl.
  injection Hl as Hl.
  destruct (run_process_file_lookup_trace w p al t ar d Hreach)
    as (pre & logs & Hpre & Hlogs & ->).
  rewrite Hl, run_write_stage_some.
  cbn [set_requests w_open_error w_isdir w_write_error w_files].
  rewrite Ho, Hd, Hw.
  eexists. split; [reflexivity|]. split.
  - apply filter_lookup_trace; try done. by repeat constructor.
  - by rewrite filter_write_trace.
Qed.

Lemma found_writes_lyrics_witness :
  ∃ tr,
    run (process_file song_path) found_world
    = (Ok (found song_path),
       set_files (<[lrc_path song_path := str "[00:12.00] Dirty old river"]>
                    (w_files found_world))
         (set_requests (S (w_requests found_world)) found_world), tr)
    ∧ filter (λ o, is_lookup o = true) tr = [ClientGet lrclib_url kinks_params]
    ∧ filter (λ o, is_write o = true) tr
      = [OpenWrite (lrc_path song_path);
         FileWrite (lrc_path song_path) (str "[00:12.00] Dirty old river")].
Proof.
  apply (found_writes_lyrics found_world song_path
           (Some (str "Something Else")) (Some (str "Waterloo Sunset"))
           (Some (str "The Kinks")) 211 (str "[00:12.00] Dirty old river")).
  - repeat split; try (vm_compute; reflexivity).
    unfold found_world, song_world, MAX_CONCURRENCY; simpl; lia.
  - vm_compute. reflexivity.
  - reflexivity.
  - reflexivity.
  - reflexivity.
Defined.



(** ** The results of a run *)

Lemma run_loop_body_counters result c w :
  (run (loop_body result c) w).1.1
  = Ok {| Found_lyrics :=
            Found_lyrics c + (if counts_found result then 1 else 0);
          Missing_lyrics :=
            Missing_lyrics c + (if counts_missing result then 1 else 0) |}.
Proof.
  destruct result, c; cbn; by rewrite ?Nat.add_0_r.
Qed.

Lemma step_of_Ret result w c t' w' c' ops :
  step_of (Pending (Ret result)) w c = Some (t', w', c', ops) →
  t' = Consumed result
  ∧ c' = {| Found_lyrics :=
              Found_lyrics c + (if counts_found result then 1 else 0);
            Missing_lyrics :=
              Missing_lyrics c + (if counts_missing result then 1 else 0) |}
  ∧ w' = (if is_appended result
          then set_cache_entries
                 (w_cache_entries w ++ [outcome_path result]) w
          else w).
Proof.
  cbn. pose proof (run_loop_body_counters result c w) as Hc.
  destruct (run_loop_body result c w) as (c'' & tr & Hrun).
  rewrite Hrun in Hc |- *. cbn in Hc. intros ?; simplify_eq.
  by destruct result.
Qed.

(** A property of the tasks that every step of a task keeps holds in every
    state of a run. *)
Lemma tasks_inv_reachable (P : pystr → Task → Prop) w files s :
  (∀ p, P p (Pending (process_file p))) →
  (∀ p t w c t' w' c' ops,
     P p t → step_of t w c = Some (t', w', c', ops) → P p t') →
  rtc sys_step (initial_sys w files) s →
  Forall2 P files (sys_tasks s).
Proof.
  intros Hinit Hstep. revert s. apply rtc_ind_r.
  - cbn. apply Forall2_fmap_r, Forall_Forall2_diag, Forall_forall. auto.
  - intros s s' _ [i Hs] IH.
    apply task_step_inv in Hs as (t & t' & w' & c' & ops & Ht & Hs & ->).
    cbn [sys_tasks].
    destruct (Forall2_lookup_r _ _ _ _ _ IH Ht) as (p & Hp & HP).
    rewrite <- (list_insert_id files i p) by done.
    apply Forall2_insert; [done|]. eauto.
Qed.

Lemma task_inv_step (Q : pystr → prog Outcome → Prop)
    (R : pystr → Outcome → Prop) :
  (∀ p o k r, Q p (Vis o k) → Q p (k r)) →
  (∀ p out, Q p (Ret out) → R p out) →
  ∀ p t w c t' w' c' ops,
    task_inv Q R p t → step_of t w c = Some (t', w', c', ops) →
    task_inv Q R p t'.
Proof.
  intros HQ HR p t w c t' w' c' ops Ht Hs.
  apply step_of_inv in Hs
    as [(o & k & r & -> & _ & -> & _)|(result & -> & -> & _)]; cbn in *; eauto.
Qed.

Lemma process_file_own_path p :
  ensures (λ out, outcome_path out = p) (process_file p).
Proof.
  rewrite process_file_post_check. cbn [ensures]. intros ce.
  eapply ensures_bind; [apply ensures_any|]. intros hit _.
  unfold post_check. destruct hit; [done|].
  unfold_monad. cbn [perform bind ensures]. intros present.
  destruct present; [done|].
  eapply (ensures_bind
            (λ x, match x with inl out => outcome_path out = p | inr _ => True end)).
  - apply ensures_try; [|done].
    eapply ensures_bind; [apply ensures_any|].
    intros [[[al t] ar] d] _. by destruct (falsy_str ar || falsy_str t).
  - intros [out|[[[al t] ar] d]] H; [done|].
    unfold lookup_stage. unfold_monad.
    eapply ensures_bind; [apply ensures_any|].
    intros lyrics _. destruct lyrics as [v|]; [|done]. unfold write_stage.
    apply ensures_try; [|done].
    unfold_monad. eapply ensures_bind; [apply ensures_any|done].
Qed.

Lemma filter_insert_length {A} (f : A → bool) (l : list A) (i : nat) (x y : A) :
  l !! i = Some x →
  (length (filter (λ a, f a = true) (<[i := y]> l)) + (if f x then 1 else 0)
   = length (filter (λ a, f a = true) l) + (if f y then 1 else 0))%nat.
Proof.
  revert i. induction l as [|a l IH]; intros [|i] Hi; simplify_eq/=.
  - rewrite !filter_cons.
    destruct (f x), (f y); repeat case_decide; simpl; try done; lia.
  - specialize (IH i Hi). rewrite !filter_cons.
    case_decide; simpl; lia.
Qed.

Lemma omap_insert_fresh {A B} (f : A → option B) (l : list A) (i : nat)
    (x y : A) :
  l !! i = Some x → f x = None →
  omap f (<[i := y]> l) ≡ₚ option_list (f y) ++ omap f l.
Proof.
  revert i. induction l as [|a l IH]; intros [|i] Hi Hx; simplify_eq/=.
  - rewrite ?Hx. by destruct (f y).
  - destruct (f a) as [b|]; rewrite (IH i Hi Hx); [|done].
    destruct (f y); cbn; [apply Permutation_swap|done].
Qed.

Lemma loop_inv_step w0 s s' :
  sem_inv s → loop_inv w0 s → sys_step s s' → loop_inv w0 s'.
Proof.
  intros (hs & Hts & _) (Hf & Hm & extra & Hentries & Hextra) [i Hstep].
  apply task_step_inv in Hstep
    as (t & t' & w' & c' & ops & Ht & Hstep & ->).
  destruct (Forall2_lookup_l _ _ _ _ _ Hts Ht) as (h & Hi & Hok).
  unfold loop_inv. cbn [sys_world sys_tasks sys_counters].
  destruct t as [[result|e|o k]|]; try done.
  - apply step_of_Ret in Hstep as (-> & -> & ->). cbn [Found_lyrics Missing_lyrics].
    pose proof (filter_insert_length
                  (λ t, match t with
                        | Consumed out => counts_found out
                        | Pending _ => false
                        end) (sys_tasks s) i _ (Consumed result) Ht) as H1.
    pose proof (filter_insert_length
                  (λ t, match t with
                        | Consumed out => counts_missing out
                        | Pending _ => false
                        end) (sys_tasks s) i _ (Consumed result) Ht) as H2.
    cbn beta iota in H1, H2.
    split; [lia|]. split; [lia|].
    exists (extra ++ (if is_appended result then [outcome_path result] else [])).
    split.
    + destruct (is_appended result); cbn.
      * by rewrite Hentries, <- app_assoc.
      * by rewrite app_nil_r.
    + rewrite (omap_insert_fresh _ _ _ _ _ Ht) by done. cbn beta iota.
      rewrite <- Hextra. rewrite (Permutation_app_comm extra).
      by destruct (is_appended result).
  - apply step_of_inv in Hstep
      as [(o' & k' & r & Heq & Hh & -> & -> & ->)|(result & ? & _)];
      [|done].
    injection Heq as <-. destruct Hok as [Ho _].
    destruct (handle_allowed_preserves _ _ _ _ _ Hh Ho) as [_ Hce].
    pose proof (filter_insert_length
                  (λ t, match t with
                        | Consumed out => counts_found out
                        | Pending _ => false
                        end) (sys_tasks s) i _ (Pending (k' r)) Ht) as H1.
    pose proof (filter_insert_length
                  (λ t, match t with
                        | Consumed out => counts_missing out
                        | Pending _ => false
                        end) (sys_tasks s) i _ (Pending (k' r)) Ht) as H2.
    cbn beta iota in H1, H2.
    split; [lia|]. split; [lia|].
    exists extra. split; [by rewrite Hce|].
    by rewrite (omap_insert_fresh _ _ _ _ _ Ht).
Qed.

Lemma loop_inv_reachable w files s :
  rtc sys_step (initial_sys w files) s → loop_inv w s.
Proof.
  intros Hreach.
  cut (sem_inv s ∧ loop_inv w s); [by intros [_ ?]|].
  revert s Hreach. apply rtc_ind_r.
  - split; [apply sem_inv_initial|].
    unfold loop_inv.
    cbn [initial_sys sys_world sys_tasks sys_counters Found_lyrics
           Missing_lyrics w_cache_entries set_sem].
    assert (∀ f : Task → bool,
              (∀ q, f (Pending q) = false) →
              filter (λ t, f t = true)
                (map (λ fp, Pending (process_file fp)) files) = []) as Hnil.
    { intros f Hf. induction files as [|p ps IH]; [done|].
      cbn [map]. rewrite filter_cons_False; [done|]. by rewrite Hf. }
    rewrite !Hnil by done. split; [done|]. split; [done|].
    exists []. split; [by rewrite app_nil_r|].
    clear Hnil. induction files as [|p ps IH]; [reflexivity|exact IH].
  - intros s s' _ Hstep [Hsem Hloop].
    split; [by eapply sem_inv_step|by eapply loop_inv_step].
Qed.

Lemma run_load_cache_world w : (run load_cache w).1.2 = w.
Proof.
  unfold load_cache. unfold_monad. cbn [perform bind run handle].
  destruct (path_exists w cache_file); [|done].
  cbn [perform bind run handle].
  destruct (w_read_error w cache_file); [done|].
  by destruct (w_files w !! cache_file).
Qed.

Lemma run_collect_audio_files w top :
  run (collect_audio_files top) w
  = (Ok (concat (map (λ '(root, files),
                   map (path_join root)
                     (filter (λ file,
                        existsb (endswith file) audio_suffixes = true) files))
                (w_walk w top))), w, [OsWalk top]).
Proof. reflexivity. Qed.

Lemma run_main_setup_Ok w files w0 tr :
  run main_setup w = (Ok files, w0, tr) →
  (run (collect_audio_files directory_path) w).1.1 = Ok files
  ∧ (run load_cache w).1.1 = Ok (w_cache_entries w0)
  ∧ w0 = set_cache_entries (w_cache_entries w0) w.
Proof.
  unfold main_setup, logging_info. unfold_monad.
  cbn [perform bind run handle]. rewrite run_bind, run_collect_audio_files.
  cbn [perform bind run handle]. rewrite run_bind.
  pose proof (run_load_cache_world w) as Hw.
  destruct (run load_cache w) as [[[loaded|e|] w1] tr1]; cbn in *; try done.
  subst w1. by intros [= <- <- <-].
Qed.

Lemma filter_Consumed (f : Outcome → bool) results :
  length (filter (λ t, match t with
                       | Consumed out => f out
                       | Pending _ => false
                       end = true) (map Consumed results))
  = length (filter (λ out, f out = true) results).
Proof.
  induction results as [|r rs IH]; [done|].
  cbn [map]. rewrite !filter_cons.
  destruct (decide (f r = true)); cbn; by rewrite IH.
Qed.

Lemma omap_Consumed results :
  omap (λ t, match t with
             | Consumed out =>
                 if is_appended out then Some (outcome_path out) else None
             | Pending _ => None
             end) (map Consumed results)
  = outcome_path <$> filter (λ out, is_appended out = true) results.
Proof.
  induction results as [|r rs IH]; [done|].
  cbn [map]. rewrite filter_cons.
  destruct r; cbn [is_appended]; case_decide; try done;
    first [exact IH | cbn; f_equal; exact IH].
Qed.

Lemma own_path_reachable w files s :
  rtc sys_step (initial_sys w files) s →
  Forall2 (task_inv (λ p q, ensures (λ out, outcome_path out = p) q)
             (λ p out, outcome_path out = p)) files (sys_tasks s).
Proof.
  apply tasks_inv_reachable; [apply process_file_own_path|].
  apply task_inv_step; [|done]. intros p o k r H. apply H.
Qed.

(** X14: a completed run has one result per discovered file, in the order
    of discovery, each about its own file; [Found_lyrics] is the number of
    ["found"] results and [Missing_lyrics] the number of ["missing"] and
    ["error"] results. *)
Theorem results_and_counters (w wf : World) (c : Counters)
    (results : list Outcome) :
  main_async w (Completed wf c results) →
  (run (collect_audio_files directory_path) w).1.1
  = Ok (map outcome_path results)
  ∧ Found_lyrics c = length (filter (λ out, counts_found out = true) results)
  ∧ Missing_lyrics c
    = length (filter (λ out, counts_missing out = true) results)
  ∧ (Found_lyrics c + Missing_lyrics c ≤ length results)%nat.
Proof.
  inversion 1 as [| | |files w0 tr s res w' tr' Hsetup Hreach Hts Hfin]; subst.
  apply run_main_setup_Ok in Hsetup as (Hfiles & _ & _).
  destruct (loop_inv_reachable _ _ _ Hreach) as (Hf & Hm & _).
  rewrite Hts, filter_Consumed in Hf, Hm.
  assert (map outcome_path results = files) as Hpaths.
  { pose proof (own_path_reachable _ _ _ Hreach) as Hall.
    rewrite Hts in Hall. clear -Hall.
    revert files Hall. induction results as [|r rs IH]; intros files Hall.
    - by inversion Hall.
    - inversion Hall as [|p ? ps ? Hp Hrest]; subst. cbn in Hp.
      cbn. by rewrite Hp, (IH ps). }
  split; [by rewrite Hpaths|]. split; [done|]. split; [done|].
  rewrite Hf, Hm. clear. induction results as [|r rs IH]; [done|].
  rewrite !filter_cons. destruct r; cbn; repeat case_decide; cbn; try done; lia.
Qed.

Lemma results_and_counters_witness :
  (run (collect_audio_files directory_path) found_world).1.1
  = Ok (map outcome_path [found song_path])
  ∧ Found_lyrics (final_counters found_run1)
    = length (filter (λ out, counts_found out = true) [found song_path])
  ∧ Missing_lyrics (final_counters found_run1)
    = length (filter (λ out, counts_missing out = true) [found song_path])
  ∧ (Found_lyrics (final_counters found_run1)
     + Missing_lyrics (final_counters found_run1)
     ≤ length [found song_path])%nat.
Proof.
  apply (results_and_counters found_world (final_world found_run1)
           (final_counters found_run1) [found song_path]).
  apply main_async_along_completed with (replicate 10 0%nat).
  vm_compute. reflexivity.
Defined.

(** X15: when a run completes, [cache_entries] is the loaded list followed
    by one entry for each ["found"] or ["already_exists"] result and nothing
    else, and the cache file holds these entries sorted and without
    duplicates. *)
Theorem saved_cache_contents (w wf : World) (c : Counters)
    (results : list Outcome) :
  main_async w (Completed wf c results) →
  ∃ loaded extra,
    (run load_cache w).1.1 = Ok loaded
    ∧ w_cache_entries wf = loaded ++ extra
    ∧ extra ≡ₚ outcome_path <$> filter (λ out, is_appended out = true) results
    ∧ w_files wf !! cache_file
      = Some (cache_text (sorted_set (loaded ++ extra))).
Proof.
  inversion 1 as [| | |files w0 tr s res w' tr' Hsetup Hreach Hts Hfin]; subst.
  apply run_main_setup_Ok in Hsetup as (_ & Hload & _).
  destruct (loop_inv_reachable _ _ _ Hreach) as (_ & _ & extra & He & Hp).
  apply run_main_finish_Ok in Hfin. subst wf.
  exists (w_cache_entries w0), extra.
  split; [done|]. cbn [set_files w_cache_entries w_files].
  split; [done|]. split; [by rewrite Hp, Hts, omap_Consumed|].
  by rewrite lookup_insert_eq, He.
Qed.

Lemma saved_cache_contents_witness :
  ∃ loaded extra,
    (run load_cache found_world).1.1 = Ok loaded
    ∧ w_cache_entries (final_world found_run1) = loaded ++ extra
    ∧ extra ≡ₚ outcome_path <$>
               filter (λ out, is_appended out = true) [found song_path]
    ∧ w_files (final_world found_run1) !! cache_file
      = Some (cache_text (sorted_set (loaded ++ extra))).
Proof.
  apply (saved_cache_contents found_world (final_world found_run1)
           (final_counters found_run1) [found song_path]).
  apply main_async_along_completed with (replicate 10 0%nat).
  vm_compute. reflexivity.
Defined.

(** ** What a run writes *)

Lemma all_ops_bind {A B} (Q : op → Prop) (p : prog A) (f : A → prog B) :
  all_ops Q p → (∀ a, all_ops Q (f a)) → all_ops Q (bind p f).
Proof.
  intros Hp Hf. induction p as [a|e|o k IH]; cbn in *; [auto|done|].
  destruct Hp as [Ho Hk]. split; [done|]. intros r. by apply IH.
Qed.

Lemma all_ops_try {A} (Q : op → Prop) (p : prog A) (h : exn → prog A) :
  all_ops Q p → (∀ e, all_ops Q (h e)) → all_ops Q (try_except p h).
Proof.
  intros Hp Hh. induction p as [a|e|o k IH]; cbn in *; [done|auto|].
  destruct Hp as [Ho Hk]. split; [done|]. intros r. by apply IH.
Qed.

Lemma all_ops_lift {A} (Q : op → Prop) (r : exn + A) : all_ops Q (lift r).
Proof. by destruct r. Qed.

Lemma all_ops_impl {A} (Q Q' : op → Prop) (p : prog A) :
  (∀ o, Q o → Q' o) → all_ops Q p → all_ops Q' p.
Proof.
  intros HQ. induction p as [a|e|o k IH]; cbn; [done|done|].
  intros [Ho Hk]. split; [auto|]. intros r. by apply IH.
Qed.

Lemma all_ops_is_in_cache p es :
  all_ops (λ o, write_target o = None) (is_in_cache p es).
Proof.
  induction es as [|e rest IH]; [done|].
  cbn [is_in_cache]. unfold_monad. cbn [perform bind all_ops].
  split; [done|]. intros d. destruct d.
  - apply all_ops_bind; [apply all_ops_lift|]. intros c.
    by destruct (str_eqb c e).
  - by destruct (str_eqb p e).
Qed.

Lemma all_ops_get_lyrics ar t al d :
  all_ops (λ o, write_target o = None) (get_lyrics ar t al d).
Proof.
  unfold get_lyrics, logging_info, logging_error. unfold_monad.
  apply all_ops_bind.
  - apply all_ops_try; [|done]. cbn [perform bind all_ops].
    split; [done|]. intros r.
    apply all_ops_bind; [apply all_ops_lift|]. intros resp.
    destruct (status_code resp =? 200)%Z; [|done].
    apply all_ops_bind; [apply all_ops_lift|]. intros data.
    apply all_ops_bind; [apply all_ops_lift|]. intros synced.
    apply all_ops_bind.
    + destruct (truthy synced); [done|apply all_ops_lift].
    + intros lyrics. by destruct (truthy lyrics).
  - intros [v|]; done.
Qed.

Lemma all_ops_process_file p :
  all_ops (writes_only (lrc_path p)) (process_file p).
Proof.
  assert (∀ A (q : prog A), all_ops (λ o, write_target o = None) q →
                            all_ops (writes_only (lrc_path p)) q) as Hnone.
  { intros A q. apply all_ops_impl. intros o Ho x. by rewrite Ho. }
  rewrite process_file_post_check. cbn [all_ops].
  split; [done|]. intros ce.
  apply all_ops_bind; [apply Hnone, all_ops_is_in_cache|]. intros hit.
  unfold post_check. destruct hit; [done|].
  unfold_monad. cbn [perform bind all_ops]. split; [done|]. intros present.
  destruct present; [done|].
  apply all_ops_bind.
  - apply all_ops_try; [|done]. apply all_ops_bind.
    + unfold get_song_details. unfold_monad. cbn [perform bind all_ops].
      split; [done|]. intros r.
      apply all_ops_bind; [apply all_ops_lift|]. intros audio.
      apply all_ops_bind; [by destruct (duration audio)|done].
    + intros [[[al t] ar] d]. by destruct (falsy_str ar || falsy_str t).
  - intros [out|[[[al t] ar] d]]; [done|].
    unfold lookup_stage, with_sem. unfold_monad.
    apply all_ops_bind.
    + cbn [perform bind all_ops]. split; [done|]. intros _.
      apply all_ops_bind.
      * apply all_ops_try; [apply Hnone, all_ops_get_lyrics|].
        intros e. cbn. split; [done|done].
      * intros r. cbn. split; [done|done].
    + intros [v|]; [|done]. unfold write_stage, write_text. unfold_monad.
      apply all_ops_try; [|done]. apply all_ops_bind; [|done].
      apply all_ops_bind.
      * cbn [perform bind all_ops]. split; [by intros x [= <-]|].
        intros r. apply all_ops_lift.
      * intros _. destruct v; try done.
        cbn [perform bind all_ops]. split; [by intros x [= <-]|].
        intros r. apply all_ops_lift.
Qed.

Lemma handle_files o w r w' x :
  handle o w = Some (r, w') →
  write_target o ≠ Some x →
  w_files w' !! x = w_files w !! x.
Proof.
  destruct o; cbn; intros H Hx; simplify_eq; try done.
  - destruct (w_read_error w p); [by simplify_eq|].
    destruct (w_files w !! p); by simplify_eq.
  - destruct (w_open_error w p); [by simplify_eq|].
    destruct (w_isdir w p); simplify_eq; [done|].
    cbn. apply lookup_insert_ne. congruence.
  - destruct (w_write_error w p data); simplify_eq; [done|].
    cbn. apply lookup_insert_ne. congruence.
  - destruct (w_sem w); by simplify_eq.
Qed.

Lemma writes_only_reachable w files s :
  rtc sys_step (initial_sys w files) s →
  Forall2 (task_inv (λ p q, all_ops (writes_only (lrc_path p)) q)
             (λ _ _, True)) files (sys_tasks s).
Proof.
  apply tasks_inv_reachable; [apply all_ops_process_file|].
  apply task_inv_step; [|done]. intros p o k r [_ H]. apply H.
Qed.

Lemma writes_reachable w files s :
  rtc sys_step (initial_sys w files) s →
  ∀ x, (∀ p, p ∈ files → x ≠ lrc_path p) →
       w_files (sys_world s) !! x = w_files w !! x.
Proof.
  intros Hreach x Hx. revert s Hreach. apply rtc_ind_r; [done|].
  intros s s' Hreach [i Hstep] IH. rewrite <- IH.
  pose proof (writes_only_reachable _ _ _ Hreach) as Hts.
  apply task_step_inv in Hstep as (t & t' & w' & c' & ops & Ht & Hs & ->).
  cbn [sys_world].
  apply step_of_inv in Hs
    as [(o & k & r & -> & Hh & -> & -> & ->)|(result & -> & -> & -> & ->)].
  - eapply handle_files; [exact Hh|]. intros Ho.
    destruct (Forall2_lookup_r _ _ _ _ _ Hts Ht) as (p & Hp & [Hw _]).
    apply (Hx p); [by eapply list_elem_of_lookup_2|]. by apply Hw.
  - by destruct result.
Qed.

Lemma run_files {A} (Q : op → Prop) (p : prog A) w x :
  all_ops Q p →
  (∀ o, Q o → write_target o ≠ Some x) →
  w_files (run p w).1.2 !! x = w_files w !! x.
Proof.
  intros Hp HQ. revert w. induction p as [a|e|o k IH]; intros w; cbn; try done.
  destruct Hp as [Ho Hk].
  destruct (handle o w) as [[r w']|] eqn:Hh; [|done].
  specialize (IH r (Hk r) w').
  destruct (run (k r) w') as [[res w''] tr]. cbn in *.
  rewrite IH. eapply handle_files; [exact Hh|]. by apply HQ.
Qed.

Lemma all_ops_main_setup :
  all_ops (λ o, write_target o = None) main_setup.
Proof.
  unfold main_setup, logging_info, collect_audio_files, load_cache.
  unfold_monad. cbn [perform bind all_ops].
  split; [done|]. intros _. split; [done|]. intros _.
  split; [done|]. intros walk. split; [done|]. intros present.
  destruct present; cbn [perform bind all_ops]; [|by split].
  split; [done|]. intros r. destruct r as [e|text]; cbn; [done|by split].
Qed.

Lemma all_ops_main_finish :
  all_ops (writes_only cache_file) main_finish.
Proof.
  unfold main_finish, logging_info, save_cache.
  unfold_monad. cbn [perform bind all_ops].
  split; [done|]. intros ce. split; [by intros x [= <-]|]. intros r.
  apply all_ops_bind.
  - apply all_ops_bind; [apply all_ops_lift|].
    intros _. induction (sorted_set ce) as [|item items IH]; [done|].
    cbn [for_each]. unfold_monad. apply all_ops_bind; [|done].
    cbn [perform bind all_ops]. split; [by intros x [= <-]|].
    intros r'. apply all_ops_lift.
  - intros _. cbn. repeat split; done.
Qed.

(** X16: however a run ends, the only files whose content it changes are
    the cache file and the lyrics files of the discovered files; no
    discovered audio file is written. *)
Theorem audio_files_never_written (w : World) (f : Final)
    (files : list pystr) :
  main_async w f →
  (run (collect_audio_files directory_path) w).1.1 = Ok files →
  (∀ x, x ≠ cache_file → (∀ p, p ∈ files → x ≠ lrc_path p) →
        w_files (final_world f) !! x = w_files w !! x)
  ∧ ∀ p, p ∈ files → w_files (final_world f) !! p = w_files w !! p.
Proof.
  intros Hrun Hfiles.
  assert (∀ x, x ≠ cache_file → (∀ p, p ∈ files → x ≠ lrc_path p) →
               w_files (final_world f) !! x = w_files w !! x) as Hmain.
  { intros x Hc Hx.
    assert (∀ w0, w_files (run main_setup w0).1.2 !! x = w_files w0 !! x)
      as Hsetup.
    { intros w0. apply (run_files _ _ _ _ all_ops_main_setup).
      intros o Ho. by rewrite Ho. }
    assert (∀ w0, w_files (run main_finish w0).1.2 !! x = w_files w0 !! x)
      as Hfinish.
    { intros w0. apply (run_files _ _ _ _ all_ops_main_finish).
      intros o Ho Hox. by apply Ho in Hox. }
    assert (∀ fs w0 tr s,
              run main_setup w = (Ok fs, w0, tr) →
              rtc sys_step (initial_sys w0 fs) s →
              w_files (sys_world s) !! x = w_files w !! x) as Hloop.
    { intros fs w0 tr s Hs Hreach.
      pose proof (Hsetup w) as Hw0. rewrite Hs in Hw0. cbn in Hw0.
      rewrite <- Hw0.
      apply run_main_setup_Ok in Hs as (Hfs & _).
      rewrite Hfiles in Hfs. injection Hfs as <-.
      by apply (writes_reachable _ _ _ Hreach). }
    destruct Hrun as [e w' tr Hs|fs w0 tr s i e Hs Hreach Hi
                      |fs w0 tr s results e w' tr' Hs Hreach Hts Hfin
                      |fs w0 tr s results w' tr' Hs Hreach Hts Hfin];
      cbn [final_world].
    - specialize (Hsetup w). by rewrite Hs in Hsetup.
    - eauto.
    - specialize (Hfinish (sys_world s)). rewrite Hfin in Hfinish.
      cbn in Hfinish. rewrite Hfinish. eauto.
    - specialize (Hfinish (sys_world s)). rewrite Hfin in Hfinish.
      cbn in Hfinish. rewrite Hfinish. eauto. }
  split; [exact Hmain|]. intros p Hp.
  pose proof (collected_audio _ _ _ _ Hfiles Hp) as Hall.
  apply Hmain.
  - intros ->. by vm_compute in Hall.
  - intros q _ ->. unfold lrc_path in Hall. by rewrite lrc_not_audio in Hall.
Qed.

Lemma audio_files_never_written_witness :
  ∃ f,
    main_async found_world f
    ∧ (∀ x, x ≠ cache_file → (∀ p, p ∈ [song_path] → x ≠ lrc_path p) →
            w_files (final_world f) !! x = w_files found_world !! x)
    ∧ ∀ p, p ∈ [song_path] →
           w_files (final_world f) !! p = w_files found_world !! p.
Proof.
  assert (main_async found_world
            (Completed (final_world found_run1) (final_counters found_run1)
               [found song_path])) as Hrun.
  { apply main_async_along_completed with (replicate 10 0%nat).
    vm_compute. reflexivity. }
  eexists. split; [exact Hrun|].
  apply (audio_files_never_written found_world _ [song_path] Hrun).
  vm_compute. reflexivity.
Defined.

(** ** Lookups per file *)

Lemma lookups_le_mono {A} n m (p : prog A) :
  (n ≤ m)%nat → lookups_le n p → lookups_le m p.
Proof.
  revert n m. induction p as [a|e|o k IH]; intros n m Hnm; cbn; try done.
  destruct (is_lookup o).
  - destruct n as [|n]; [done|]. destruct m as [|m]; [lia|].
    intros H r. apply (IH r n m); [lia|done].
  - intros H r. by apply (IH r n m).
Qed.

Lemma lookups_le_bind {A B} n m (p : prog A) (f : A → prog B) :
  lookups_le n p → (∀ a, lookups_le m (f a)) →
  lookups_le (n + m) (bind p f).
Proof.
  intros Hp Hf. revert n Hp.
  induction p as [a|e|o k IH]; intros n Hp; cbn in *.
  - eapply lookups_le_mono; [|apply Hf]. lia.
  - done.
  - destruct (is_lookup o).
    + destruct n as [|n]; [done|]. cbn. intros r. by apply IH.
    + intros r. by apply IH.
Qed.

Lemma lookups_le_try {A} n m (p : prog A) (h : exn → prog A) :
  lookups_le n p → (∀ e, lookups_le m (h e)) →
  lookups_le (n + m) (try_except p h).
Proof.
  intros Hp Hh. revert n Hp.
  induction p as [a|e|o k IH]; intros n Hp; cbn in *.
  - done.
  - eapply lookups_le_mono; [|apply Hh]. lia.
  - destruct (is_lookup o).
    + destruct n as [|n]; [done|]. cbn. intros r. by apply IH.
    + intros r. by apply IH.
Qed.

Lemma lookups_le_lift {A} n (r : exn + A) : lookups_le n (lift r).
Proof. by destruct r. Qed.

Lemma lookups_le_is_in_cache p es : lookups_le 0 (is_in_cache p es).
Proof.
  induction es as [|e rest IH]; [done|].
  cbn [is_in_cache]. unfold_monad. cbn [perform bind lookups_le is_lookup].
  intros d. destruct d.
  - apply (lookups_le_bind 0 0); [apply lookups_le_lift|]. intros c.
    by destruct (str_eqb c e).
  - by destruct (str_eqb p e).
Qed.

Lemma lookups_le_get_lyrics ar t al d : lookups_le 1 (get_lyrics ar t al d).
Proof.
  unfold get_lyrics, logging_info, logging_error. unfold_monad.
  apply (lookups_le_bind 1 0).
  - apply (lookups_le_try 1 0); [|done].
    cbn [perform bind lookups_le is_lookup]. intros r.
    apply (lookups_le_bind 0 0); [apply lookups_le_lift|]. intros resp.
    destruct (status_code resp =? 200)%Z; [|done].
    apply (lookups_le_bind 0 0); [apply lookups_le_lift|]. intros data.
    apply (lookups_le_bind 0 0); [apply lookups_le_lift|]. intros synced.
    apply (lookups_le_bind 0 0).
    + destruct (truthy synced); [done|apply lookups_le_lift].
    + intros lyrics. by destruct (truthy lyrics).
  - intros [v|]; done.
Qed.

Lemma lookups_le_process_file p : lookups_le 1 (process_file p).
Proof.
  rewrite process_file_post_check. cbn [lookups_le is_lookup]. intros ce.
  apply (lookups_le_bind 0 1); [apply lookups_le_is_in_cache|]. intros hit.
  unfold post_check. destruct hit; [done|].
  unfold_monad. cbn [perform bind lookups_le is_lookup]. intros present.
  destruct present; [done|].
  apply (lookups_le_bind 0 1).
  - apply (lookups_le_try 0 0); [|done]. apply (lookups_le_bind 0 0).
    + unfold get_song_details. unfold_monad.
      cbn [perform bind lookups_le is_lookup]. intros r.
      apply (lookups_le_bind 0 0); [apply lookups_le_lift|]. intros audio.
      apply (lookups_le_bind 0 0); [by destruct (duration audio)|done].
    + intros [[[al t] ar] d]. by destruct (falsy_str ar || falsy_str t).
  - intros [out|[[[al t] ar] d]]; [done|].
    unfold lookup_stage, with_sem. unfold_monad.
    apply (lookups_le_bind 1 0).
    + cbn [perform bind lookups_le is_lookup]. intros _.
      apply (lookups_le_bind 1 0).
      * apply (lookups_le_try 1 0); [apply lookups_le_get_lyrics|].
        intros e. by cbn.
      * intros r. by cbn.
    + intros [v|]; [|done]. unfold write_stage, write_text. unfold_monad.
      apply (lookups_le_try 0 0); [|done].
      apply (lookups_le_bind 0 0); [|done].
      apply (lookups_le_bind 0 0).
      * cbn [perform bind lookups_le is_lookup]. intros r.
        apply lookups_le_lift.
      * intros _. destruct v; try done.
        cbn [perform bind lookups_le is_lookup]. intros r.
        apply lookups_le_lift.
Qed.

Lemma handle_requests o w r w' :
  handle o w = Some (r, w') →
  w_requests w' = (w_requests w + (if is_lookup o then 1 else 0))%nat.
Proof.
  destruct o; cbn; intros H; simplify_eq; cbn; try lia.
  - destruct (w_read_error w p); [simplify_eq; lia|].
    destruct (w_files w !! p); simplify_eq; lia.
  - destruct (w_open_error w p); [simplify_eq; lia|].
    destruct (w_isdir w p); simplify_eq; cbn; lia.
  - destruct (w_write_error w p data); simplify_eq; cbn; lia.
  - destruct (w_sem w); simplify_eq; cbn; lia.
Qed.

Lemma sum_list_insert (bs : list nat) (i : nat) (b b' : nat) :
  bs !! i = Some b →
  (sum_list (<[i := b']> bs) + b = sum_list bs + b')%nat.
Proof.
  revert i. induction bs as [|x bs IH]; intros [|i] Hi; simplify_eq/=.
  - lia.
  - specialize (IH i Hi). lia.
Qed.

Lemma lookup_inv_step w0 n s s' :
  lookup_inv w0 n s → sys_step s s' → lookup_inv w0 n s'.
Proof.
  intros (bs & Hts & Hev & Hsum & Hreq) [i Hstep].
  apply task_step_inv in Hstep
    as (t & t' & w' & c' & ops & Ht & Hstep & ->).
  destruct (Forall2_lookup_l _ _ _ _ _ Hts Ht) as (b & Hb & Hok).
  unfold lookup_inv. cbn [sys_world sys_tasks sys_events].
  apply step_of_inv in Hstep
    as [(o & k & r & -> & Hh & -> & -> & ->)|(result & -> & -> & -> & ->)].
  - apply handle_requests in Hh. cbn [lookups_le] in Hok.
    exists (<[i := if is_lookup o then pred b else b]> bs).
    assert (∀ j, lookups_by j (sys_events s ++ map (pair i) [o])
                 = (lookups_by j (sys_events s)
                    + (if decide (i = j) then
                         if is_lookup o then 1 else 0
                       else 0))%nat) as Hby.
    { intros j. unfold lookups_by. rewrite filter_app, length_app. f_equal.
      cbn [map]. rewrite filter_cons, filter_nil. cbn [fst snd].
      destruct (decide (i = j)) as [->|Hne], (is_lookup o) eqn:Hl;
        case_decide as Hd; cbn; try done;
        first [exfalso; apply Hd; done | destruct Hd; congruence]. }
    split; [|split; [|split]].
    + apply Forall2_insert; [done|].
      destruct (is_lookup o); [|apply Hok].
      destruct b as [|b]; [done|]. apply Hok.
    + intros j. rewrite Hby. specialize (Hev j).
      destruct (decide (i = j)) as [<-|Hne].
      * rewrite list_lookup_insert_eq by (by eapply lookup_lt_Some).
        rewrite Hb in Hev. cbn in *.
        destruct (is_lookup o); [|lia]. destruct b; [done|cbn; lia].
      * rewrite list_lookup_insert_ne by done. lia.
    + pose proof (sum_list_insert bs i b
                    (if is_lookup o then pred b else b) Hb) as Hs.
      destruct (is_lookup o); [|lia]. destruct b; [done|cbn in *; lia].
    + rewrite Hh, Hreq, filter_app, length_app. cbn [map].
      rewrite filter_cons, filter_nil. cbn [snd].
      destruct (is_lookup o) eqn:Hl; case_decide as Hd; cbn; try done; lia.
  - exists bs. cbn [map]. rewrite app_nil_r.
    split; [|split; [done|split]].
    + rewrite <- (list_insert_id bs i b) by done. by apply Forall2_insert.
    + by destruct result.
    + by destruct result.
Qed.

Lemma lookup_inv_initial w files :
  lookup_inv w (length files) (initial_sys w files).
Proof.
  exists (replicate (length files) 1%nat).
  cbn [initial_sys sys_world sys_tasks sys_events set_sem w_requests].
  split; [|split; [|split]].
  - induction files as [|p ps IH]; cbn; constructor; [|done].
    apply lookups_le_process_file.
  - intros j. unfold lookups_by. cbn.
    destruct (replicate (length files) 1%nat !! j) as [b|] eqn:Hj; cbn; [|lia].
    apply lookup_replicate in Hj as [-> _]. lia.
  - assert (sum_list (replicate (length files) 1%nat) = length files) as ->.
    { induction files as [|p ps IH]; [done|]. cbn. by rewrite IH. }
    done.
  - cbn. lia.
Qed.

Lemma lookup_inv_reachable w files s :
  rtc sys_step (initial_sys w files) s → lookup_inv w (length files) s.
Proof.
  revert s. apply rtc_ind_r; [apply lookup_inv_initial|].
  eauto using lookup_inv_step.
Qed.

(** X17: in every state of a run each task has performed at most one
    lookup, and the number of requests sent is the number of lookups
    performed, at most the number of discovered files. *)
Theorem one_lookup_per_file (w : World) (files : list pystr) (s : Sys) :
  rtc sys_step (initial_sys w files) s →
  (∀ i, lookups_by i (sys_events s) ≤ 1)%nat
  ∧ (w_requests (sys_world s)
     = w_requests w
       + length (filter (λ ev, is_lookup ev.2 = true) (sys_events s)))%nat
  ∧ (w_requests (sys_world s) ≤ w_requests w + length files)%nat.
Proof.
  intros (bs & _ & Hev & Hsum & Hreq)%lookup_inv_reachable.
  split; [|split; [done|lia]]. intros i. specialize (Hev i). lia.
Qed.

Lemma one_lookup_per_file_witness :
  (∀ i, lookups_by i (sys_events found_state) ≤ 1)%nat
  ∧ (w_requests (sys_world found_state)
     = w_requests found_world
       + length (filter (λ ev, is_lookup ev.2 = true)
                   (sys_events found_state)))%nat
  ∧ (w_requests (sys_world found_state)
     ≤ w_requests found_world + length [song_path])%nat.
Proof.
  apply (one_lookup_per_file found_world [song_path] found_state).
  apply run_schedule_reachable with (replicate 10 0%nat).
  vm_compute. reflexivity.
Defined.

(** ** The semaphore at rest *)

Lemma run_sem_discipline {A} h hret hraise (p : prog A) w :
  sem_discipline h hret hraise p →
  (1 ≤ w_sem w + (if h then 1 else 0))%nat →
  match run p w with
  | (Ok _, w', _) =>
      (w_sem w' + (if hret then 1 else 0)
       = w_sem w + (if h then 1 else 0))%nat
  | (Raised _, w', _) =>
      (w_sem w' + (if hraise then 1 else 0)
       = w_sem w + (if h then 1 else 0))%nat
  | (Blocked, _, _) => False
  end.
Proof.
  revert h w. induction p as [a|e|o k IH]; intros h w; cbn.
  - by intros ->.
  - by intros ->.
  - intros [Ho Hk] Hsem.
    destruct (handle o w) as [[r w']|] eqn:Hh.
    + specialize (IH r (holds_after h o) w' (Hk r)).
      assert (w_sem w' + (if holds_after h o then 1 else 0)
              = w_sem w + (if h then 1 else 0))%nat as Hw.
      { destruct o;
          try (rewrite (handle_sem_unchanged _ _ _ _ Hh) by done;
               cbn [holds_after]; lia).
        - cbn in Hh, Ho. destruct h; [done|].
          destruct (w_sem w) eqn:Hs; simplify_eq. cbn. lia.
        - cbn in Hh, Ho. destruct h; [|done]. simplify_eq. cbn. lia. }
      destruct (run (k r) w') as [[[a|e|] w''] tr]; cbn; lia.
    + destruct o; cbn in Hh; try done.
      * destruct (w_read_error w p); [done|].
        by destruct (w_files w !! p).
      * destruct (w_open_error w p); [done|]. by destruct (w_isdir w p).
      * by destruct (w_write_error w p data).
      * cbn in Ho. destruct h; [done|].
        destruct (w_sem w); [cbn in Hsem; lia|done].
Qed.

(** X18: run alone with a free slot, [process_file] never blocks, and the
    semaphore has the value it had when [process_file] returns or raises. *)
Theorem semaphore_is_released (w : World) (p : pystr) :
  (0 < w_sem w)%nat →
  ∃ r w' tr, run (process_file p) w = (r, w', tr)
             ∧ r ≠ Blocked ∧ w_sem w' = w_sem w.
Proof.
  intros Hsem.
  pose proof (run_sem_discipline false false false (process_file p) w
                (sem_discipline_process_file p)) as H.
  destruct (run (process_file p) w) as [[r w'] tr].
  exists r, w', tr. split; [done|].
  destruct r; cbn in H; (split; [done|lia]) || (exfalso; apply H; lia).
Qed.

Lemma semaphore_is_released_witness :
  ∃ r w' tr,
    run (process_file song_path) found_world = (r, w', tr)
    ∧ r ≠ Blocked ∧ w_sem w' = w_sem found_world.
Proof.
  apply (semaphore_is_released found_world song_path).
  unfold found_world, song_world, MAX_CONCURRENCY; simpl; lia.
Defined.

(** X19: when a run completes, every slot of the semaphore is free. *)
Theorem completed_run_frees_semaphore (w wf : World) (c : Counters)
    (results : list Outcome) :
  main_async w (Completed wf c results) → w_sem wf = MAX_CONCURRENCY.
Proof.
  inversion 1 as [| | |files w1 tr s res w' tr' Hsetup Hreach Hts Hfin];
    subst.
  apply run_main_finish_Ok in Hfin. subst wf. cbn [set_files w_sem].
  destruct (sem_inv_reachable _ _ _ Hreach) as (hs & Hok & Hsum).
  rewrite Hts in Hok.
  assert (count_true hs = 0%nat) as Hz; [|lia].
  clear -Hok. revert hs Hok.
  induction results as [|r rs IH]; intros hs Hok.
  - by inversion Hok.
  - inversion Hok as [|? h ? hs' Hh Hrest]; subst. cbn in Hh. subst h.
    unfold count_true in *. rewrite filter_cons_False by done. by apply IH.
Qed.

Lemma completed_run_frees_semaphore_witness :
  w_sem (final_world found_run1) = MAX_CONCURRENCY.
Proof.
  apply (completed_run_frees_semaphore found_world (final_world found_run1)
           (final_counters found_run1) [found song_path]).
  apply main_async_along_completed with (replicate 10 0%nat).
  vm_compute. reflexivity.
Defined.

(** ** The end of a run *)

Lemma tasks_cases (ts : list Task) :
  (∃ results, ts = map Consumed results) ∨ ∃ i q, ts !! i = Some (Pending q).
Proof.
  induction ts as [|t ts [[results ->]|(i & q & Hi)]].
  - left. by exists [].
  - destruct t as [q|out].
    + right. by exists 0%nat, q.
    + left. by exists (out :: results).
  - right. by exists (S i), q.
Qed.

Lemma count_true_pos (hs : list bool) :
  (0 < count_true hs)%nat → ∃ j, hs !! j = Some true.
Proof.
  unfold count_true. induction hs as [|h hs IH]; [cbn; lia|].
  rewrite filter_cons. destruct h.
  - intros _. by exists 0%nat.
  - rewrite decide_False by done. intros (j & Hj)%IH. by exists (S j).
Qed.

Lemma handle_enabled o w :
  o ≠ SemAcquire ∨ (0 < w_sem w)%nat → is_Some (handle o w).
Proof.
  intros Ho. destruct o; cbn; try by eexists.
  - destruct (w_read_error w p); [by eexists|].
    destruct (w_files w !! p); by eexists.
  - destruct (w_open_error w p); [by eexists|].
    destruct (w_isdir w p); by eexists.
  - destruct (w_write_error w p data); by eexists.
  - destruct Ho as [?|Hs]; [done|]. destruct (w_sem w); [lia|by eexists].
Qed.

Lemma pending_step i s q :
  sys_tasks s !! i = Some (Pending q) →
  (∀ o k, q = Vis o k → o ≠ SemAcquire ∨ (0 < w_sem (sys_world s))%nat) →
  (∃ e, q = Raise e) ∨ ∃ s', sys_step s s'.
Proof.
  intros Hi Hq. destruct q as [out|e|o k].
  - right. destruct (run_loop_body out (sys_counters s) (sys_world s))
      as (c' & tr & Hrun).
    assert (∃ t' w' c1 ops,
              step_of (Pending (Ret out)) (sys_world s) (sys_counters s)
              = Some (t', w', c1, ops)) as (t' & w' & c1 & ops & Hs).
    { cbn. rewrite Hrun. by eexists _, _, _, _. }
    destruct (task_step_eq i s _ _ _ _ _ Hi Hs) as (s' & Hs' & _).
    exists s'. by exists i.
  - left. by exists e.
  - right. destruct (handle_enabled o (sys_world s)) as [[r w'] Hh]; [eauto|].
    destruct (task_step_eq i s _ (Pending (k r)) w' (sys_counters s) [o] Hi)
      as (s' & Hs & _).
    { cbn. by rewrite Hh. }
    exists s'. by exists i.
Qed.

Lemma sem_inv_progress s :
  sem_inv s → all_consumed s ∨ task_raised s ∨ ∃ s', sys_step s s'.
Proof.
  intros (hs & Hts & Hsum).
  destruct (tasks_cases (sys_tasks s)) as [Hall|(i & q & Hi)]; [by left|].
  right. destruct (w_sem (sys_world s)) as [|n] eqn:Hsem.
  - destruct (count_true_pos hs) as [j Hj].
    { unfold MAX_CONCURRENCY in Hsum. lia. }
    destruct (Forall2_lookup_r _ _ _ _ _ Hts Hj) as (t & Ht & Hok).
    destruct t as [q'|out]; [|done]. cbn in Hok.
    destruct (pending_step j s q' Ht) as [[e ->]|Hstep]; [|done|by right].
    intros o k ->. left. destruct Hok as [Ho _]. intros ->. done.
  - destruct (pending_step i s q Hi) as [[e ->]|Hstep].
    + intros o k _. right. lia.
    + left. by exists i, e.
    + by right.
Qed.

Lemma task_succ_Acc t : Acc task_succ t.
Proof.
  assert (∀ out, Acc task_succ (Consumed out)) as Hc.
  { intros out. constructor. by intros t' (w & c & w' & c' & ops & H). }
  destruct t as [q|out]; [|done].
  induction q as [out|e|o k IH]; constructor;
    intros t' (w & c & w' & c' & ops & H).
  - apply step_of_inv in H
      as [(? & ? & ? & ? & _)|(result & _ & -> & _)]; [done|]. apply Hc.
  - done.
  - cbn in H. destruct (handle o w) as [[r w'']|]; [|done].
    injection H as <- _ _ _. apply IH.
Qed.

Lemma tasks_succ_Acc ts : Acc tasks_succ ts.
Proof.
  assert (∀ a, Acc task_succ a →
               ∀ l, Acc tasks_succ l → Acc tasks_succ (a :: l)) as Hcons.
  { clear ts. induction 1 as [a _ IHa]. induction 1 as [ts Hts IHts].
    constructor. intros ts' (i & t & t' & Hl & Hs & ->).
    destruct i as [|i]; cbn in *.
    - injection Hl as ->. apply IHa; [done|]. by constructor.
    - apply IHts. by exists i, t, t'. }
  induction ts as [|a ts IH].
  - constructor. by intros ts' (i & t & t' & Hl & _).
  - apply Hcons; [apply task_succ_Acc|done].
Qed.

Lemma sys_step_tasks s s' :
  sys_step s s' → tasks_succ (sys_tasks s') (sys_tasks s).
Proof.
  intros [i Hstep].
  apply task_step_inv in Hstep
    as (t & t' & w' & c' & ops & Ht & Hstep & ->).
  exists i, t, t'. split; [done|]. split; [|done].
  by exists (sys_world s), (sys_counters s), w', c', ops.
Qed.

Lemma sys_step_Acc s : Acc (flip sys_step) s.
Proof.
  pose proof (tasks_succ_Acc (sys_tasks s)) as Hacc.
  remember (sys_tasks s) as ts eqn:Hts. revert s Hts.
  induction Hacc as [ts _ IH]. intros s ->.
  constructor. intros s' Hstep. apply (IH (sys_tasks s')); [|done].
  by apply sys_step_tasks.
Qed.

(** X20: in every state of a run, every result has been awaited, or a task
    has raised, or a step is possible (the semaphore never blocks every
    task); there is no infinite sequence of steps; and a state in which the
    run ends can be reached. *)
Theorem run_always_ends (w : World) (files : list pystr) (s : Sys) :
  rtc sys_step (initial_sys w files) s →
  (all_consumed s ∨ task_raised s ∨ ∃ s', sys_step s s')
  ∧ Acc (flip sys_step) s
  ∧ ∃ s', rtc sys_step s s' ∧ (all_consumed s' ∨ task_raised s').
Proof.
  intros Hreach.
  split; [by eapply sem_inv_progress, sem_inv_reachable|].
  split; [apply sys_step_Acc|].
  induction (sys_step_Acc s) as [s _ IH].
  destruct (sem_inv_progress s) as [H|[H|[s1 Hstep]]];
    [by eapply sem_inv_reachable| | |].
  - exists s. split; [done|by left].
  - exists s. split; [done|by right].
  - destruct (IH s1 Hstep) as (s' & Hs' & Hend); [by eapply rtc_r|].
    exists s'. split; [by eapply rtc_l|done].
Qed.

Lemma run_always_ends_witness :
  (all_consumed found_state ∨ task_raised found_state
   ∨ ∃ s', sys_step found_state s')
  ∧ Acc (flip sys_step) found_state
  ∧ ∃ s', rtc sys_step found_state s'
          ∧ (all_consumed s' ∨ task_raised s').
Proof.
  apply (run_always_ends found_world [song_path] found_state).
  apply run_schedule_reachable with (replicate 10 0%nat).
  vm_compute. reflexivity.
Defined.

(** ** Why a run aborts *)
















